(** * Gunrock: sparse graph store, BFS functor and parameter registry

    A shallow embedding of
    - [gunrock/util/types.cuh]       (limits, sentinels, [isValid]),
    - [bfs_functor.cuh]              (the BFS condition/apply functor),
    - [gunrock/util/parameters.h]    (the parameter registry),
    - [gunrock/graph/csc.cuh]        (the compressed sparse column graph),
    followed by the properties proved about them.

    Conventions.  A C++ [int] is a [Z] kept in the 32-bit two's complement
    range by [wrap32]; arrays are lists indexed through [Z.to_nat], and an
    access outside the array is an error ([None]); [std::map] is a [gmap];
    a [cudaError_t] is an enumeration whose zero is [cudaSuccess]. *)

From stdpp Require Import base numbers option list gmap strings sorting pretty.
From Stdlib Require Import Ascii.

Local Open Scope Z_scope.
Local Set Warnings "-clear-no-such-hyp".

(** ** Status codes *)

(** The values of [cudaError_t] the modelled code returns or receives. *)
Inductive cudaError_t : Set :=
| cudaSuccess
| cudaErrorMemoryAllocation
| cudaErrorInvalidValue
| cudaErrorInvalidSymbol
| cudaErrorUnknown.

#[global] Instance cudaError_t_eq_dec : EqDecision cudaError_t.
Proof. solve_decision. Defined.

(** [if (retval = f()) return retval;] tests the status against zero. *)
Definition is_error (retval : cudaError_t) : bool :=
  match retval with cudaSuccess => false | _ => true end.

(** ** gunrock/util/types.cuh *)

Module Types.

Definition INT_MAX : Z := 2147483647.
Definition INT_MIN : Z := -2147483648.

(** Conversion to [int]: the value modulo 2^32, in the signed range. *)
Definition wrap32 (z : Z) : Z := (z + 2147483648) `mod` 4294967296 - 2147483648.

(** [a + b] on [int]. *)
Definition int_add (a b : Z) : Z := wrap32 (a + b).

Definition MaxValue_int : Z := INT_MAX.
Definition MinValue_int : Z := INT_MIN.
Definition AllZeros_int : Z := wrap32 0x00000000.
Definition AllOnes_int : Z := wrap32 0xFFFFFFFF.

(** [InvalidValue<int>()]: [(int)-1]. *)
Definition InvalidValue_int : Z := wrap32 (-1).

(** [isValid<T>(val)]: [return val >= 0;] *)
Definition isValid (val : Z) : bool := bool_decide (0 ≤ val).

End Types.

(** ** Device arrays *)

(** [arr[i]] for reading: [None] outside the array. *)
Definition load (arr : list Z) (i : Z) : option Z :=
  if bool_decide (0 ≤ i) then arr !! Z.to_nat i else None.

(** [arr[i] = v]: [None] outside the array. *)
Definition store (arr : list Z) (i v : Z) : option (list Z) :=
  if bool_decide (0 ≤ i ∧ i < Z.of_nat (length arr))
  then Some (<[Z.to_nat i := v]> arr)
  else None.

(** CUDA's [atomicCAS(address, compare, val)]: reads [old] at the address,
    writes [old == compare ? val : old] there, and returns [old], as one
    indivisible action. *)
Definition atomicCAS (arr : list Z) (i compare val : Z) : option (Z * list Z) :=
  old ← load arr i;
  arr' ← store arr i (if bool_decide (old = compare) then val else old);
  Some (old, arr').

(** ** bfs_functor.cuh *)

Module BFSFunctor.

(** [ProblemData::DataSlice]: the per-traversal arrays the functor touches. *)
Record DataSlice : Set := mkDataSlice {
  d_labels : list Z;
  d_preds  : list Z
}.

Section Functor.

(** The compile-time switch [ProblemData::MARK_PREDECESSORS] and the three
    sentinel macros, whose definitions are outside the functor's file. *)
Variable MARK_PREDECESSORS : bool.
Variables INVALID_NODE_ID INVALID_NODE_VALUE INVALID_PREDECESSOR_ID : Z.

(** [CondEdge(s_id, d_id, p)]: the result and the slice after the call. *)
Definition CondEdge (s_id d_id : Z) (p : DataSlice) : option (bool * DataSlice) :=
  if MARK_PREDECESSORS then
    '(old, preds) ← atomicCAS (d_preds p) d_id INVALID_PREDECESSOR_ID s_id;
    Some (bool_decide (old = INVALID_PREDECESSOR_ID),
          mkDataSlice (d_labels p) preds)
  else
    '(old, labels) ← atomicCAS (d_labels p) d_id INVALID_NODE_VALUE
                               (Types.int_add s_id 1);
    Some (bool_decide (old = INVALID_NODE_VALUE),
          mkDataSlice labels (d_preds p)).

(** [ApplyEdge] reads [d_labels[s_id]] and then writes [d_labels[d_id]]:
    two separate memory actions. *)
Definition ApplyEdge_load (s_id : Z) (p : DataSlice) : option Z :=
  load (d_labels p) s_id.

Definition ApplyEdge_store (d_id v : Z) (p : DataSlice) : option DataSlice :=
  labels ← store (d_labels p) d_id (Types.int_add v 1);
  Some (mkDataSlice labels (d_preds p)).

Definition ApplyEdge (s_id d_id : Z) (p : DataSlice) : option DataSlice :=
  if MARK_PREDECESSORS then
    v ← ApplyEdge_load s_id p;
    ApplyEdge_store d_id v p
  else Some p.

(** [CondVertex(node, p)] is declared [__device__ void]: a call yields no
    value.  Its body is the one statement [return node != INVALID_NODE_ID;],
    whose expression is [CondVertex_test]. *)
Definition CondVertex_test (node : Z) : bool :=
  negb (bool_decide (node = INVALID_NODE_ID)).

Definition CondVertex (node : Z) (p : DataSlice) : unit := tt.

(** [ApplyVertex(node, p)]: empty body. *)
Definition ApplyVertex (node : Z) (p : DataSlice) : DataSlice := p.

End Functor.

End BFSFunctor.

(** ** The Advance operator over the BFS functor *)

Module Advance.
Import BFSFunctor.

(** Modelled from the spec: the Advance operator itself is not part of the
    functor's file.  Every edge of the step is handled by a worker of its
    own that evaluates [CondEdge] and, when it returned true, [ApplyEdge];
    workers run concurrently in no fixed order.  A worker's program counter
    says which of its memory actions comes next. *)
Inductive pc : Set :=
| Ready                  (* before CondEdge *)
| Claimed                (* CondEdge returned true, ApplyEdge not started *)
| Loaded (v : Z)         (* ApplyEdge has read d_labels[s_id] *)
| Finished (won : bool). (* done; [won] is what CondEdge returned *)

Record worker : Set := mkWorker {
  w_src : Z;
  w_dst : Z;
  w_pc  : pc
}.

(** The state of one Advance step: its workers, the shared slice, and the
    writes performed by [ApplyEdge] so far (destination, value), latest
    first. *)
Record state : Set := mkState {
  workers : list worker;
  slice   : DataSlice;
  applied : list (Z * Z)
}.

Section Operator.

Variable MARK_PREDECESSORS : bool.
Variables INVALID_NODE_VALUE INVALID_PREDECESSOR_ID : Z.

(** One memory action of worker [w]; [None] when the worker has finished
    or the action falls outside an array. *)
Definition worker_step (w : worker) (p : DataSlice) (log : list (Z * Z))
  : option (worker * DataSlice * list (Z * Z)) :=
  match w_pc w with
  | Ready =>
      '(b, p') ← CondEdge MARK_PREDECESSORS INVALID_NODE_VALUE
                          INVALID_PREDECESSOR_ID (w_src w) (w_dst w) p;
      Some (mkWorker (w_src w) (w_dst w) (if b : bool then Claimed else Finished false),
            p', log)
  | Claimed =>
      if MARK_PREDECESSORS then
        v ← ApplyEdge_load (w_src w) p;
        Some (mkWorker (w_src w) (w_dst w) (Loaded v), p, log)
      else Some (mkWorker (w_src w) (w_dst w) (Finished true), p, log)
  | Loaded v =>
      p' ← ApplyEdge_store (w_dst w) v p;
      Some (mkWorker (w_src w) (w_dst w) (Finished true), p',
            (w_dst w, Types.int_add v 1) :: log)
  | Finished _ => None
  end.

(** The worker with index [i] performs its next action. *)
Definition step (i : nat) (st : state) : option state :=
  w ← workers st !! i;
  '(w', p', log') ← worker_step w (slice st) (applied st);
  Some (mkState (<[i := w']> (workers st)) p' log').

(** A schedule names, action by action, the worker that moves. *)
Fixpoint run (schedule : list nat) (st : state) : option state :=
  match schedule with
  | [] => Some st
  | i :: rest => st' ← step i st; run rest st'
  end.

End Operator.

(** The step starts with one ready worker per edge [(s, d)]. *)
Definition spawn (edges : list (Z * Z)) : list worker :=
  map (λ e, mkWorker e.1 e.2 Ready) edges.

Definition finished (w : worker) : bool :=
  match w_pc w with Finished _ => true | _ => false end.

Definition all_finished (st : state) : bool := forallb finished (workers st).

(** Worker [w] handles an edge into [d] and its CondEdge returned true. *)
Definition claimed (d : Z) (w : worker) : bool :=
  bool_decide (w_dst w = d) &&
  match w_pc w with Ready | Finished false => false | _ => true end.

(** Worker [w] handles an edge into [d] and has completed its ApplyEdge. *)
Definition completed (d : Z) (w : worker) : bool :=
  bool_decide (w_dst w = d) &&
  match w_pc w with Finished true => true | _ => false end.

Definition count (f : worker → bool) (ws : list worker) : nat :=
  length (filter (λ w, f w = true) ws).

(** The ApplyEdge writes that went to [d]. *)
Definition applied_to (d : Z) (log : list (Z * Z)) : list (Z * Z) :=
  filter (λ e, e.1 = d) log.

End Advance.

(** ** gunrock/util/parameters.h *)

Module Util.

(** [Parameter_Flag] is an [unsigned int]; the flag bits of the anonymous
    enumeration. *)
Definition Parameter_Flag : Set := N.

Definition NO_ARGUMENT        : Parameter_Flag := 0x01%N.
Definition REQUIRED_ARGUMENT  : Parameter_Flag := 0x02%N.
Definition OPTIONAL_ARGUMENT  : Parameter_Flag := 0x04%N.
Definition SINGLE_VALUE       : Parameter_Flag := 0x20%N.
Definition MULTI_VALUE        : Parameter_Flag := 0x40%N.
Definition REQUIRED_PARAMETER : Parameter_Flag := 0x100%N.
Definition OPTIONAL_PARAMETER : Parameter_Flag := 0x200%N.

(** What a [const std::type_info*] can point to: the types [TypeName]
    tells apart, and any other type by its implementation name. *)
Inductive type_info : Set :=
| ti_char | ti_signed_char | ti_unsigned_char
| ti_short | ti_unsigned_short
| ti_int | ti_unsigned_int
| ti_long | ti_unsigned_long
| ti_long_long | ti_unsigned_long_long
| ti_bool
| ti_float | ti_double | ti_long_double
| ti_string | ti_char_ptr
| ti_other (implementation_name : string).

#[global] Instance type_info_eq_dec : EqDecision type_info.
Proof. solve_decision. Defined.

Record Parameter_Item : Set := mkItem {
  name            : string;
  flag            : Parameter_Flag;
  default_value   : string;
  description     : string;
  value           : string;
  use_default     : bool;
  value_type_info : type_info;
  file_name       : string;
  line_num        : Z
}.

(** The registry: [p_map] and [summary]. *)
Record Parameters : Type := mkParameters {
  p_map   : gmap string Parameter_Item;
  summary : string
}.

(** The constructor: an empty map. *)
Definition new_Parameters (summary : string) : Parameters :=
  mkParameters ∅ summary.

(** A line written to [std::cerr] by [Check_Required]:
    "Error : Required parameter <name>(<file_name>:<line_num>) is not
    present." *)
Inductive cerr_line : Set :=
| Required_not_present (name file_name : string) (line_num : Z).

(** [Use(name, flag, default_value, description, value_type_info,
    file_name, line_num)].  [GRError] reports its message and returns the
    code it was given; the texts written to the console by [Use], [Set]
    and [GRError] are left out. *)
Definition Use (name : string) (flag : Parameter_Flag)
    (default_value description : string) (value_type_info : type_info)
    (file_name : string) (line_num : Z) (P : Parameters)
  : cudaError_t * Parameters :=
  (* special case for no argument parameters *)
  if bool_decide (N.land flag NO_ARGUMENT = NO_ARGUMENT)
     && bool_decide (value_type_info ≠ ti_bool)
  then (cudaErrorInvalidValue, P)
  else
    let p_item :=
      mkItem name flag default_value description default_value true
             value_type_info file_name line_num in
    (* test for duplication *)
    match p_map P !! name with
    | Some it =>
        if bool_decide (Util.file_name it ≠ file_name)
           || bool_decide (Util.line_num it ≠ line_num)
        then (cudaErrorInvalidSymbol, P)
        else (cudaSuccess, mkParameters (<[name := p_item]> (p_map P)) (summary P))
    | None =>
        (cudaSuccess, mkParameters (<[name := p_item]> (p_map P)) (summary P))
    end.

(** [Set(name, value)]. *)
Definition Set_ (name value : string) (P : Parameters)
  : cudaError_t * Parameters :=
  match p_map P !! name with
  | None => (cudaErrorInvalidValue, P)
  | Some it =>
      let it' :=
        mkItem (Util.name it) (flag it) (default_value it) (description it)
               value false (value_type_info it) (file_name it) (line_num it) in
      (cudaSuccess, mkParameters (<[name := it']> (p_map P)) (summary P))
  end.

(** [Get(name, value)]: the status and the content of the reference
    [value] after the call. *)
Definition Get (name value : string) (P : Parameters) : cudaError_t * string :=
  match p_map P !! name with
  | None => (cudaErrorInvalidValue, value)
  | Some it => (cudaSuccess, Util.value it)
  end.

(** [std::map<std::string, Parameter_Item>] is walked in the order of its
    keys, which [std::string] compares character by character. *)
Definition key_order (a b : string * Parameter_Item) : Prop :=
  String.leb a.1 b.1 = true.

#[global] Instance key_order_dec : RelDecision key_order.
Proof. intros a b. unfold key_order. apply _. Defined.

Definition entries (P : Parameters) : list (string * Parameter_Item) :=
  merge_sort key_order (map_to_list (p_map P)).

(** The body of the loop of [Check_Required] for one entry of the map. *)
Definition Check_Required_entry (entry : string * Parameter_Item)
  : option cerr_line :=
  let p_item := entry.2 in
  if bool_decide (N.land (flag p_item) REQUIRED_PARAMETER ≠ REQUIRED_PARAMETER)
  then None (* continue *)
  else if bool_decide (value p_item = "")
  then Some (Required_not_present (name p_item) (file_name p_item) (line_num p_item))
  else None.

(** [Check_Required()]: the status it returns and the lines it writes to
    [std::cerr], in the order of the loop over [p_map]. *)
Definition Check_Required (P : Parameters) : cudaError_t * list cerr_line :=
  (cudaSuccess, omap Check_Required_entry (entries P)).

(** A required parameter without a value, and the line [Check_Required]
    writes for it. *)
Definition missing (entry : string * Parameter_Item) : Prop :=
  N.land (flag entry.2) REQUIRED_PARAMETER = REQUIRED_PARAMETER
  ∧ value entry.2 = "".

#[global] Instance missing_dec entry : Decision (missing entry).
Proof. unfold missing. apply _. Defined.

Definition report (entry : string * Parameter_Item) : cerr_line :=
  Required_not_present (name entry.2) (file_name entry.2) (line_num entry.2).

(** The names of the declared parameters that are flagged
    [REQUIRED_PARAMETER] and whose value is empty. *)
Definition missing_required (P : Parameters) : gset string :=
  dom (filter (λ kv, N.land (flag kv.2) REQUIRED_PARAMETER = REQUIRED_PARAMETER
                     ∧ value kv.2 = "") (p_map P)).

End Util.

(** ** Memory and arrays ([gunrock/util/array_utils.cuh]) *)

Module Memory.

(** The memory the arrays live in: the blocks reserved at the moment, and
    what the calls that can fail will answer, one status per call, in
    order (a call past the end of the list succeeds). *)
Record Memory : Type := mkMemory {
  outcomes : list cudaError_t;
  live     : gset nat
}.

(** The status of the next call that can fail. *)
Definition next_outcome (m : Memory) : cudaError_t * Memory :=
  match outcomes m with
  | [] => (cudaSuccess, m)
  | retval :: rest => (retval, mkMemory rest (live m))
  end.

(** Modelled from the spec: [util::Array1D] is not among the sources.  An
    array is released ([pointer = None], no data) or holds a reserved
    block with its elements. *)
Record Array1D (T : Type) : Type := mkArray1D {
  pointer : option nat;
  data    : list T
}.
Arguments mkArray1D {T} _ _.
Arguments pointer {T} _.
Arguments data {T} _.

(** A constructed, not yet allocated array. *)
Definition released {T} : Array1D T := mkArray1D None [].

(** Modelled from the spec: [Array1D::Release] frees the backing storage
    and is safe to call again; freeing a block that is not reserved is
    the error a double free would be. *)
Definition Release {T} (a : Array1D T) (m : Memory)
  : cudaError_t * Array1D T * Memory :=
  match pointer a with
  | None => (cudaSuccess, a, m)
  | Some b =>
      if bool_decide (b ∈ live m)
      then (cudaSuccess, released, mkMemory (outcomes m) (live m ∖ {[b]}))
      else (cudaErrorInvalidValue, a, m)
  end.

(** Modelled from the spec: [Array1D::Allocate(size, target)] reserves
    storage for [size] elements or fails with the status the memory
    answers; a negative size is an invalid argument.  Storage the array
    still holds is released first.  The elements start as [dflt]. *)
Definition Allocate {T} (dflt : T) (size : Z) (a : Array1D T) (m : Memory)
  : cudaError_t * Array1D T * Memory :=
  if bool_decide (size < 0) then (cudaErrorInvalidValue, a, m) else
  let '(retval, a, m) := Release a m in
  if is_error retval then (retval, a, m) else
  let '(retval, m) := next_outcome m in
  if is_error retval then (retval, a, m) else
  let b := fresh (live m) in
  (cudaSuccess,
   mkArray1D (Some b) (replicate (Z.to_nat size) dflt),
   mkMemory (outcomes m) ({[b]} ∪ live m)).

(** [a[i]]: the arrays are read inside their bounds by the code below; a
    read outside, undefined in C++, yields 0 here. *)
Definition read (a : Array1D Z) (i : Z) : Z :=
  default 0 (data a !! Z.to_nat i).

(** Modelled from the spec: [this.ForEach(other, op, length)] applies
    [op(this[i], other[i])] for every [i < length]; lengths beyond either
    array are an invalid argument, and the launch can fail. *)
Definition ForEach {T U} (op : T → U → T) (len : Z) (other : list U)
    (a : Array1D T) (m : Memory) : cudaError_t * Array1D T * Memory :=
  if bool_decide (len < 0 ∨ Z.of_nat (length (data a)) < len
                  ∨ Z.of_nat (length other) < len)
  then (cudaErrorInvalidValue, a, m) else
  let '(retval, m) := next_outcome m in
  if is_error retval then (retval, a, m) else
  (cudaSuccess,
   mkArray1D (pointer a)
     (foldl (λ arr i,
               match arr !! i, other !! i with
               | Some elem, Some elem_in => <[i := op elem elem_in]> arr
               | _, _ => arr
               end)
            (data a) (seq 0 (Z.to_nat len))),
   m).

(** Modelled from the spec: [this.ForAll(other, op, length)] applies
    [op(this_array, other_array, i)] for every [i < length]; [op] is
    given here by what it makes of [this_array]. *)
Definition ForAll {T U} (op : list T → list U → Z → list T) (len : Z)
    (other : list U) (a : Array1D T) (m : Memory)
  : cudaError_t * Array1D T * Memory :=
  if bool_decide (len < 0 ∨ Z.of_nat (length (data a)) < len)
  then (cudaErrorInvalidValue, a, m) else
  let '(retval, m) := next_outcome m in
  if is_error retval then (retval, a, m) else
  (cudaSuccess,
   mkArray1D (pointer a) (foldl (λ arr i, op arr other i) (data a) (seqZ 0 len)),
   m).

(** Modelled from the spec: [util::BinarySearch(x, elements, left, right,
    comp)] over elements ordered by [comp]: the position of the first
    element in [left, right) that is not below [x], [right] if there is
    none.  The interval is halved until it is empty. *)
Fixpoint BinarySearch_loop {T E} (comp : E → T → bool) (x : T)
    (elements : list E) (fuel : nat) (left right : Z) : Z :=
  match fuel with
  | O => left
  | S fuel =>
      if bool_decide (left < right) then
        let center := (left + right) `div` 2 in
        match elements !! Z.to_nat center with
        | Some e =>
            if comp e x
            then BinarySearch_loop comp x elements fuel (center + 1) right
            else BinarySearch_loop comp x elements fuel left center
        | None => left
        end
      else left
  end.

Definition BinarySearch {T E} (x : T) (elements : list E) (left right : Z)
    (comp : E → T → bool) : Z :=
  BinarySearch_loop comp x elements (Z.to_nat (right - left)) left right.

End Memory.

(** ** The edge-list graph ([gunrock/graph/coo.cuh]) *)

Module Coo.
Import Memory.

(** [EdgePairT]: [x] is the row (source) and [y] the column (destination)
    of an edge. *)
Record EdgePairT : Set := mkEdgePair { x : Z; y : Z }.

#[global] Instance EdgePairT_eq_dec : EqDecision EdgePairT.
Proof. solve_decision. Defined.

Inductive EdgeOrder : Set :=
| UNORDERED | BY_ROW_ASCENDING | BY_COLUMN_ASCENDING.

(** The fields of a COO graph that [Csc::FromCoo] reads; [edge_values]
    is empty for a graph without [HAS_EDGE_VALUES]. *)
Record CooT : Type := mkCoo {
  nodes       : Z;
  edges       : Z;
  directed    : bool;
  edge_order  : EdgeOrder;
  edge_pairs  : list EdgePairT;
  edge_values : list Z
}.

(** The value an order sorts by. *)
Definition order_key (order : EdgeOrder) (e : EdgePairT) : Z :=
  match order with
  | UNORDERED => 0
  | BY_ROW_ASCENDING => x e
  | BY_COLUMN_ASCENDING => y e
  end.

(** Edges compared by their value under [key]. *)
Definition key_le {A} (key : A → Z) (a b : A) : Prop := key a ≤ key b.

#[global] Instance key_le_dec {A} (key : A → Z) : RelDecision (key_le key).
Proof. intros a b. unfold key_le. apply _. Defined.

(** Modelled from the spec: [Coo::Order(new_order)] reorders the edge
    tuples into ascending order on the dimension of [new_order]; a value
    attached to an edge moves with it.  The launch can fail. *)
Definition Order (HAS_EDGE_VALUES : bool) (new_order : EdgeOrder)
    (source : CooT) (m : Memory) : cudaError_t * CooT * Memory :=
  let '(retval, m) := next_outcome m in
  if is_error retval then (retval, source, m) else
  if HAS_EDGE_VALUES then
    let sorted :=
      merge_sort (key_le (λ t, order_key new_order t.1))
                 (zip (edge_pairs source) (edge_values source)) in
    (cudaSuccess,
     mkCoo (nodes source) (edges source) (directed source) new_order
           (sorted.*1) (sorted.*2),
     m)
  else
    (cudaSuccess,
     mkCoo (nodes source) (edges source) (directed source) new_order
           (merge_sort (key_le (order_key new_order)) (edge_pairs source))
           (edge_values source),
     m).

(** The edges of the graph as tuples: source, destination and, for a
    graph with edge values, the weight. *)
Definition tuples (HAS_EDGE_VALUES : bool) (source : CooT)
  : list (EdgePairT * option Z) :=
  if HAS_EDGE_VALUES
  then zip_with (λ e v, (e, Some v)) (edge_pairs source) (edge_values source)
  else map (λ e, (e, None)) (edge_pairs source).

(** A well-formed COO graph: the counts are those of the arrays, and
    every endpoint is a vertex of the graph. *)
Definition well_formed (HAS_EDGE_VALUES : bool) (source : CooT) : Prop :=
  0 ≤ nodes source < Types.INT_MAX
  ∧ edges source = Z.of_nat (length (edge_pairs source))
  ∧ (HAS_EDGE_VALUES = true →
     length (edge_values source) = length (edge_pairs source))
  ∧ Forall (λ e, 0 ≤ x e < nodes source ∧ 0 ≤ y e < nodes source)
           (edge_pairs source).

End Coo.

(** ** gunrock/graph/csc.cuh *)

Module Csc.
Import Memory.

(** The CSC graph: the fields of [GraphBase] it inherits and its four
    arrays. *)
Record CscT : Type := mkCsc {
  nodes          : Z;
  edges          : Z;
  directed       : bool;
  row_indices    : Array1D Z;
  column_offsets : Array1D Z;
  edge_values    : Array1D Z;
  node_values    : Array1D Z
}.

Definition set_counts (n e : Z) (g : CscT) : CscT :=
  mkCsc n e (directed g) (row_indices g) (column_offsets g)
        (edge_values g) (node_values g).
Definition set_directed (d : bool) (g : CscT) : CscT :=
  mkCsc (nodes g) (edges g) d (row_indices g) (column_offsets g)
        (edge_values g) (node_values g).
Definition set_row_indices (a : Array1D Z) (g : CscT) : CscT :=
  mkCsc (nodes g) (edges g) (directed g) a (column_offsets g)
        (edge_values g) (node_values g).
Definition set_column_offsets (a : Array1D Z) (g : CscT) : CscT :=
  mkCsc (nodes g) (edges g) (directed g) (row_indices g) a
        (edge_values g) (node_values g).
Definition set_edge_values (a : Array1D Z) (g : CscT) : CscT :=
  mkCsc (nodes g) (edges g) (directed g) (row_indices g) (column_offsets g)
        a (node_values g).
Definition set_node_values (a : Array1D Z) (g : CscT) : CscT :=
  mkCsc (nodes g) (edges g) (directed g) (row_indices g) (column_offsets g)
        (edge_values g) a.

(** The graph the constructor leaves: no array allocated. *)
Definition constructed (g : CscT) : Prop :=
  row_indices g = released ∧ column_offsets g = released
  ∧ edge_values g = released ∧ node_values g = released.

(** Modelled from the spec: [GraphBase::Allocate] and [GraphBase::Release]
    are not among the sources.  [Allocate] records the counts unless the
    memory answers with an error; [Release] has nothing to free. *)
Definition BaseGraph_Allocate (n e : Z) (g : CscT) (m : Memory)
  : cudaError_t * CscT * Memory :=
  let '(retval, m) := next_outcome m in
  if is_error retval then (retval, g, m) else (cudaSuccess, set_counts n e g, m).

Definition BaseGraph_Release (g : CscT) (m : Memory)
  : cudaError_t * CscT * Memory :=
  (cudaSuccess, g, m).

Section Flags.

(** [FLAG & HAS_EDGE_VALUES] and [FLAG & HAS_NODE_VALUES]: without the
    flag the array is a [util::NullArray], whose operations do nothing
    and succeed. *)
Variables HAS_EDGE_VALUES HAS_NODE_VALUES : bool.

Definition unless_null {T} (has : bool)
    (op : Array1D T → Memory → cudaError_t * Array1D T * Memory)
    (a : Array1D T) (m : Memory) : cudaError_t * Array1D T * Memory :=
  if has then op a m else (cudaSuccess, a, m).

(** [Release()] *)
Definition Release (g : CscT) (m : Memory) : cudaError_t * CscT * Memory :=
  let '(retval, a, m) := Memory.Release (column_offsets g) m in
  let g := set_column_offsets a g in
  if is_error retval then (retval, g, m) else
  let '(retval, a, m) := Memory.Release (row_indices g) m in
  let g := set_row_indices a g in
  if is_error retval then (retval, g, m) else
  let '(retval, a, m) := unless_null HAS_NODE_VALUES Memory.Release (node_values g) m in
  let g := set_node_values a g in
  if is_error retval then (retval, g, m) else
  let '(retval, a, m) := unless_null HAS_EDGE_VALUES Memory.Release (edge_values g) m in
  let g := set_edge_values a g in
  if is_error retval then (retval, g, m) else
  let '(retval, g, m) := BaseGraph_Release g m in
  if is_error retval then (retval, g, m) else
  (retval, g, m).

(** [Allocate(nodes, edges, target)] *)
Definition Allocate (n e : Z) (g : CscT) (m : Memory)
  : cudaError_t * CscT * Memory :=
  let '(retval, g, m) := BaseGraph_Allocate n e g m in
  if is_error retval then (retval, g, m) else
  let '(retval, a, m) :=
    Memory.Allocate 0 (Types.int_add n 1) (column_offsets g) m in
  let g := set_column_offsets a g in
  if is_error retval then (retval, g, m) else
  let '(retval, a, m) := Memory.Allocate 0 e (row_indices g) m in
  let g := set_row_indices a g in
  if is_error retval then (retval, g, m) else
  let '(retval, a, m) :=
    unless_null HAS_NODE_VALUES (Memory.Allocate 0 n) (node_values g) m in
  let g := set_node_values a g in
  if is_error retval then (retval, g, m) else
  let '(retval, a, m) :=
    unless_null HAS_EDGE_VALUES (Memory.Allocate 0 e) (edge_values g) m in
  let g := set_edge_values a g in
  if is_error retval then (retval, g, m) else
  (retval, g, m).

(** [column_edge_compare]: [edge_pair.y < column]. *)
Definition column_edge_compare (edge_pair : Coo.EdgePairT) (column : Z) : bool :=
  bool_decide (Coo.y edge_pair < column).

(** The body given to [column_offsets.ForAll]. *)
Definition assign_column_offset (n e : Z) (column_offsets : list Z)
    (edge_pairs : list Coo.EdgePairT) (column : Z) : list Z :=
  if bool_decide (column < n)
  then <[Z.to_nat column :=
           BinarySearch column edge_pairs 0 e column_edge_compare]>
       column_offsets
  else <[Z.to_nat column := e]> column_offsets.

(** [FromCoo(source, target, stream, quiet)]: the status, the graph, and
    the source, which [Order] sorts in place.  The messages and the
    timing are left out. *)
Definition FromCoo (source : Coo.CooT) (g : CscT) (m : Memory)
  : cudaError_t * CscT * Coo.CooT * Memory :=
  let g := set_counts (Coo.nodes source) (Coo.edges source) g in
  let g := set_directed (Coo.directed source) g in
  let '(retval, g, m) := Allocate (Coo.nodes source) (Coo.edges source) g m in
  if is_error retval then (retval, g, source, m) else
  (* Sort COO by row *)
  let '(retval, source, m) :=
    Coo.Order HAS_EDGE_VALUES Coo.BY_COLUMN_ASCENDING source m in
  if is_error retval then (retval, g, source, m) else
  (* assign row_indices *)
  let '(retval, a, m) :=
    ForEach (λ _ edge_pair, Coo.x edge_pair) (edges g)
            (Coo.edge_pairs source) (row_indices g) m in
  let g := set_row_indices a g in
  if is_error retval then (retval, g, source, m) else
  (* assign edge_values *)
  let '(retval, a, m) :=
    unless_null HAS_EDGE_VALUES
      (ForEach (λ _ edge_value_in, edge_value_in) (edges g)
               (Coo.edge_values source))
      (edge_values g) m in
  let g := set_edge_values a g in
  if is_error retval then (retval, g, source, m) else
  (* assign column_offsets *)
  let '(retval, a, m) :=
    ForAll (assign_column_offset (nodes g) (edges g))
           (Types.int_add (nodes g) 1)
           (Coo.edge_pairs source) (column_offsets g) m in
  let g := set_column_offsets a g in
  if is_error retval then (retval, g, source, m) else
  (retval, g, source, m).

(** [std::to_string] on an integer. *)
Definition to_string (z : Z) : string := pretty z.

(** The inner loop of [Display] for the edges still to visit, from
    [edge] on: [lo] is [column_offsets[node]], [hi] is
    [column_offsets[node + 1]]. *)
Fixpoint Display_edges (g : CscT) (with_edge_values : bool) (lo hi : Z)
    (todo : list Z) (str : string) : string :=
  match todo with
  | [] => str
  | edge :: todo =>
      if bool_decide (edge - lo > 40) then str (* break *) else
      let str := str +:+ "[" +:+ to_string (read (row_indices g) edge) in
      let str :=
        if with_edge_values && HAS_EDGE_VALUES
        then str +:+ "," +:+ to_string (read (edge_values g) edge)
        else str in
      let str :=
        if bool_decide (edge - lo ≠ 40 ∧ edge ≠ hi - 1)
        then str +:+ "], "
        else str +:+ "]" in
      Display_edges g with_edge_values lo hi todo str
  end.

(** The line [Display] prints for [node]. *)
Definition Display_node (g : CscT) (with_edge_values : bool) (node : Z)
  : string :=
  let lo := read (column_offsets g) node in
  let hi := read (column_offsets g) (node + 1) in
  let str := Display_edges g with_edge_values lo hi (seqZ lo (hi - lo)) "" in
  let str := if bool_decide (hi - lo > 40) then str +:+ "..." else str in
  str +:+ " : v " +:+ to_string node +:+ " " +:+ to_string lo.

(** [Display(graph_prefix, nodes_to_show, with_edge_values)]: the status
    and the lines given to [util::PrintMsg].  No member is assigned. *)
Definition Display (graph_prefix : string) (nodes_to_show : Z)
    (with_edge_values : bool) (g : CscT) : cudaError_t * list string :=
  let nodes_to_show :=
    if bool_decide (nodes_to_show > nodes g) then nodes g else nodes_to_show in
  (cudaSuccess,
   (graph_prefix +:+ "Graph containing " +:+ to_string (nodes g)
    +:+ " vertices, " +:+ to_string (edges g) +:+ " edges, in CSC format."
    +:+ " Neighbor list of first " +:+ to_string nodes_to_show +:+ " nodes :")
   :: map (Display_node g with_edge_values) (seqZ 0 nodes_to_show)).

(** Modelled from the spec: the edge tuples a column-compressed graph
    stands for.  The edges into vertex [c] are the positions
    [column_offsets[c] .. column_offsets[c+1]) of [row_indices], each
    with the value at the same position when the graph has edge values. *)
Definition expand_column (g : CscT) (c : Z) : list (Coo.EdgePairT * option Z) :=
  let lo := read (column_offsets g) c in
  let hi := read (column_offsets g) (c + 1) in
  map (λ i, (Coo.mkEdgePair (read (row_indices g) i) c,
             if HAS_EDGE_VALUES then Some (read (edge_values g) i) else None))
      (seqZ lo (hi - lo)).

Definition expand (g : CscT) : list (Coo.EdgePairT * option Z) :=
  c ← seqZ 0 (nodes g); expand_column g c.

End Flags.

End Csc.

(** ** The row-compressed graph ([gunrock/graph/csr.cuh]) *)

Module Csr.
Import Memory.

(** Modelled from the spec: [csr.cuh] is not among the sources.  The spec
    describes the two compressed forms as symmetric structures, one
    indexed by source and one by destination: the row-compressed graph
    holds [row_offsets] and [column_indices], where the column-compressed
    one holds [column_offsets] and [row_indices]. *)
Record CsrT : Type := mkCsr {
  nodes          : Z;
  edges          : Z;
  directed       : bool;
  column_indices : Array1D Z;
  row_offsets    : Array1D Z;
  edge_values    : Array1D Z;
  node_values    : Array1D Z
}.

(** The edge with source and destination exchanged. *)
Definition transpose_pair (e : Coo.EdgePairT) : Coo.EdgePairT :=
  Coo.mkEdgePair (Coo.y e) (Coo.x e).

Definition transpose_order (order : Coo.EdgeOrder) : Coo.EdgeOrder :=
  match order with
  | Coo.UNORDERED => Coo.UNORDERED
  | Coo.BY_ROW_ASCENDING => Coo.BY_COLUMN_ASCENDING
  | Coo.BY_COLUMN_ASCENDING => Coo.BY_ROW_ASCENDING
  end.

(** The graph with every edge reversed. *)
Definition transpose (source : Coo.CooT) : Coo.CooT :=
  Coo.mkCoo (Coo.nodes source) (Coo.edges source) (Coo.directed source)
            (transpose_order (Coo.edge_order source))
            (transpose_pair <$> Coo.edge_pairs source)
            (Coo.edge_values source).

(** The same arrays read as a column-compressed graph, and back. *)
Definition to_Csc (g : CsrT) : Csc.CscT :=
  Csc.mkCsc (nodes g) (edges g) (directed g) (column_indices g) (row_offsets g)
            (edge_values g) (node_values g).

Definition of_Csc (g : Csc.CscT) : CsrT :=
  mkCsr (Csc.nodes g) (Csc.edges g) (Csc.directed g) (Csc.row_indices g)
        (Csc.column_offsets g) (Csc.edge_values g) (Csc.node_values g).

(** Modelled from the spec: [Csr::FromCoo] is the build of [Csc::FromCoo]
    with the roles of source and destination exchanged: the edges are
    ordered by source, [column_indices] takes the destinations, and
    [row_offsets] is searched by source. *)
Definition FromCoo (HAS_EDGE_VALUES HAS_NODE_VALUES : bool)
    (source : Coo.CooT) (g : CsrT) (m : Memory)
  : cudaError_t * CsrT * Coo.CooT * Memory :=
  let '(retval, g, source, m) :=
    Csc.FromCoo HAS_EDGE_VALUES HAS_NODE_VALUES (transpose source) (to_Csc g) m in
  (retval, of_Csc g, transpose source, m).

(** Modelled from the spec: the edge tuples a row-compressed graph stands
    for.  The edges out of vertex [v] lead to the vertices at the
    positions [row_offsets[v] .. row_offsets[v+1]) of [column_indices]. *)
Definition expand (HAS_EDGE_VALUES : bool) (g : CsrT)
  : list (Coo.EdgePairT * option Z) :=
  (λ t, (transpose_pair t.1, t.2)) <$> Csc.expand HAS_EDGE_VALUES (to_Csc g).

End Csr.

(** ** gunrock/util/types.cuh: type names and parsing of values *)

Module TypeParse.
Import Util.

Section TypeName.

(** [std::type_info::name()], which the implementation defines. *)
Variable type_info_name : type_info → string.

(** [TypeName(t_info)]: the tests in the order of the source; the test
    before "unsigned long long" compares with [typeid(unsigned long)]. *)
Definition TypeName (t_info : type_info) : string :=
  if bool_decide (t_info = ti_char) then "char" else
  if bool_decide (t_info = ti_signed_char) then "signed char" else
  if bool_decide (t_info = ti_unsigned_char) then "unsigned char" else
  if bool_decide (t_info = ti_short) then "short" else
  if bool_decide (t_info = ti_unsigned_short) then "unsigned short" else
  if bool_decide (t_info = ti_int) then "int" else
  if bool_decide (t_info = ti_unsigned_int) then "unsigned int" else
  if bool_decide (t_info = ti_long) then "long" else
  if bool_decide (t_info = ti_unsigned_long) then "unsigned long" else
  if bool_decide (t_info = ti_long_long) then "long long" else
  if bool_decide (t_info = ti_unsigned_long) then "unsigned long long" else
  if bool_decide (t_info = ti_bool) then "bool" else
  if bool_decide (t_info = ti_float) then "float" else
  if bool_decide (t_info = ti_double) then "double" else
  if bool_decide (t_info = ti_long_double) then "long double" else
  if bool_decide (t_info = ti_string) then "std::string" else
  if bool_decide (t_info = ti_char_ptr) then "char*" else
  type_info_name t_info.

End TypeName.

(** *** C strings *)

Definition NUL : ascii := Ascii.zero.

(** A [const char*] is given by the buffer it points to: the characters
    of the C string are those before the first NUL of the buffer, or all
    of them, and the terminator follows. *)
Fixpoint c_str (buffer : string) : list ascii :=
  match buffer with
  | EmptyString => []
  | String c rest => if bool_decide (c = NUL) then [] else c :: c_str rest
  end.

Definition strlen (str : string) : N := N.of_nat (length (c_str str)).

(** [str[i]]: a character of the string or its terminator; a read past
    the terminator is outside the object ([None]). *)
Definition char_at (str : string) (i : N) : option ascii :=
  match c_str str !! N.to_nat i with
  | Some c => Some c
  | None => if bool_decide (i = strlen str) then Some NUL else None
  end.

(** Arithmetic on [unsigned int]. *)
Definition uint (n : N) : N := (n `mod` 4294967296)%N.

(** [isspace] and [tolower] of the C locale. *)
Definition isspace (c : ascii) : bool :=
  bool_decide (N_of_ascii c = 32 ∨ 9 ≤ N_of_ascii c ≤ 13)%N.

Definition tolower (c : ascii) : ascii :=
  if bool_decide (65 ≤ N_of_ascii c ≤ 90)%N
  then ascii_of_N (N_of_ascii c + 32)
  else c.

(** [a && b] and [a || b] on tests that read the string: [b] is
    evaluated only when [a] does not decide. *)
Definition and_then (a b : option bool) : option bool :=
  match a with Some true => b | _ => a end.
Definition or_else (a b : option bool) : option bool :=
  match a with Some false => b | _ => a end.

Local Infix "&&&" := and_then (at level 40, left associativity).
Local Infix "|||" := or_else (at level 50, left associativity).

(** [str[i] == ch] and [tolower(str[i]) == ch]. *)
Definition char_is (str : string) (i : N) (ch : ascii) : option bool :=
  c ← char_at str i; Some (bool_decide (c = ch)).
Definition lower_is (str : string) (i : N) (ch : ascii) : option bool :=
  c ← char_at str i; Some (bool_decide (tolower c = ch)).

(** *** [strtoT<bool>] *)

(** The loop over the leading white space: [while (i < length) { if
    (isspace(str[i])) i++; else break; }]. *)
Fixpoint strtoT_bool_skip (str : string) (length : N) (fuel : nat) (i : N)
  : option N :=
  if bool_decide (i < length)%N then
    c ← char_at str i;
    if isspace c then
      match fuel with
      | O => None
      | S fuel => strtoT_bool_skip str length fuel (uint (i + 1))
      end
    else Some i
  else Some i.

(** [strtoT<bool>(str, str_end, base)]: the value and the offset of
    [*str_end] from [str]. *)
Definition strtoT_bool (str : string) (base : Z) : option (bool * N) :=
  let length := uint (strlen str) in
  i ← strtoT_bool_skip str length (N.to_nat length) 0%N;
  let finish := Some (true, i) in
  let one_character :=
    if bool_decide (length ≤ uint (i + 1))%N then
      is_false ← char_is str i "0" ||| lower_is str i "f";
      if is_false : bool then Some (false, (i + 1)%N) else
      is_true ← char_is str i "1" ||| lower_is str i "t";
      if is_true : bool then Some (true, (i + 1)%N) else finish
    else finish in
  let word_true :=
    if bool_decide (length ≤ uint (i + 4))%N then
      is_true ← lower_is str i "t" &&& lower_is str (uint (i + 1)) "r"
                &&& lower_is str (uint (i + 2)) "u"
                &&& lower_is str (uint (i + 3)) "e";
      if is_true : bool then Some (true, (i + 4)%N) else one_character
    else one_character in
  if bool_decide (length ≤ uint (i + 5))%N then
    is_false ← lower_is str i "f" &&& lower_is str (uint (i + 1)) "a"
               &&& lower_is str (uint (i + 2)) "l"
               &&& lower_is str (uint (i + 3)) "s"
               &&& lower_is str (uint (i + 4)) "e";
    if is_false : bool then Some (false, (i + 5)%N) else word_true
  else word_true.

(** [strtoT<char*>] and [strtoT<std::string>]: the whole string. *)
Definition strtoT_string (str : string) (base : Z) : option (list ascii * N) :=
  Some (c_str str, strlen str).

(** *** The conversions of the C library *)

Definition CHAR_MIN  : Z := -128.
Definition CHAR_MAX  : Z := 127.
Definition SCHAR_MIN : Z := -128.
Definition SCHAR_MAX : Z := 127.
Definition UCHAR_MAX : Z := 255.
Definition SHRT_MIN  : Z := -32768.
Definition SHRT_MAX  : Z := 32767.
Definition USHRT_MAX : Z := 65535.
Definition UINT_MAX  : Z := 4294967295.

Section Libc.

(** [strtol], [strtoul], [strtoll], [strtoull], [strtof], [strtod] and
    [strtold] are the C library's: each gives a value and the offset at
    which it stopped reading. *)
Variable floating : Type.
Variables strtol strtoul strtoll strtoull : string → Z → Z * N.
Variables strtof strtod strtold : string → floating * N.

Definition strtoT_long (str : string) (base : Z) : option (Z * N) :=
  Some (strtol str base).
Definition strtoT_unsigned_long (str : string) (base : Z) : option (Z * N) :=
  Some (strtoul str base).
Definition strtoT_long_long (str : string) (base : Z) : option (Z * N) :=
  Some (strtoll str base).
Definition strtoT_unsigned_long_long (str : string) (base : Z)
  : option (Z * N) :=
  Some (strtoull str base).

(** The narrower integers: [val] is brought into the range of the type
    before the cast. *)
Definition clamp_below (lo val : Z) : Z := if bool_decide (val < lo) then lo else val.
Definition clamp_above (hi val : Z) : Z := if bool_decide (val > hi) then hi else val.

Definition strtoT_char (str : string) (base : Z) : option (Z * N) :=
  '(val, str_end) ← strtoT_long str base;
  let val := clamp_below CHAR_MIN val in
  let val := clamp_above CHAR_MAX val in
  Some (val, str_end).
Definition strtoT_signed_char (str : string) (base : Z) : option (Z * N) :=
  '(val, str_end) ← strtoT_long str base;
  let val := clamp_below SCHAR_MIN val in
  let val := clamp_above SCHAR_MAX val in
  Some (val, str_end).
Definition strtoT_unsigned_char (str : string) (base : Z) : option (Z * N) :=
  '(val, str_end) ← strtoT_unsigned_long str base;
  let val := clamp_above UCHAR_MAX val in
  Some (val, str_end).
Definition strtoT_short (str : string) (base : Z) : option (Z * N) :=
  '(val, str_end) ← strtoT_long str base;
  let val := clamp_below SHRT_MIN val in
  let val := clamp_above SHRT_MAX val in
  Some (val, str_end).
Definition strtoT_unsigned_short (str : string) (base : Z) : option (Z * N) :=
  '(val, str_end) ← strtoT_unsigned_long str base;
  let val := clamp_above USHRT_MAX val in
  Some (val, str_end).
Definition strtoT_int (str : string) (base : Z) : option (Z * N) :=
  '(val, str_end) ← strtoT_long str base;
  let val := clamp_below Types.INT_MIN val in
  let val := clamp_above Types.INT_MAX val in
  Some (val, str_end).
Definition strtoT_unsigned_int (str : string) (base : Z) : option (Z * N) :=
  '(val, str_end) ← strtoT_unsigned_long str base;
  let val := clamp_above UINT_MAX val in
  Some (val, str_end).

Definition strtoT_float (str : string) (base : Z) : option (floating * N) :=
  Some (strtof str).
Definition strtoT_double (str : string) (base : Z) : option (floating * N) :=
  Some (strtod str).
Definition strtoT_long_double (str : string) (base : Z)
  : option (floating * N) :=
  Some (strtold str).

(** [isValidString<T>(str, base)]: [strtoT<T>] has read the whole string
    when [*str_end] is the terminator. *)
Definition isValidString_as {T} (strtoT : string → Z → option (T * N))
    (str : string) (base : Z) : option bool :=
  '(_, str_end) ← strtoT str base;
  c ← char_at str str_end;
  Some (bool_decide (c = NUL)).

(** [isValidString(str, t_info, base)] *)
Definition isValidString (str : string) (t_info : type_info) (base : Z)
  : option bool :=
  if bool_decide (t_info = ti_char) then isValidString_as strtoT_char str base else
  if bool_decide (t_info = ti_signed_char)
  then isValidString_as strtoT_signed_char str base else
  if bool_decide (t_info = ti_unsigned_char)
  then isValidString_as strtoT_unsigned_char str base else
  if bool_decide (t_info = ti_short) then isValidString_as strtoT_short str base else
  if bool_decide (t_info = ti_unsigned_short)
  then isValidString_as strtoT_unsigned_short str base else
  if bool_decide (t_info = ti_int) then isValidString_as strtoT_int str base else
  if bool_decide (t_info = ti_unsigned_int)
  then isValidString_as strtoT_unsigned_int str base else
  if bool_decide (t_info = ti_long) then isValidString_as strtoT_long str base else
  if bool_decide (t_info = ti_unsigned_long)
  then isValidString_as strtoT_unsigned_long str base else
  if bool_decide (t_info = ti_long_long)
  then isValidString_as strtoT_long_long str base else
  if bool_decide (t_info = ti_unsigned_long_long)
  then isValidString_as strtoT_unsigned_long_long str base else
  if bool_decide (t_info = ti_float) then isValidString_as strtoT_float str base else
  if bool_decide (t_info = ti_double) then isValidString_as strtoT_double str base else
  if bool_decide (t_info = ti_long_double)
  then isValidString_as strtoT_long_double str base else
  if bool_decide (t_info = ti_bool) then isValidString_as strtoT_bool str base else
  if bool_decide (t_info = ti_string) then isValidString_as strtoT_string str base else
  if bool_decide (t_info = ti_char_ptr) then isValidString_as strtoT_string str base else
  Some true.

End Libc.

End TypeParse.

(** ** gunrock/util/parameters.h: the command line, the help text and the
    listing *)

Module CommandLine.
Import Util TypeParse.

(** [List()] *)
Definition List (P : Parameters) : gmap string string :=
  foldl (λ list entry, <[name entry.2 := value entry.2]> list) ∅ (entries P).

(** *** [Print_Help] *)


Section Help.

Variable type_info_name : type_info → string.




End Help.

(** *** [Parse_CommandLine] *)

(** [struct option] of [getopt.h]; [name] is a pointer, null in the
    entry that ends the table. *)
Record Option_ : Set := mkOption {
  option_name    : option string;
  option_has_arg : Z;
  option_val     : Z
}.

(** Reading and writing an element of a [new T[n]] array: [None] outside
    the array. *)
Definition array_get {A} (arr : list A) (i : Z) : option A :=
  if bool_decide (0 ≤ i) then arr !! Z.to_nat i else None.
Definition array_set {A} (arr : list A) (i : Z) (v : A) : option (list A) :=
  if bool_decide (0 ≤ i ∧ i < Z.of_nat (length arr))
  then Some (<[Z.to_nat i := v]> arr)
  else None.

(** ['?'] *)
Definition question_mark : Z := 63.

(** The loop that loads the parameter list into [long_options] and
    [names]. *)
Fixpoint load_options (todo : list (string * Parameter_Item)) (i : Z)
    (long_options : list Option_) (names : list string)
  : option (list Option_ * list string) :=
  match todo with
  | [] => Some (long_options, names)
  | it :: todo =>
      let val := Types.int_add i 1 in
      let val :=
        if bool_decide (question_mark ≤ Types.int_add i 1)
        then Types.int_add val 1 else val in
      long_options ←
        array_set long_options i
          (mkOption (Some (name it.2))
                    (Z.of_N (N.land (flag it.2) 0x07 `div` 2)) val);
      names ← array_set names val (name it.2);
      load_options todo (Types.int_add i 1) long_options names
  end.

(** The tables [Parse_CommandLine] builds before it calls [getopt]. *)
Definition option_tables (P : Parameters)
  : option (Z * list Option_ * list string) :=
  let num_options := Types.wrap32 (Z.of_nat (size (p_map P))) in
  let long_options :=
    replicate (Z.to_nat (Types.int_add num_options 1)) (mkOption None 0 0) in
  let names := replicate (Z.to_nat (Types.int_add num_options 2)) "" in
  '(long_options, names) ← load_options (entries P) 0 long_options names;
  long_options ← array_set long_options num_options (mkOption None 0 0);
  Some (num_options, long_options, names).

(** What [Parse_CommandLine] writes to [std::cerr]. *)
Inductive cerr_message : Set :=
| Invalid_parameter
| Only_takes_single_argument (name file_name : string) (line_num : Z)
| More_than_once_latter_effective (name file_name : string) (line_num : Z)
                                  (argument : string)
| More_than_once_appended (name file_name : string) (line_num : Z)
                          (argument : string)
| Only_takes_in (name file_name : string) (line_num : Z)
                (type_name argument : string).

(** [argument.find(",") != std::string::npos] *)
Fixpoint contains_comma (s : string) : bool :=
  match s with
  | EmptyString => false
  | String c s => bool_decide (c = ","%char) || contains_comma s
  end.

Section Parse.

Variable type_info_name : type_info → string.
Variable floating : Type.
Variables strtol strtoul strtoll strtoull : string → Z → Z * N.
Variables strtof strtod strtold : string → floating * N.

(** The [default] case of the switch, for the value [i] that [getopt]
    returned and its [optarg]: the status in [retval], the registry and
    [std::cerr] when the case is left. *)
Definition Parse_option (names : list string) (num_options : Z) (i : Z)
    (optarg : option string) (P : Parameters) (cerr : list cerr_message)
  : option (cudaError_t * Parameters * list cerr_message) :=
  if bool_decide
       (i ≤ 0
        ∨ i > (if bool_decide (question_mark ≤ Types.int_add num_options 1)
               then Types.int_add num_options 2
               else Types.int_add num_options 1))
  then Some (cudaSuccess, P, cerr ++ [Invalid_parameter])
  else
    let argument := default "" optarg in
    names_i ← array_get names i;
    p_item ← p_map P !! names_i;
    let argument :=
      if bool_decide (value_type_info p_item = ti_bool)
         && bool_decide (argument = "")
      then "true" else argument in
    let single :=
      bool_decide (N.land (flag p_item) SINGLE_VALUE = SINGLE_VALUE) in
    let multi :=
      bool_decide (N.land (flag p_item) MULTI_VALUE = MULTI_VALUE) in
    if single && contains_comma argument then
      Some (cudaSuccess, P,
            cerr ++ [Only_takes_single_argument
                       (name p_item) (file_name p_item) (line_num p_item)])
    else
      let cerr :=
        if single && negb (use_default p_item)
        then cerr ++ [More_than_once_latter_effective
                        (name p_item) (file_name p_item) (line_num p_item)
                        argument]
        else cerr in
      let '(argument, cerr) :=
        if multi && negb (use_default p_item)
        then (value p_item +:+ "," +:+ argument,
              cerr ++ [More_than_once_appended
                         (name p_item) (file_name p_item) (line_num p_item)
                         argument])
        else (argument, cerr) in
      valid ← isValidString floating strtol strtoul strtoll strtoull strtof
                            strtod strtold argument (value_type_info p_item) 0;
      if negb valid then
        Some (cudaSuccess, P,
              cerr ++ [Only_takes_in
                         (name p_item) (file_name p_item) (line_num p_item)
                         (TypeName type_info_name (value_type_info p_item))
                         argument])
      else
        let '(retval, P) := Set_ names_i argument P in
        Some (retval, P, cerr).

(** The [do ... while (i != -1)] loop over what [getopt_long_only]
    returns, call after call: the value and [optarg].  At the end of the
    arguments [getopt_long_only] returns -1.  The messages are those the
    code of [Parse_CommandLine] writes; what [getopt_long_only] writes to
    the standard error by itself, for an option it does not recognise
    ([opterr] is left set), is not among them. *)
Fixpoint Parse_loop (names : list string) (num_options : Z)
    (results : list (Z * option string)) (P : Parameters)
    (cerr : list cerr_message)
  : option (cudaError_t * Parameters * list cerr_message) :=
  match results with
  | [] => Some (cudaSuccess, P, cerr)
  | (i, optarg) :: results =>
      '(retval, P, cerr) ←
        (if bool_decide (i = question_mark) then Some (cudaSuccess, P, cerr)
         else if bool_decide (i = -1) then Some (cudaSuccess, P, cerr)
         else Parse_option names num_options i optarg P cerr);
      if is_error retval then Some (retval, P, cerr)
      else if bool_decide (i ≠ -1)
      then Parse_loop names num_options results P cerr
      else Some (retval, P, cerr)
  end.

(** [Parse_CommandLine(argc, argv)], given what [getopt_long_only] makes
    of [argv] and the table. *)
Definition Parse_CommandLine (results : list (Z * option string))
    (P : Parameters)
  : option (cudaError_t * Parameters * list cerr_message) :=
  '(num_options, long_options, names) ← option_tables P;
  Parse_loop names num_options results P [].

End Parse.

End CommandLine.

(** * Properties *)

(** ** The sentinel and the validity predicate *)

Lemma wrap32_id z : Types.INT_MIN ≤ z ≤ Types.INT_MAX → Types.wrap32 z = z.
Proof.
  unfold Types.INT_MIN, Types.INT_MAX, Types.wrap32. intros Hz.
  rewrite Z.mod_small; lia.
Qed.

Lemma InvalidValue_int_eq : Types.InvalidValue_int = -1.
Proof. reflexivity. Qed.

Lemma isValid_spec val : Types.isValid val = true ↔ 0 ≤ val.
Proof. unfold Types.isValid. apply bool_decide_eq_true. Qed.

(** The expression of the [return] statement of [CondVertex] is true
    exactly for the vertex ids other than the invalid-id sentinel. *)
Lemma CondVertex_test_spec (INVALID_NODE_ID node : Z) :
  BFSFunctor.CondVertex_test INVALID_NODE_ID node = true
  ↔ node ≠ INVALID_NODE_ID.
Proof.
  unfold BFSFunctor.CondVertex_test.
  by rewrite negb_true_iff, bool_decide_eq_false.
Qed.

(** C5: the code fails the claim.  [CondVertex] is declared [void], so a
    call yields no value: whatever a caller makes of its result is the
    same for any two vertex ids, a vertex and the invalid-id sentinel
    alike, and the call answers nothing.  The test the claim describes is
    only the expression of its [return] statement, which is true exactly
    for the ids other than the sentinel (-1 for [int]).  The validity
    predicate [isValid] is another test again: it is true exactly for the
    non-negative values, so it rejects -2, which is not the sentinel. *)
Theorem CondVertex_returns_no_value :
  ∀ (INVALID_NODE_ID node node' : Z) (p p' : BFSFunctor.DataSlice)
    (observe : unit → bool),
    observe (BFSFunctor.CondVertex node p)
    = observe (BFSFunctor.CondVertex node' p')
    ∧ (BFSFunctor.CondVertex_test INVALID_NODE_ID node = true
       ↔ node ≠ INVALID_NODE_ID)
    ∧ BFSFunctor.CondVertex_test Types.InvalidValue_int 0 = true
    ∧ BFSFunctor.CondVertex_test Types.InvalidValue_int (-1) = false
    ∧ (Types.isValid node = true ↔ 0 ≤ node)
    ∧ Types.isValid (-2) = false.
Proof.
  intros inv node node' p p' observe.
  split_and!; [done | apply CondVertex_test_spec | done | done
              | apply isValid_spec | done].
Qed.

(** The validity predicate does not accept every value different from
    the sentinel: -2 differs from the sentinel of [int] and is rejected. *)
Lemma isValid_rejects_a_non_sentinel :
  ¬ (∀ val : Z, val ≠ Types.InvalidValue_int → Types.isValid val = true).
Proof. intros H. specialize (H (-2)). vm_compute in H. by discriminate H. Qed.

(** ** CondEdge without predecessor tracking *)

Lemma load_Some arr i v :
  load arr i = Some v ↔ 0 ≤ i ∧ arr !! Z.to_nat i = Some v.
Proof.
  unfold load. destruct (bool_decide_reflect (0 ≤ i)); split.
  - intros H. by split.
  - by intros [_ H].
  - intros H. discriminate H.
  - by intros [H _].
Qed.

Lemma load_in_range arr i v :
  load arr i = Some v → 0 ≤ i < Z.of_nat (length arr).
Proof.
  rewrite load_Some. intros [? Hl%lookup_lt_Some]. lia.
Qed.

Lemma store_Some arr i v arr' :
  store arr i v = Some arr' ↔
  0 ≤ i < Z.of_nat (length arr) ∧ arr' = <[Z.to_nat i := v]> arr.
Proof.
  unfold store.
  destruct (bool_decide_reflect (0 ≤ i ∧ i < Z.of_nat (length arr))); split.
  - intros [= <-]. by split.
  - by intros [_ ->].
  - intros H. discriminate H.
  - by intros [H _].
Qed.

Lemma load_store arr i v arr' j :
  store arr i v = Some arr' →
  load arr' j = if bool_decide (j = i) then Some v else load arr j.
Proof.
  rewrite store_Some. intros [Hi ->]. unfold load.
  destruct (bool_decide_reflect (j = i)) as [->|Hji].
  - rewrite bool_decide_eq_true_2 by lia.
    apply list_lookup_insert_eq. lia.
  - destruct (bool_decide_reflect (0 ≤ j)); [|done].
    apply list_lookup_insert_ne. lia.
Qed.

Lemma atomicCAS_Some arr i compare val old arr' :
  atomicCAS arr i compare val = Some (old, arr') ↔
  load arr i = Some old
  ∧ store arr i (if bool_decide (old = compare) then val else old) = Some arr'.
Proof.
  unfold atomicCAS. split.
  - intros H. destruct (load arr i) as [o|] eqn:Hl; simplify_option_eq; done.
  - intros [-> Hs]. simpl. rewrite Hs. done.
Qed.

(** Without predecessor tracking, a [CondEdge] that wins leaves
    [s_id + 1] in [d_labels[d_id]]: the label of the source is not read. *)
Lemma CondEdge_labels_source_id_plus_one inv_value inv_pred s_id d_id p p' :
  BFSFunctor.CondEdge false inv_value inv_pred s_id d_id p = Some (true, p') →
  load (BFSFunctor.d_labels p') d_id = Some (Types.int_add s_id 1)
  ∧ BFSFunctor.d_preds p' = BFSFunctor.d_preds p.
Proof.
  unfold BFSFunctor.CondEdge. intros H.
  destruct (atomicCAS _ _ _ _) as [[old labels]|] eqn:Hcas; simplify_eq/=.
  apply atomicCAS_Some in Hcas as [Hl Hs].
  match goal with H : bool_decide _ = true |- _ => apply bool_decide_eq_true in H as -> end.
  rewrite bool_decide_eq_true_2 in Hs by done.
  split; [|done]. rewrite (load_store _ _ _ _ d_id Hs).
  by rewrite bool_decide_eq_true_2.
Qed.

(** C4: the code at a failing input.  With labels [-1, -1, 0, -1] (a
    traversal from vertex 2) the edge 2 -> 3 wins and the label of vertex
    3 becomes 2 + 1 = 3, while the label of the source plus one is 1. *)
Example CondEdge_label_is_not_source_label_plus_one :
  let p := BFSFunctor.mkDataSlice [-1; -1; 0; -1] [-1; -1; -1; -1] in
  BFSFunctor.CondEdge false (-1) (-1) 2 3 p
    = Some (true, BFSFunctor.mkDataSlice [-1; -1; 0; 3] [-1; -1; -1; -1])
  ∧ (v ← load (BFSFunctor.d_labels p) 2; Some (Types.int_add v 1)) = Some 1.
Proof. split; reflexivity. Qed.

(** ** One winner per destination in an Advance step *)

Section SingleWinner.
Import BFSFunctor Advance.

Variable MARK_PREDECESSORS : bool.
Variables INVALID_NODE_VALUE INVALID_PREDECESSOR_ID : Z.

(** The array [CondEdge] claims a vertex in, the value that marks a
    vertex as unclaimed there, and the value a winning edge from [s]
    leaves. *)
Definition claim_array (p : DataSlice) : list Z :=
  if MARK_PREDECESSORS then d_preds p else d_labels p.
Definition unclaimed : Z :=
  if MARK_PREDECESSORS then INVALID_PREDECESSOR_ID else INVALID_NODE_VALUE.
Definition claim_value (s : Z) : Z :=
  if MARK_PREDECESSORS then s else Types.int_add s 1.

Local Abbreviation CondEdge' := (CondEdge MARK_PREDECESSORS INVALID_NODE_VALUE INVALID_PREDECESSOR_ID).
Local Abbreviation step' := (step MARK_PREDECESSORS INVALID_NODE_VALUE INVALID_PREDECESSOR_ID).
Local Abbreviation run' := (run MARK_PREDECESSORS INVALID_NODE_VALUE INVALID_PREDECESSOR_ID).

Lemma CondEdge_claims s d p b p' :
  CondEdge' s d p = Some (b, p') →
  ∃ old,
    load (claim_array p) d = Some old
    ∧ b = bool_decide (old = unclaimed)
    ∧ (∀ j, load (claim_array p') j
            = if bool_decide (j = d)
              then Some (if b then claim_value s else old)
              else load (claim_array p) j)
    ∧ (MARK_PREDECESSORS = true → d_labels p' = d_labels p).
Proof.
  unfold CondEdge, claim_array, unclaimed, claim_value.
  destruct MARK_PREDECESSORS; intros H;
    destruct (atomicCAS _ _ _ _) as [[old arr]|] eqn:Hcas; simplify_eq/=;
    apply atomicCAS_Some in Hcas as [Hl Hs];
    (exists old; split_and!; [done | done | | done]);
    intros j; rewrite (load_store _ _ _ _ j Hs); done.
Qed.

Lemma lookup_update (ws : list worker) (i j : nat) (w w' w'' : worker) :
  ws !! i = Some w →
  <[i := w']> ws !! j = Some w'' ↔ (j = i ∧ w'' = w') ∨ (j ≠ i ∧ ws !! j = Some w'').
Proof.
  intros Hi. apply lookup_lt_Some in Hi.
  destruct (decide (j = i)) as [->|Hne].
  - rewrite list_lookup_insert_eq by done. split.
    + intros [= <-]. by left.
    + intros [[_ ->]|[Hne _]]; [done | by destruct Hne].
  - rewrite list_lookup_insert_ne by done. split.
    + intros H. by right.
    + intros [[Heq _]|[_ H]]; [by destruct Hne | done].
Qed.

(** What one action of worker [i] does. *)
Lemma step_cases i st st' :
  step' i st = Some st' →
  ∃ w w',
    workers st !! i = Some w
    ∧ workers st' = <[i := w']> (workers st)
    ∧ w_src w' = w_src w ∧ w_dst w' = w_dst w
    ∧ ((w_pc w = Ready
        ∧ applied st' = applied st
        ∧ ∃ old,
            load (claim_array (slice st)) (w_dst w) = Some old
            ∧ w_pc w' = (if bool_decide (old = unclaimed) then Claimed else Finished false)
            ∧ (∀ j, load (claim_array (slice st')) j
                    = if bool_decide (j = w_dst w)
                      then Some (if bool_decide (old = unclaimed)
                                 then claim_value (w_src w) else old)
                      else load (claim_array (slice st)) j)
            ∧ (MARK_PREDECESSORS = true → d_labels (slice st') = d_labels (slice st)))
       ∨ (w_pc w = Claimed
          ∧ slice st' = slice st ∧ applied st' = applied st
          ∧ if MARK_PREDECESSORS then ∃ v, w_pc w' = Loaded v
            else w_pc w' = Finished true)
       ∨ (∃ v, w_pc w = Loaded v
               ∧ w_pc w' = Finished true
               ∧ applied st' = (w_dst w, Types.int_add v 1) :: applied st
               ∧ d_preds (slice st') = d_preds (slice st)
               ∧ ∀ j, load (d_labels (slice st')) j
                      = if bool_decide (j = w_dst w)
                        then Some (Types.int_add v 1)
                        else load (d_labels (slice st)) j)).
Proof.
  unfold step. intros H.
  destruct (workers st !! i) as [w|] eqn:Hw; [|discriminate H]. simpl in H.
  destruct (worker_step _ _ _ w (slice st) (applied st)) as [[[w' p'] log']|] eqn:Hs;
    [|discriminate H].
  simpl in H. injection H as <-. simpl.
  exists w, w'. unfold worker_step in Hs.
  destruct (w_pc w) as [| |v|won] eqn:Hpc.
  - destruct (CondEdge' (w_src w) (w_dst w) (slice st)) as [[b p'']|] eqn:Hc;
      [|discriminate Hs].
    simpl in Hs. injection Hs as <- <- <-.
    apply CondEdge_claims in Hc as (old & Hold & -> & Hcell & Hlab).
    split_and!; [done..|]. left. split_and!; [done..|].
    exists old. split_and!; done.
  - destruct MARK_PREDECESSORS eqn:HM.
    + destruct (ApplyEdge_load (w_src w) (slice st)) as [v|]; [|discriminate Hs].
      simpl in Hs. injection Hs as <- <- <-.
      split_and!; [done..|]. right. left. split_and!; [done..|]. by eexists.
    + injection Hs as <- <- <-.
      split_and!; [done..|]. right. left. by split_and!.
  - unfold ApplyEdge_store in Hs.
    destruct (store (d_labels (slice st)) (w_dst w) (Types.int_add v 1))
      as [labels|] eqn:Hst; [|discriminate Hs].
    simpl in Hs. injection Hs as <- <- <-.
    split_and!; [done..|]. right. right. exists v. split_and!; [done..|].
    intros j. simpl. by rewrite (load_store _ _ _ _ j Hst).
  - discriminate Hs.
Qed.

Lemma claimed_true d w :
  claimed d w = true ↔
  w_dst w = d ∧ w_pc w ≠ Ready ∧ w_pc w ≠ Finished false.
Proof.
  unfold claimed. rewrite andb_true_iff, bool_decide_eq_true.
  destruct (w_pc w) as [| | |[]]; intuition (try discriminate; try congruence).
Qed.

Lemma completed_true d w :
  completed d w = true ↔ w_dst w = d ∧ w_pc w = Finished true.
Proof.
  unfold completed. rewrite andb_true_iff, bool_decide_eq_true.
  destruct (w_pc w) as [| | |[]]; intuition (try discriminate; try congruence).
Qed.

Variable edges : list (Z * Z).
Variable d : Z.

(** What holds of destination [d] throughout the step.  The cell of [d]
    is either unclaimed, and then no edge into [d] has been evaluated, or
    it holds the value of the one worker whose [CondEdge] returned true. *)
Definition cell_invariant (st : state) : Prop :=
  ∃ v,
    load (claim_array (slice st)) d = Some v
    ∧ ((v = unclaimed
        ∧ ∀ j w, workers st !! j = Some w → w_dst w = d → w_pc w = Ready)
       ∨ (v ≠ unclaimed
          ∧ ∃ i w, workers st !! i = Some w
                   ∧ claimed d w = true
                   ∧ v = claim_value (w_src w)
                   ∧ ∀ j w', workers st !! j = Some w' →
                             claimed d w' = true → j = i)).

(** With predecessor tracking, [ApplyEdge] has written the label of [d]
    at most once, and it has if and only if a worker into [d] completed. *)
Definition applied_invariant (st : state) : Prop :=
  (applied_to d (applied st) = []
   ∧ ∀ j w, workers st !! j = Some w → completed d w = false)
  ∨ (∃ lbl, applied_to d (applied st) = [(d, lbl)]
            ∧ load (d_labels (slice st)) d = Some lbl
            ∧ ∃ j w, workers st !! j = Some w ∧ completed d w = true).

Record invariant (st : state) : Prop := mkInvariant {
  inv_length : length (workers st) = length edges;
  inv_edges : ∀ j w,
    workers st !! j = Some w → edges !! j = Some (w_src w, w_dst w);
  inv_cell : cell_invariant st;
  inv_no_apply : MARK_PREDECESSORS = false →
    applied st = []
    ∧ ∀ j w v, workers st !! j = Some w → w_pc w ≠ Loaded v;
  inv_applied : MARK_PREDECESSORS = true → applied_invariant st
}.

Hypothesis claim_value_ok : ∀ s, (s, d) ∈ edges → claim_value s ≠ unclaimed.

Lemma lookup_spawn j w :
  spawn edges !! j = Some w →
  edges !! j = Some (w_src w, w_dst w) ∧ w_pc w = Ready.
Proof.
  unfold spawn. rewrite list_lookup_fmap.
  destruct (edges !! j) as [[s t]|]; simpl; [|done].
  intros [= <-]. done.
Qed.

Lemma invariant_initial p :
  load (claim_array p) d = Some unclaimed →
  invariant (mkState (spawn edges) p []).
Proof.
  intros Hd. split; simpl.
  - unfold spawn. by rewrite length_map.
  - intros j w Hw. by apply lookup_spawn in Hw as [? _].
  - exists unclaimed. split; [done|]. left. split; [done|].
    intros j w Hw _. by apply lookup_spawn in Hw as [_ ?].
  - intros _. split; [done|]. intros j w v Hw.
    apply lookup_spawn in Hw as [_ ->]. discriminate.
  - intros _. left. split; [done|]. intros j w Hw.
    apply lookup_spawn in Hw as [_ Hpc]. unfold completed. rewrite Hpc.
    apply andb_false_r.
Qed.

Lemma completed_claimed w : completed d w = true → claimed d w = true.
Proof.
  rewrite completed_true, claimed_true. intros [? ->]. by split_and!.
Qed.

(** An action that leaves the cell of [d] alone and does not change
    whether its worker holds the claim on [d]. *)
Lemma cell_invariant_frame st st' i w w' :
  workers st !! i = Some w →
  workers st' = <[i := w']> (workers st) →
  w_src w' = w_src w → w_dst w' = w_dst w →
  claimed d w' = claimed d w →
  (w_dst w = d → w_pc w ≠ Ready) →
  load (claim_array (slice st')) d = load (claim_array (slice st)) d →
  cell_invariant st → cell_invariant st'.
Proof.
  intros Hi Hws Hsrc Hdst Hcl Hnr Hload (v & Hv & Hst).
  exists v. split; [by rewrite Hload|].
  destruct Hst as [[Hun Hready]|[Hne (i0 & w0 & Hi0 & Hcl0 & Hval & Huniq)]].
  - left. split; [done|]. intros j w'' Hj Hd.
    rewrite Hws in Hj. apply (lookup_update _ _ _ _ _ _ Hi) in Hj as [[-> ->]|[Hne Hj]].
    + rewrite Hdst in Hd. destruct (Hnr Hd). by eapply Hready.
    + by eapply Hready.
  - right. split; [done|].
    destruct (decide (i0 = i)) as [->|Hne0].
    + assert (w0 = w) as -> by congruence.
      exists i, w'. split_and!.
      * rewrite Hws. apply (lookup_update _ _ _ _ _ _ Hi). by left.
      * by rewrite Hcl.
      * by rewrite Hsrc.
      * intros j w'' Hj Hcl''. rewrite Hws in Hj.
        apply (lookup_update _ _ _ _ _ _ Hi) in Hj as [[-> ->]|[Hne' Hj]]; [done|].
        by eapply Huniq.
    + exists i0, w0. split_and!; [|done|done|].
      * rewrite Hws. apply (lookup_update _ _ _ _ _ _ Hi). by right.
      * intros j w'' Hj Hcl''. rewrite Hws in Hj.
        apply (lookup_update _ _ _ _ _ _ Hi) in Hj as [[-> ->]|[Hne' Hj]].
        -- rewrite Hcl in Hcl''. by eapply Huniq.
        -- by eapply Huniq.
Qed.

(** An action of a worker that has not completed on [d] and does not
    complete on it, and that leaves the label of [d] alone. *)
Lemma applied_invariant_frame st st' i w w' :
  workers st !! i = Some w →
  workers st' = <[i := w']> (workers st) →
  completed d w = false → completed d w' = false →
  applied_to d (applied st') = applied_to d (applied st) →
  load (d_labels (slice st')) d = load (d_labels (slice st)) d →
  applied_invariant st → applied_invariant st'.
Proof.
  intros Hi Hws Hc Hc' Hlog Hload [[Hnil Hnone]|(lbl & Hone & Hlbl & j & w0 & Hj & Hcj)].
  - left. split; [by rewrite Hlog|]. intros j w'' Hj. rewrite Hws in Hj.
    apply (lookup_update _ _ _ _ _ _ Hi) in Hj as [[-> ->]|[Hne Hj]]; [done|].
    by eapply Hnone.
  - right. exists lbl. split_and!; [by rewrite Hlog | by rewrite Hload |].
    exists j, w0. split; [|done]. rewrite Hws.
    apply (lookup_update _ _ _ _ _ _ Hi). right. split; [|done].
    intros ->. congruence.
Qed.

Lemma claimed_pc_eq w w' :
  w_dst w' = w_dst w →
  w_pc w ≠ Ready → w_pc w ≠ Finished false →
  w_pc w' ≠ Ready → w_pc w' ≠ Finished false →
  claimed d w' = claimed d w.
Proof.
  intros Hdst ????. unfold claimed. rewrite Hdst.
  destruct (w_pc w) as [| | |[]], (w_pc w') as [| | |[]]; done.
Qed.

Lemma invariant_step i st st' :
  invariant st → step' i st = Some st' → invariant st'.
Proof.
  intros [Hlen Hedges Hcell Hno Happ] Hstep.
  destruct (step_cases _ _ _ Hstep)
    as (w & w' & Hi & Hws & Hsrc & Hdst & Hcase).
  assert (∀ j w'', workers st' !! j = Some w'' →
            (j = i ∧ w'' = w') ∨ (j ≠ i ∧ workers st !! j = Some w'')) as Hlk.
  { intros j w''. rewrite Hws. apply (lookup_update _ _ _ _ _ _ Hi). }
  assert (workers st' !! i = Some w') as Hi'.
  { rewrite Hws. apply (lookup_update _ _ _ _ _ _ Hi). by left. }
  assert (∀ j w'', j ≠ i → workers st !! j = Some w'' →
            workers st' !! j = Some w'') as Hother.
  { intros j w'' ??. rewrite Hws. apply (lookup_update _ _ _ _ _ _ Hi). by right. }
  assert (∀ j w'', workers st' !! j = Some w'' →
            edges !! j = Some (w_src w'', w_dst w'')) as Hedges'.
  { intros j w'' [[-> ->]|[_ Hj]]%Hlk; [|by apply Hedges].
    rewrite Hsrc, Hdst. by apply Hedges. }
  assert (length (workers st') = length edges) as Hlen'.
  { by rewrite Hws, length_insert. }
  destruct Hcase as
    [(Hpc & Hlog & old & Hold & Hpc' & Hcell' & Hlab)
    |[(Hpc & Hslice & Hlog & Hpc')
     |(v0 & Hpc & Hpc' & Hlog & Hpreds & Hlabels)]].
  - (* CondEdge *)
    assert (completed d w = false) as Hc.
    { unfold completed. rewrite Hpc. apply andb_false_r. }
    assert (completed d w' = false) as Hc'.
    { unfold completed. rewrite Hpc'. case_bool_decide; apply andb_false_r. }
    split; [done|done| | |].
    + destruct (decide (w_dst w = d)) as [Hd|Hd].
      * rewrite Hd in *. destruct Hcell as (v & Hv & Hstate).
        assert (old = v) as -> by congruence.
        destruct Hstate as [[-> Hready]|[Hne (i0 & w0 & Hi0 & Hcl0 & Hval & Huniq)]].
        -- exists (claim_value (w_src w)). rewrite Hcell'.
           rewrite !bool_decide_eq_true_2 by done. split; [done|]. right.
           split.
           { apply claim_value_ok. rewrite <- Hd.
             eapply list_elem_of_lookup_2, Hedges, Hi. }
           rewrite bool_decide_eq_true_2 in Hpc' by done.
           exists i, w'. split_and!; [done | | by rewrite Hsrc |].
           { apply claimed_true. rewrite Hpc'. by split_and!; [congruence|..]. }
           intros j w'' [[-> ->]|[Hne Hj]]%Hlk Hcl; [done|].
           apply claimed_true in Hcl as (Hd'' & Hnr & _).
           destruct Hnr. by eapply Hready.
        -- exists v. rewrite Hcell'. rewrite bool_decide_eq_true_2 by done.
           rewrite !bool_decide_eq_false_2 by done. split; [done|]. right.
           split; [done|].
           rewrite bool_decide_eq_false_2 in Hpc' by done.
           assert (i0 ≠ i) as Hne0.
           { intros ->. assert (w0 = w) as -> by congruence.
             apply claimed_true in Hcl0 as (_ & Hnr & _). by destruct Hnr. }
           exists i0, w0. split_and!; [by apply Hother | done | done |].
           intros j w'' [[-> ->]|[Hne' Hj]]%Hlk Hcl; [|by eapply Huniq].
           apply claimed_true in Hcl as (_ & _ & Hnf). by destruct Hnf.
      * eapply (cell_invariant_frame st st' i w w'); try done.
        -- unfold claimed. rewrite Hdst.
           rewrite (bool_decide_eq_false_2 (w_dst w = d)) by done. done.
        -- rewrite Hcell'. rewrite bool_decide_eq_false_2; [done|].
           intros Heq. by apply Hd.
    + intros HM. destruct (Hno HM) as [Hnil Hnl]. split; [by rewrite Hlog|].
      intros j w'' v [[-> ->]|[Hne Hj]]%Hlk; [|by eapply Hnl].
      rewrite Hpc'. by case_bool_decide.
    + intros HM. eapply (applied_invariant_frame st st' i w w'); try done.
      * by rewrite Hlog.
      * by rewrite (Hlab HM).
      * by apply Happ.
  - (* the load of ApplyEdge, or its end without predecessor tracking *)
    assert (completed d w = false) as Hc.
    { unfold completed. rewrite Hpc. apply andb_false_r. }
    assert (w_pc w' ≠ Ready ∧ w_pc w' ≠ Finished false) as [Hnr' Hnf'].
    { destruct MARK_PREDECESSORS; [destruct Hpc' as [v ->]|rewrite Hpc']; done. }
    split; [done|done| | |].
    + eapply (cell_invariant_frame st st' i w w'); try done.
      * apply claimed_pc_eq; try done; rewrite Hpc; done.
      * intros _. by rewrite Hpc.
      * by rewrite Hslice.
    + intros HM. destruct (Hno HM) as [Hnil Hnl]. split; [by rewrite Hlog|].
      intros j w'' v [[-> ->]|[Hne Hj]]%Hlk; [|by eapply Hnl].
      rewrite HM in Hpc'. by rewrite Hpc'.
    + intros HM. rewrite HM in Hpc'. destruct Hpc' as [v Hpc'].
      eapply (applied_invariant_frame st st' i w w'); try done.
      * unfold completed. rewrite Hpc'. apply andb_false_r.
      * by rewrite Hlog.
      * by rewrite Hslice.
      * by apply Happ.
  - (* the store of ApplyEdge *)
    destruct MARK_PREDECESSORS eqn:HM.
    2:{ destruct (Hno eq_refl) as [_ Hnl]. by destruct (Hnl i w v0 Hi). }
    assert (claim_array (slice st') = claim_array (slice st)) as Harr.
    { unfold claim_array. by rewrite HM. }
    assert (claimed d w' = claimed d w) as Hcl.
    { apply claimed_pc_eq; try done; rewrite ?Hpc, ?Hpc'; done. }
    split; [done|done| | |].
    + eapply (cell_invariant_frame st st' i w w'); try done.
      * intros _. by rewrite Hpc.
      * by rewrite Harr.
    + intros HM'. congruence.
    + intros _. specialize (Happ eq_refl).
      destruct (decide (w_dst w = d)) as [Hd|Hd].
      * assert (claimed d w = true) as Hclw.
        { apply claimed_true. rewrite Hpc. by split_and!. }
        assert (∀ j w0, workers st !! j = Some w0 → claimed d w0 = true → j = i)
          as Huniq.
        { destruct Hcell as (v & Hv & [[_ Hready]|[_ (i0 & w0 & _ & _ & _ & Hu)]]).
          - specialize (Hready i w Hi Hd). congruence.
          - intros j w1 Hj Hcl1. rewrite (Hu j w1 Hj Hcl1). symmetry.
            by eapply Hu. }
        destruct Happ as [[Hnil Hnone]|(lbl & _ & _ & j & w0 & Hj & Hcj)].
        -- right. exists (Types.int_add v0 1). split_and!.
           ++ rewrite Hlog. unfold applied_to. rewrite filter_cons_True by done.
              unfold applied_to in Hnil. by rewrite Hnil, Hd.
           ++ rewrite Hlabels. by rewrite bool_decide_eq_true_2.
           ++ exists i, w'. split; [done|]. apply completed_true.
              by rewrite Hdst.
        -- assert (j = i) as -> by (eapply Huniq; [done | by apply completed_claimed]).
           assert (w0 = w) as -> by congruence.
           apply completed_true in Hcj as [_ Hcj]. congruence.
      * eapply (applied_invariant_frame st st' i w w'); try done.
        -- unfold completed. rewrite Hpc. apply andb_false_r.
        -- unfold completed. rewrite Hdst.
           by rewrite (bool_decide_eq_false_2 (w_dst w = d)).
        -- rewrite Hlog. unfold applied_to. by rewrite filter_cons_False.
        -- rewrite Hlabels. rewrite bool_decide_eq_false_2; [done|].
           intros Heq. by apply Hd.
Qed.

Lemma invariant_run schedule st st' :
  invariant st → run' schedule st = Some st' → invariant st'.
Proof.
  revert st. induction schedule as [|i schedule IH]; simpl; intros st Hinv Hrun.
  - by injection Hrun as <-.
  - destruct (step' i st) as [st1|] eqn:Hstep; [|discriminate Hrun].
    simpl in Hrun. eapply IH; [|done]. by eapply invariant_step.
Qed.

Lemma all_finished_lookup st j w :
  all_finished st = true → workers st !! j = Some w →
  ∃ won, w_pc w = Finished won.
Proof.
  unfold all_finished. rewrite forallb_forall. intros Hall Hj.
  apply list_elem_of_lookup_2, list_elem_of_In, Hall in Hj.
  unfold finished in Hj. destruct (w_pc w); try discriminate Hj. by eexists.
Qed.

(** On a destination unclaimed at the start, reached by an edge, exactly
    one edge wins, however the workers are scheduled. *)
Lemma single_winner_unclaimed (p : DataSlice) (schedule : list nat) (st : state) :
  load (claim_array p) d = Some unclaimed →
  (∃ s, (s, d) ∈ edges) →
  run MARK_PREDECESSORS INVALID_NODE_VALUE INVALID_PREDECESSOR_ID schedule
      (mkState (spawn edges) p []) = Some st →
  all_finished st = true →
  ∃ (i : nat) (s : Z),
    edges !! i = Some (s, d)
    ∧ workers st !! i = Some (mkWorker s d (Finished true))
    ∧ (∀ j s', edges !! j = Some (s', d) → j ≠ i →
         workers st !! j = Some (mkWorker s' d (Finished false)))
    ∧ load (claim_array (slice st)) d = Some (claim_value s)
    ∧ if MARK_PREDECESSORS
      then ∃ lbl, applied_to d (applied st) = [(d, lbl)]
                  ∧ load (d_labels (slice st)) d = Some lbl
      else applied st = [].
Proof.
  intros Hd [s0 Hs0] Hrun Hfin.
  pose proof (invariant_run _ _ _ (invariant_initial p Hd) Hrun)
    as [Hlen Hedges Hcell Hno Happ].
  assert (∀ j s', edges !! j = Some (s', d) →
            ∃ won, workers st !! j = Some (mkWorker s' d (Finished won))) as Hall.
  { intros j s' Hj.
    destruct (lookup_lt_is_Some_2 (workers st) j) as [w Hw].
    { rewrite Hlen. by eapply lookup_lt_Some. }
    pose proof (Hedges _ _ Hw) as He. rewrite Hj in He. injection He as -> ->.
    destruct (all_finished_lookup _ _ _ Hfin Hw) as [won Hwon].
    exists won. destruct w as [ws wd wpc]. simpl in *. by subst. }
  apply list_elem_of_lookup_1 in Hs0 as [k Hk].
  destruct (Hall _ _ Hk) as [wonk Hwk].
  destruct Hcell as (v & Hv & [[-> Hready]|[Hne (i & w & Hi & Hcl & Hval & Huniq)]]).
  { specialize (Hready _ _ Hwk eq_refl). discriminate Hready. }
  pose proof (Hedges _ _ Hi) as Hei.
  apply claimed_true in Hcl as Hcl'. destruct Hcl' as (Hdw & Hnr & Hnf).
  rewrite Hdw in Hei.
  destruct (Hall _ _ Hei) as [won Hwi].
  assert (won = true) as ->.
  { assert (w = mkWorker (w_src w) d (Finished won)) as Hw by congruence.
    rewrite Hw in Hnf. simpl in Hnf. destruct won; [done|]. by destruct Hnf. }
  exists i, (w_src w). split_and!; [done | done | | by rewrite Hv, Hval |].
  - intros j s' Hj Hne'. destruct (Hall _ _ Hj) as [[] Hwj]; [|done].
    destruct Hne'. eapply Huniq; [done|]. apply claimed_true. by split_and!.
  - destruct MARK_PREDECESSORS eqn:HM.
    + destruct (Happ eq_refl) as [[_ Hnone]|(lbl & Hone & Hlbl & _)].
      * specialize (Hnone _ _ Hwi). unfold completed in Hnone. simpl in Hnone.
        by rewrite bool_decide_eq_true_2 in Hnone.
      * by exists lbl.
    + by destruct (Hno eq_refl).
Qed.

(** A destination claimed before the step.  What holds of [d] throughout
    when its cell holds [v], not the sentinel, at the start: the cell and
    the label of [d] stay as they are, every worker into [d] is still to
    evaluate [CondEdge] or has lost it, and no [ApplyEdge] has written to
    [d]. *)
Record claimed_before (p : DataSlice) (v : Z) (st : state) : Prop :=
  mkClaimedBefore {
  cb_length : length (workers st) = length edges;
  cb_edges : ∀ j w,
    workers st !! j = Some w → edges !! j = Some (w_src w, w_dst w);
  cb_cell : load (claim_array (slice st)) d = Some v;
  cb_label : load (d_labels (slice st)) d = load (d_labels p) d;
  cb_workers : ∀ j w,
    workers st !! j = Some w → w_dst w = d →
    w_pc w = Ready ∨ w_pc w = Finished false;
  cb_applied : applied_to d (applied st) = []
}.

Lemma claimed_before_initial p v :
  load (claim_array p) d = Some v →
  claimed_before p v (mkState (spawn edges) p []).
Proof.
  intros Hd. split; simpl; [| |done|done| |done].
  - unfold spawn. by rewrite length_map.
  - intros j w Hw. by apply lookup_spawn in Hw as [? _].
  - intros j w Hw _. left. by apply lookup_spawn in Hw as [_ ?].
Qed.

Lemma claimed_before_step p v i st st' :
  v ≠ unclaimed →
  claimed_before p v st → step' i st = Some st' → claimed_before p v st'.
Proof.
  intros Hv [Hlen Hedges Hcell Hlabel Hws Hlog] Hstep.
  destruct (step_cases _ _ _ Hstep)
    as (w & w' & Hi & Hws' & Hsrc & Hdst & Hcase).
  assert (∀ j w'', workers st' !! j = Some w'' →
            (j = i ∧ w'' = w') ∨ (j ≠ i ∧ workers st !! j = Some w'')) as Hlk.
  { intros j w''. rewrite Hws'. apply (lookup_update _ _ _ _ _ _ Hi). }
  assert (∀ j w'', workers st' !! j = Some w'' →
            edges !! j = Some (w_src w'', w_dst w'')) as Hedges'.
  { intros j w'' [[-> ->]|[_ Hj]]%Hlk; [|by apply Hedges].
    rewrite Hsrc, Hdst. by apply Hedges. }
  assert (length (workers st') = length edges) as Hlen'.
  { by rewrite Hws', length_insert. }
  destruct Hcase as
    [(Hpc & Hlog' & old & Hold & Hpc' & Hcell' & Hlab)
    |[(Hpc & Hslice & Hlog' & Hpc')
     |(v0 & Hpc & Hpc' & Hlog' & Hpreds & Hlabels)]].
  - (* CondEdge *)
    assert (load (claim_array (slice st')) d = Some v) as Hcell''.
    { rewrite Hcell'.
      destruct (bool_decide_reflect (d = w_dst w)) as [Hd|Hd]; [|done].
      rewrite <- Hd in Hold. assert (old = v) as -> by congruence.
      by rewrite bool_decide_eq_false_2. }
    split; [done | done | done | | | by rewrite Hlog'].
    + destruct MARK_PREDECESSORS eqn:HM.
      * by rewrite (Hlab eq_refl).
      * unfold claim_array in Hcell'', Hcell. rewrite HM in Hcell'', Hcell.
        rewrite Hcell'', <- Hlabel. done.
    + intros j w'' [[-> ->]|[_ Hj]]%Hlk Hd; [|by eapply Hws].
      rewrite Hdst in Hd. rewrite Hd in Hold.
      assert (old = v) as -> by congruence.
      rewrite bool_decide_eq_false_2 in Hpc' by done. by right.
  - (* the load of ApplyEdge, or its end without predecessor tracking *)
    assert (w_dst w ≠ d) as Hd.
    { intros Hd. destruct (Hws _ _ Hi Hd) as [H|H]; congruence. }
    split; [done | done | by rewrite Hslice | by rewrite Hslice |
            | by rewrite Hlog'].
    intros j w'' [[-> ->]|[_ Hj]]%Hlk Hd'; [|by eapply Hws].
    rewrite Hdst in Hd'. by destruct Hd.
  - (* the store of ApplyEdge *)
    assert (w_dst w ≠ d) as Hd.
    { intros Hd. destruct (Hws _ _ Hi Hd) as [H|H]; congruence. }
    assert (load (d_labels (slice st')) d = load (d_labels (slice st)) d)
      as Hlabel'.
    { rewrite Hlabels. rewrite bool_decide_eq_false_2; [done|].
      intros Heq. by apply Hd. }
    split; [done | done | | by rewrite Hlabel' | |].
    + unfold claim_array in *. destruct MARK_PREDECESSORS.
      * by rewrite Hpreds.
      * by rewrite Hlabel'.
    + intros j w'' [[-> ->]|[_ Hj]]%Hlk Hd'; [|by eapply Hws].
      rewrite Hdst in Hd'. by destruct Hd.
    + rewrite Hlog'. unfold applied_to. rewrite filter_cons_False; [done|].
      simpl. done.
Qed.

Lemma claimed_before_run p v schedule st st' :
  v ≠ unclaimed →
  claimed_before p v st → run' schedule st = Some st' → claimed_before p v st'.
Proof.
  intros Hv. revert st.
  induction schedule as [|i schedule IH]; simpl; intros st Hinv Hrun.
  - by injection Hrun as <-.
  - destruct (step' i st) as [st1|] eqn:Hstep; [|discriminate Hrun].
    simpl in Hrun. eapply IH; [|done]. by eapply claimed_before_step.
Qed.

(** On a destination claimed before the step every edge loses, however
    the workers are scheduled. *)
Lemma claimed_destination_no_winner (p : DataSlice) (schedule : list nat)
    (st : state) (v : Z) :
  load (claim_array p) d = Some v → v ≠ unclaimed →
  run' schedule (mkState (spawn edges) p []) = Some st →
  all_finished st = true →
  (∀ j s, edges !! j = Some (s, d) →
     workers st !! j = Some (mkWorker s d (Finished false)))
  ∧ load (claim_array (slice st)) d = Some v
  ∧ load (d_labels (slice st)) d = load (d_labels p) d
  ∧ applied_to d (applied st) = [].
Proof.
  intros Hd Hv Hrun Hfin.
  pose proof (claimed_before_run p v _ _ _ Hv (claimed_before_initial p v Hd) Hrun)
    as [Hlen Hedges Hcell Hlabel Hws Hlog].
  split_and!; [|done..].
  intros j s Hj.
  destruct (lookup_lt_is_Some_2 (workers st) j) as [w Hw].
  { rewrite Hlen. by eapply lookup_lt_Some. }
  pose proof (Hedges _ _ Hw) as He. rewrite Hj in He. injection He as Hs Hd'.
  destruct (all_finished_lookup _ _ _ Hfin Hw) as [won Hwon].
  destruct (Hws _ _ Hw (eq_sym Hd')) as [Hpc|Hpc]; [congruence|].
  rewrite Hw. destruct w as [ws wd wpc]. simpl in *. congruence.
Qed.

End SingleWinner.

Section SingleWinnerOrNone.
Import BFSFunctor Advance.

(** C1, as amended.  One Advance step over the edges [edges], however the
    workers are scheduled, once all have finished; [d] is a destination.

    If the cell of [d] (its predecessor with predecessor tracking, its
    label without) is unclaimed when the step starts, the value every
    edge into [d] would swap in differs from the sentinel, and at least
    one edge reaches [d]: exactly one edge into [d] has won its
    [CondEdge] and every other edge into [d] has lost it; the cell holds
    the winner's value; and with predecessor tracking [ApplyEdge] has
    written the label of [d] exactly once, the value found there, while
    without it [ApplyEdge] has written nothing.

    If the cell of [d] holds another value than the sentinel when the
    step starts: every edge into [d] has lost its [CondEdge], the cell
    and the label of [d] are as they were, and [ApplyEdge] has written
    nothing to [d]. *)
Theorem Advance_single_winner :
  ∀ (MARK_PREDECESSORS : bool) (INVALID_NODE_VALUE INVALID_PREDECESSOR_ID : Z)
    (edges : list (Z * Z)) (d : Z) (p : DataSlice) (schedule : list nat)
    (st : state),
    run MARK_PREDECESSORS INVALID_NODE_VALUE INVALID_PREDECESSOR_ID schedule
        (mkState (spawn edges) p []) = Some st →
    all_finished st = true →
    (load (claim_array MARK_PREDECESSORS p) d
     = Some (unclaimed MARK_PREDECESSORS INVALID_NODE_VALUE
                       INVALID_PREDECESSOR_ID) →
     (∀ s, (s, d) ∈ edges →
        claim_value MARK_PREDECESSORS s
        ≠ unclaimed MARK_PREDECESSORS INVALID_NODE_VALUE
                    INVALID_PREDECESSOR_ID) →
     (∃ s, (s, d) ∈ edges) →
     ∃ (i : nat) (s : Z),
       edges !! i = Some (s, d)
       ∧ workers st !! i = Some (mkWorker s d (Finished true))
       ∧ (∀ j s', edges !! j = Some (s', d) → j ≠ i →
            workers st !! j = Some (mkWorker s' d (Finished false)))
       ∧ load (claim_array MARK_PREDECESSORS (slice st)) d
         = Some (claim_value MARK_PREDECESSORS s)
       ∧ if MARK_PREDECESSORS
         then ∃ lbl, applied_to d (applied st) = [(d, lbl)]
                     ∧ load (d_labels (slice st)) d = Some lbl
         else applied st = [])
    ∧ (∀ v : Z,
         load (claim_array MARK_PREDECESSORS p) d = Some v →
         v ≠ unclaimed MARK_PREDECESSORS INVALID_NODE_VALUE
                       INVALID_PREDECESSOR_ID →
         (∀ j s, edges !! j = Some (s, d) →
            workers st !! j = Some (mkWorker s d (Finished false)))
         ∧ load (claim_array MARK_PREDECESSORS (slice st)) d = Some v
         ∧ load (d_labels (slice st)) d = load (d_labels p) d
         ∧ applied_to d (applied st) = []).
Proof.
  intros MARK inv_value inv_pred edges d p schedule st Hrun Hfin. split.
  - intros Hd Hok Hreached.
    by apply (single_winner_unclaimed MARK inv_value inv_pred edges d Hok p
                schedule st).
  - intros v Hd Hv.
    by apply (claimed_destination_no_winner MARK inv_value inv_pred edges d p
                schedule st v).
Qed.

End SingleWinnerOrNone.

Section Completion.
Import BFSFunctor Advance.

Variable MARK_PREDECESSORS : bool.
Variables INVALID_NODE_VALUE INVALID_PREDECESSOR_ID : Z.

(** The memory actions a worker still has to perform, at most. *)
Definition remaining (w : worker) : nat :=
  match w_pc w with
  | Ready => 3 | Claimed => 2 | Loaded _ => 1 | Finished _ => 0
  end.

Definition total_remaining (st : state) : nat :=
  sum_list (remaining <$> workers st).

(** Every edge of the step joins two vertices of the slice. *)
Definition in_range (st : state) : Prop :=
  ∀ j w, workers st !! j = Some w →
    (0 ≤ w_src w < Z.of_nat (length (d_labels (slice st)))
     ∧ 0 ≤ w_dst w < Z.of_nat (length (d_labels (slice st)))
     ∧ 0 ≤ w_dst w < Z.of_nat (length (d_preds (slice st)))).

Lemma load_is_Some arr i :
  0 ≤ i < Z.of_nat (length arr) → ∃ v, load arr i = Some v.
Proof.
  intros Hi. destruct (lookup_lt_is_Some_2 arr (Z.to_nat i)) as [v Hv]; [lia|].
  exists v. apply load_Some. split; [lia | done].
Qed.

Lemma store_is_Some arr i v :
  0 ≤ i < Z.of_nat (length arr) →
  ∃ arr', store arr i v = Some arr' ∧ length arr' = length arr.
Proof.
  intros Hi. exists (<[Z.to_nat i := v]> arr). split.
  - by apply store_Some.
  - apply length_insert.
Qed.

Lemma sum_remaining_insert (ws : list worker) i w w' :
  ws !! i = Some w →
  (remaining w' < remaining w)%nat →
  (sum_list (remaining <$> <[i := w']> ws) < sum_list (remaining <$> ws))%nat.
Proof.
  revert i. induction ws as [|a ws IH]; intros [|i] Hi Hlt; simplify_eq/=.
  - lia.
  - specialize (IH i Hi Hlt). lia.
Qed.

Lemma unfinished_worker st :
  all_finished st = false →
  ∃ i w, workers st !! i = Some w ∧ finished w = false.
Proof.
  unfold all_finished. induction (workers st) as [|a ws IH]; simpl; [done|].
  destruct (finished a) eqn:Ha; simpl.
  - intros (i & w & Hi & Hw)%IH. by exists (S i), w.
  - intros _. by exists 0%nat, a.
Qed.

(** A worker that has not finished can always perform its next action. *)
Lemma step_progress i w st :
  in_range st →
  workers st !! i = Some w → finished w = false →
  ∃ st', step MARK_PREDECESSORS INVALID_NODE_VALUE INVALID_PREDECESSOR_ID i st
         = Some st'
         ∧ in_range st'
         ∧ (total_remaining st' < total_remaining st)%nat.
Proof.
  intros Hrange Hi Hunf. destruct (Hrange _ _ Hi) as (Hs & Hdl & Hdp).
  assert (∀ w' p' log',
            w_src w' = w_src w → w_dst w' = w_dst w →
            (remaining w' < remaining w)%nat →
            length (d_labels p') = length (d_labels (slice st)) →
            length (d_preds p') = length (d_preds (slice st)) →
            in_range (mkState (<[i := w']> (workers st)) p' log')
            ∧ (total_remaining (mkState (<[i := w']> (workers st)) p' log')
               < total_remaining st)%nat) as Hdone.
  { intros w' p' log' Hsrc Hdst Hlt Hll Hlp. split.
    - intros j w''. simpl. rewrite Hll, Hlp.
      destruct (decide (j = i)) as [->|Hne].
      + rewrite list_lookup_insert_eq by (by eapply lookup_lt_Some).
        intros [= <-]. by rewrite Hsrc, Hdst.
      + rewrite list_lookup_insert_ne by done. apply Hrange.
    - unfold total_remaining. simpl. by eapply sum_remaining_insert. }
  unfold step. rewrite Hi. simpl. unfold worker_step, finished, remaining in *.
  destruct (w_pc w) as [| |v|won] eqn:Hpc; [| | |discriminate Hunf].
  - unfold CondEdge, atomicCAS. destruct MARK_PREDECESSORS.
    + destruct (load_is_Some _ _ Hdp) as [old ->]. simpl.
      destruct (store_is_Some (d_preds (slice st)) (w_dst w)
                  (if bool_decide (old = INVALID_PREDECESSOR_ID)
                   then w_src w else old) Hdp) as (arr & -> & Hlen).
      simpl. eexists. split; [done|]. apply Hdone; try done. simpl.
      case_bool_decide; simpl; lia.
    + destruct (load_is_Some _ _ Hdl) as [old ->]. simpl.
      destruct (store_is_Some (d_labels (slice st)) (w_dst w)
                  (if bool_decide (old = INVALID_NODE_VALUE)
                   then Types.int_add (w_src w) 1 else old) Hdl)
        as (arr & -> & Hlen).
      simpl. eexists. split; [done|]. apply Hdone; try done. simpl.
      case_bool_decide; simpl; lia.
  - destruct MARK_PREDECESSORS.
    + unfold ApplyEdge_load. destruct (load_is_Some _ _ Hs) as [v ->]. simpl.
      eexists. split; [done|]. apply Hdone; try done. simpl. lia.
    + eexists. split; [done|]. apply Hdone; try done. simpl. lia.
  - unfold ApplyEdge_store.
    destruct (store_is_Some (d_labels (slice st)) (w_dst w)
                (Types.int_add v 1) Hdl) as (arr & -> & Hlen).
    simpl. eexists. split; [done|]. apply Hdone; try done. simpl. lia.
Qed.

(** Some schedule brings every worker of the step to its end. *)
Lemma Advance_completes st :
  in_range st →
  ∃ schedule st',
    run MARK_PREDECESSORS INVALID_NODE_VALUE INVALID_PREDECESSOR_ID schedule st
    = Some st'
    ∧ all_finished st' = true.
Proof.
  remember (total_remaining st) as n eqn:Hn. revert st Hn.
  induction n as [n IH] using lt_wf_ind. intros st -> Hrange.
  destruct (all_finished st) eqn:Hfin.
  - by exists [], st.
  - destruct (unfinished_worker _ Hfin) as (i & w & Hi & Hw).
    destruct (step_progress i w st Hrange Hi Hw) as (st1 & Hstep & Hrange1 & Hlt).
    destruct (IH _ Hlt st1 eq_refl Hrange1) as (schedule & st' & Hrun & Hall).
    exists (i :: schedule), st'. simpl. rewrite Hstep. done.
Qed.

End Completion.

(** The second step of the traversal of the graph 0->1, 0->2, 1->3, 2->3
    from vertex 0, with predecessor tracking. *)
Definition diamond_edges : list (Z * Z) := [(1, 3); (2, 3)].
Definition diamond_slice : BFSFunctor.DataSlice :=
  BFSFunctor.mkDataSlice [0; 1; 1; -1] [-1; 0; 0; -1].

Lemma Advance_single_winner_witness :
  (∃ (i : nat) (s : Z),
     diamond_edges !! i = Some (s, 3)
     ∧ Advance.workers
         (Advance.mkState
            [Advance.mkWorker 1 3 (Advance.Finished false);
             Advance.mkWorker 2 3 (Advance.Finished true)]
            (BFSFunctor.mkDataSlice [0; 1; 1; 2] [-1; 0; 0; 2]) [(3, 2)]) !! i
       = Some (Advance.mkWorker s 3 (Advance.Finished true)))
  ∧ (∀ (j : nat) (s : Z),
       [(1, 2); (0, 2)] !! j = Some (s, 2) →
       Advance.workers
         (Advance.mkState
            [Advance.mkWorker 1 2 (Advance.Finished false);
             Advance.mkWorker 0 2 (Advance.Finished false)]
            diamond_slice []) !! j
       = Some (Advance.mkWorker s 2 (Advance.Finished false))).
Proof.
  split.
  - destruct (Advance_single_winner true (-1) (-1) diamond_edges 3
                diamond_slice [1; 1; 0; 1]%nat
                (Advance.mkState
                   [Advance.mkWorker 1 3 (Advance.Finished false);
                    Advance.mkWorker 2 3 (Advance.Finished true)]
                   (BFSFunctor.mkDataSlice [0; 1; 1; 2] [-1; 0; 0; 2])
                   [(3, 2)]))
      as [Hone _]; [reflexivity | reflexivity |].
    destruct Hone as (i & s & Hedge & Hworker & _).
    + reflexivity.
    + intros s Hs. unfold diamond_edges in Hs.
      apply elem_of_cons in Hs as [Hs|Hs]; [injection Hs as ->; done|].
      apply elem_of_cons in Hs as [Hs|Hs]; [injection Hs as ->; done|].
      by apply elem_of_nil in Hs.
    + exists 1. unfold diamond_edges. apply elem_of_cons. by left.
    + by exists i, s.
  - destruct (Advance_single_winner true (-1) (-1) [(1, 2); (0, 2)] 2
                diamond_slice [1; 0]%nat
                (Advance.mkState
                   [Advance.mkWorker 1 2 (Advance.Finished false);
                    Advance.mkWorker 0 2 (Advance.Finished false)]
                   diamond_slice []))
      as [_ Hnone]; [reflexivity | reflexivity |].
    destruct (Hnone 0) as [Hall _]; [reflexivity | discriminate | exact Hall].
Defined.

(** C1, as stated, fails: a destination reached by two edges of the step
    may have been claimed before the step.  Without predecessor tracking
    the edges 1->0 and 2->0 both find the label of vertex 0 set and both
    lose; with it, the edges 1->2 and 0->2 both find the predecessor of
    vertex 2 set and both lose.  No edge is admitted and nothing is
    written.  And on an unclaimed destination an edge that swaps in the
    sentinel itself leaves the destination unclaimed: without predecessor
    tracking the edge from the id -2 into vertex 3 swaps in -2 + 1 = -1,
    the edge 1->3 then finds the label of vertex 3 still unset, and both
    win. *)
Lemma Advance_claimed_destination_has_no_winner :
  Advance.run false (-1) (-1) [0; 1]%nat
    (Advance.mkState (Advance.spawn [(1, 0); (2, 0)]) diamond_slice [])
  = Some (Advance.mkState
            [Advance.mkWorker 1 0 (Advance.Finished false);
             Advance.mkWorker 2 0 (Advance.Finished false)]
            diamond_slice [])
  ∧ Advance.run true (-1) (-1) [1; 0]%nat
      (Advance.mkState (Advance.spawn [(1, 2); (0, 2)]) diamond_slice [])
    = Some (Advance.mkState
              [Advance.mkWorker 1 2 (Advance.Finished false);
               Advance.mkWorker 0 2 (Advance.Finished false)]
              diamond_slice [])
  ∧ Advance.run false (-1) (-1) [0; 0; 1; 1]%nat
      (Advance.mkState (Advance.spawn [(-2, 3); (1, 3)]) diamond_slice [])
    = Some (Advance.mkState
              [Advance.mkWorker (-2) 3 (Advance.Finished true);
               Advance.mkWorker 1 3 (Advance.Finished true)]
              (BFSFunctor.mkDataSlice [0; 1; 1; 2] [-1; 0; 0; -1]) []).
Proof. split_and!; reflexivity. Qed.

(** ** The order [p_map] is walked in *)

Section RegistryWalk.
Import Util.

Lemma string_leb_trans (a b c : string) :
  String.leb a b = true → String.leb b c = true → String.leb a c = true.
Proof.
  unfold String.leb. revert b c.
  induction a as [|x a IH]; intros [|y b] [|z c]; simpl; try done.
  unfold Ascii.compare.
  destruct (N.compare_spec (N_of_ascii x) (N_of_ascii y)) as [Hxy|Hxy|Hxy];
    destruct (N.compare_spec (N_of_ascii y) (N_of_ascii z)) as [Hyz|Hyz|Hyz];
    destruct (N.compare_spec (N_of_ascii x) (N_of_ascii z)) as [Hxz|Hxz|Hxz];
    try done; try lia.
  apply IH.
Qed.

#[local] Instance key_order_trans : Transitive key_order.
Proof. intros a b c. unfold key_order. apply string_leb_trans. Qed.

#[local] Instance key_order_total : Total key_order.
Proof. intros a b. unfold key_order. apply String.leb_total. Qed.

Lemma entries_Permutation P : entries P ≡ₚ map_to_list (p_map P).
Proof. apply merge_sort_Permutation. Qed.

Lemma entries_sorted P : StronglySorted key_order (entries P).
Proof. apply StronglySorted_merge_sort; apply _. Qed.

Lemma entries_NoDup P : NoDup (entries P).*1.
Proof. rewrite entries_Permutation. apply NoDup_fst_map_to_list. Qed.

Lemma entries_lookup P key it :
  (key, it) ∈ entries P ↔ p_map P !! key = Some it.
Proof. rewrite entries_Permutation. apply elem_of_map_to_list. Qed.

Lemma entries_length P : length (entries P) = size (p_map P).
Proof. rewrite entries_Permutation. apply length_map_to_list. Qed.

(** The key order and the map determine the list [Check_Required] walks:
    it is the only list in key order that holds every entry once. *)
Lemma entries_unique P (l : list (string * Parameter_Item)) :
  l ≡ₚ map_to_list (p_map P) → StronglySorted key_order l → l = entries P.
Proof.
  intros Hperm Hsorted.
  apply (StronglySorted_unique_strong key_order);
    [|done|apply entries_sorted|by rewrite entries_Permutation].
  intros [k1 it1] [k2 it2] H1 H2 H12 H21.
  assert (k1 = k2) as <- by (by apply String.leb_antisym).
  rewrite Hperm in H1. apply entries_lookup in H2.
  apply elem_of_map_to_list in H1. congruence.
Qed.

Lemma Check_Required_entry_cases entry :
  Check_Required_entry entry
  = if decide (missing entry) then Some (report entry) else None.
Proof.
  unfold Check_Required_entry, missing, report.
  destruct (bool_decide_reflect
              (N.land (flag entry.2) REQUIRED_PARAMETER ≠ REQUIRED_PARAMETER))
    as [Hne|Hreq].
  - rewrite decide_False; [done|]. by intros [? _].
  - assert (N.land (flag entry.2) REQUIRED_PARAMETER = REQUIRED_PARAMETER)
      as Hreq'.
    { by destruct (decide (N.land (flag entry.2) REQUIRED_PARAMETER
                           = REQUIRED_PARAMETER)). }
    destruct (bool_decide_reflect (value entry.2 = "")) as [Hv|Hv].
    + by rewrite decide_True.
    + rewrite decide_False; [done|]. by intros [_ ?].
Qed.

Lemma Check_Required_lines (l : list (string * Parameter_Item)) :
  omap Check_Required_entry l = report <$> filter missing l.
Proof.
  induction l as [|entry l IH]; [done|].
  cbn [omap list_omap]. rewrite Check_Required_entry_cases.
  destruct (decide (missing entry)) as [Hm|Hm].
  - rewrite filter_cons_True by done. simpl. by rewrite IH.
  - rewrite filter_cons_False by done. done.
Qed.

Lemma elem_of_Check_Required P line :
  line ∈ (Check_Required P).2 ↔
  ∃ key p_item,
    p_map P !! key = Some p_item
    ∧ N.land (flag p_item) REQUIRED_PARAMETER = REQUIRED_PARAMETER
    ∧ value p_item = ""
    ∧ line = Required_not_present (name p_item) (file_name p_item)
                                  (line_num p_item).
Proof.
  simpl. rewrite Check_Required_lines, list_elem_of_fmap. split.
  - intros ([key p_item] & -> & Hin). apply list_elem_of_filter in Hin as [[Hreq Hv] Hin].
    apply entries_lookup in Hin. by exists key, p_item.
  - intros (key & p_item & Hl & Hreq & Hv & ->).
    exists (key, p_item). split; [done|].
    apply list_elem_of_filter. split; [done | by apply entries_lookup].
Qed.

End RegistryWalk.

(** ** The parameter registry *)

Section Registry.
Import Util.

(** The guard [Use] applies before anything else: [NO_ARGUMENT] is only
    for [bool] parameters. *)
Definition Use_guard_fails (flag : Parameter_Flag) (ty : type_info) : bool :=
  bool_decide (N.land flag NO_ARGUMENT = NO_ARGUMENT) && bool_decide (ty ≠ ti_bool).

(** The item a successful [Use] installs. *)
Definition declared_item (name : string) (flag : Parameter_Flag)
    (default_value description : string) (ty : type_info)
    (file_name : string) (line_num : Z) : Parameter_Item :=
  mkItem name flag default_value description default_value true ty
         file_name line_num.

Lemma Use_fresh name flag dv desc ty file line P :
  p_map P !! name = None →
  Use_guard_fails flag ty = false →
  Use name flag dv desc ty file line P
  = (cudaSuccess,
     mkParameters (<[name := declared_item name flag dv desc ty file line]> (p_map P))
                  (summary P)).
Proof.
  unfold Use, Use_guard_fails, declared_item. intros -> ->. done.
Qed.

(** C8, as amended.  On a name that is already declared, [Use] first
    applies its [NO_ARGUMENT] guard, whose failure is the invalid-value
    error whatever the call site; a call that passes the guard gets the
    duplicate-definition error, the registry unchanged, when the file
    name or the line number differs from the stored declaration's, and
    succeeds, installing the new item, when both are the same. *)
Theorem Use_declared_name :
  ∀ (name : string) (flag : Parameter_Flag) (default_value description : string)
    (ty : type_info) (file : string) (line : Z) (P : Parameters)
    (it : Parameter_Item),
    p_map P !! name = Some it →
    Use name flag default_value description ty file line P
    = if Use_guard_fails flag ty then (cudaErrorInvalidValue, P)
      else if bool_decide (file_name it = file ∧ line_num it = line)
      then (cudaSuccess,
            mkParameters
              (<[name := declared_item name flag default_value description
                                       ty file line]> (p_map P))
              (summary P))
      else (cudaErrorInvalidSymbol, P).
Proof.
  intros name flag dv desc ty file line P it Hit.
  unfold Use, Use_guard_fails, declared_item. rewrite Hit.
  destruct (_ && _); [done|].
  destruct (bool_decide_reflect (file_name it = file ∧ line_num it = line))
    as [[-> ->]|Hsite].
  - by rewrite !bool_decide_eq_false_2 by (intros Hne; by apply Hne).
  - destruct (bool_decide_reflect (file_name it ≠ file)) as [|Hf]; [done|].
    destruct (bool_decide_reflect (line_num it ≠ line)) as [|Hl]; [done|].
    exfalso. apply Hsite. split.
    + by destruct (decide (file_name it = file)).
    + by destruct (decide (line_num it = line)).
Qed.

(** A registry in which "quick" was declared at app.cu:10. *)
Definition registry_with_quick : Parameters :=
  (Use "quick" OPTIONAL_ARGUMENT "0" "quick mode" ti_int "app.cu" 10
       (new_Parameters "test")).2.

Lemma Use_declared_name_witness :
  Use "quick" OPTIONAL_ARGUMENT "1" "again" ti_int "other.cu" 20 registry_with_quick
  = (cudaErrorInvalidSymbol, registry_with_quick).
Proof.
  rewrite (Use_declared_name "quick" OPTIONAL_ARGUMENT "1" "again" ti_int
             "other.cu" 20 registry_with_quick
             (declared_item "quick" OPTIONAL_ARGUMENT "0" "quick mode" ti_int
                            "app.cu" 10)).
  - reflexivity.
  - reflexivity.
Defined.

(** C8, as stated, fails: on the declared name "quick" a [NO_ARGUMENT]
    declaration of type [int] gets the invalid-value error, not the
    duplicate-definition error, from another call site, and does not
    succeed from the same call site. *)
Lemma Use_guard_precedes_duplicate_test :
  p_map registry_with_quick !! "quick"
  = Some (declared_item "quick" OPTIONAL_ARGUMENT "0" "quick mode" ti_int "app.cu" 10)
  ∧ Use "quick" NO_ARGUMENT "0" "quick mode" ti_int "other.cu" 20 registry_with_quick
    = (cudaErrorInvalidValue, registry_with_quick)
  ∧ Use "quick" NO_ARGUMENT "0" "quick mode" ti_int "app.cu" 10 registry_with_quick
    = (cudaErrorInvalidValue, registry_with_quick).
Proof. split_and!; reflexivity. Qed.

(** Re-declaring with the very same call is idempotent. *)
Lemma Use_twice name flag dv desc ty file line P P' :
  Use name flag dv desc ty file line P = (cudaSuccess, P') →
  Use name flag dv desc ty file line P' = (cudaSuccess, P').
Proof.
  intros HU.
  assert (Use_guard_fails flag ty = false) as Hg.
  { unfold Use, Use_guard_fails in *. destruct (_ && _); [discriminate HU|done]. }
  assert (P' = mkParameters
            (<[name := declared_item name flag dv desc ty file line]> (p_map P))
            (summary P)) as ->.
  { destruct (p_map P !! name) as [it|] eqn:Hit.
    - rewrite (Use_declared_name _ _ _ _ _ _ _ _ it Hit), Hg in HU.
      case_bool_decide; by simplify_eq.
    - rewrite Use_fresh in HU by done. by simplify_eq. }
  erewrite Use_declared_name by (simpl; apply lookup_insert_eq).
  rewrite Hg. simpl. rewrite bool_decide_eq_true_2 by done.
  by rewrite insert_insert_eq.
Qed.

(** C10.  [Set] on a name that was not declared returns an error and the
    registry as it was, so that [Get] on the name fails afterwards as
    well; [Set] on a declared name succeeds, and the entry of the name
    then holds the given value with [use_default] false, which [Get]
    returns. *)
Theorem Set_declared_or_not :
  ∀ (name value : string) (P : Parameters),
    (p_map P !! name = None →
     (Set_ name value P).1 ≠ cudaSuccess
     ∧ (Set_ name value P).2 = P
     ∧ ∀ out, (Get name out (Set_ name value P).2).1 ≠ cudaSuccess)
    ∧ (∀ it, p_map P !! name = Some it →
       (Set_ name value P).1 = cudaSuccess
       ∧ (∃ it', p_map (Set_ name value P).2 !! name = Some it'
                 ∧ Util.value it' = value ∧ use_default it' = false)
       ∧ (∀ other, other ≠ name →
            p_map (Set_ name value P).2 !! other = p_map P !! other)
       ∧ ∀ out, Get name out (Set_ name value P).2 = (cudaSuccess, value)).
Proof.
  intros name value P. split.
  - intros Hnone. unfold Set_, Get. rewrite Hnone. simpl. rewrite Hnone.
    by split_and!.
  - intros it Hit. unfold Set_, Get. rewrite Hit. simpl.
    rewrite lookup_insert_eq. split_and!; [done | by eexists | | done].
    intros other Hne. by rewrite lookup_insert_ne.
Qed.

Lemma Set_declared_or_not_witness :
  (Set_ "slow" "1" registry_with_quick).1 ≠ cudaSuccess
  ∧ (Set_ "quick" "1" registry_with_quick).1 = cudaSuccess.
Proof.
  split.
  - apply (Set_declared_or_not "slow" "1" registry_with_quick). reflexivity.
  - eapply (Set_declared_or_not "quick" "1" registry_with_quick). reflexivity.
Defined.

(** C9, as amended.  [Check_Required] returns [cudaSuccess] whatever the
    registry holds; what it finds it writes to [std::cerr]: it walks the
    declared parameters once each, in the order of their keys, and for
    each one flagged [REQUIRED_PARAMETER] whose value is empty writes one
    line with the parameter's name and call site.  So there are as many
    lines as required parameters without a value. *)
Theorem Check_Required_reports_on_cerr :
  ∀ (P : Parameters),
    (Check_Required P).1 = cudaSuccess
    ∧ (Check_Required P).2 = report <$> filter missing (entries P)
    ∧ entries P ≡ₚ map_to_list (p_map P)
    ∧ StronglySorted key_order (entries P)
    ∧ (∀ l, l ≡ₚ map_to_list (p_map P) → StronglySorted key_order l →
         l = entries P)
    ∧ length (Check_Required P).2 = size (missing_required P)
    ∧ ∀ line : cerr_line,
        line ∈ (Check_Required P).2 ↔
        ∃ key p_item,
          p_map P !! key = Some p_item
          ∧ N.land (flag p_item) REQUIRED_PARAMETER = REQUIRED_PARAMETER
          ∧ value p_item = ""
          ∧ line = Required_not_present (name p_item) (file_name p_item)
                                        (line_num p_item).
Proof.
  intros P.
  split_and!; [done | apply Check_Required_lines | apply entries_Permutation
              | apply entries_sorted | apply entries_unique |
              | apply elem_of_Check_Required].
  simpl. rewrite Check_Required_lines, length_fmap.
  unfold missing_required. rewrite size_dom, map_filter_alt.
  rewrite <- length_map_to_list, map_to_list_to_map.
  - by rewrite entries_Permutation.
  - eapply (sublist_NoDup _ (map_to_list (p_map P)).*1);
      [apply NoDup_fst_map_to_list | apply fmap_sublist, sublist_filter].
Qed.

(** A registry whose only parameter is required and has no value. *)
Definition registry_missing_graph : Parameters :=
  (Use "graph" (REQUIRED_ARGUMENT + SINGLE_VALUE + REQUIRED_PARAMETER)%N ""
       "input graph" ti_string "app.cu" 12 (new_Parameters "test")).2.

(** C9, as stated, fails: the result of [Check_Required] is the same for
    a registry with a missing required parameter and for the empty
    registry, so nothing computed from the result is the set of missing
    names. *)
Lemma Check_Required_result_names_nothing :
  ¬ ∃ names_of : cudaError_t → gset string,
      ∀ P : Parameters, names_of (Check_Required P).1 = missing_required P.
Proof.
  intros [names_of H].
  pose proof (H registry_missing_graph) as H1.
  pose proof (H (new_Parameters "test")) as H2.
  simpl in H1, H2. rewrite H2 in H1.
  assert ("graph" ∈ missing_required registry_missing_graph) as Hin.
  { unfold missing_required. apply elem_of_dom.
    eexists. apply map_lookup_filter_Some. split; [reflexivity|].
    split; reflexivity. }
  rewrite <- H1 in Hin. unfold missing_required in Hin.
  apply elem_of_dom in Hin as [it Hit].
  apply map_lookup_filter_Some in Hit as [Hit _].
  simpl in Hit. by rewrite lookup_empty in Hit.
Qed.

End Registry.

(** ** Allocation failures and release *)

Section AllocateRelease.
Import Memory Csc.

Variables HAS_EDGE_VALUES HAS_NODE_VALUES : bool.

(** A state of the build: the graph and the memory. *)
Definition build_state : Type := CscT * Memory.

(** The sub-steps of [Csc::Allocate], in the order of the source. *)
Definition Allocate_steps (n e : Z)
  : list (build_state → cudaError_t * build_state) :=
  [ (λ s, let '(retval, g, m) := BaseGraph_Allocate n e s.1 s.2 in
          (retval, (g, m)));
    (λ s, let '(retval, a, m) :=
            Memory.Allocate 0 (Types.int_add n 1) (column_offsets s.1) s.2 in
          (retval, (set_column_offsets a s.1, m)));
    (λ s, let '(retval, a, m) := Memory.Allocate 0 e (row_indices s.1) s.2 in
          (retval, (set_row_indices a s.1, m)));
    (λ s, let '(retval, a, m) :=
            unless_null HAS_NODE_VALUES (Memory.Allocate 0 n)
                        (node_values s.1) s.2 in
          (retval, (set_node_values a s.1, m)));
    (λ s, let '(retval, a, m) :=
            unless_null HAS_EDGE_VALUES (Memory.Allocate 0 e)
                        (edge_values s.1) s.2 in
          (retval, (set_edge_values a s.1, m))) ].

(** All of [steps] succeed from [s], one after the other, and reach the
    state returned; [None] as soon as one fails. *)
Fixpoint all_succeed {S} (steps : list (S → cudaError_t * S)) (s : S)
  : option S :=
  match steps with
  | [] => Some s
  | f :: rest =>
      let '(retval, s') := f s in
      if is_error retval then None else all_succeed rest s'
  end.

(** The status and the state [steps] end with when each is run only if
    all before it succeeded. *)
Fixpoint until_error {S} (steps : list (S → cudaError_t * S)) (s : S)
  : cudaError_t * S :=
  match steps with
  | [] => (cudaSuccess, s)
  | f :: rest =>
      let '(retval, s') := f s in
      if is_error retval then (retval, s') else until_error rest s'
  end.

Lemma until_error_first {S} (steps : list (S → cudaError_t * S)) s k f s_k
    retval s_fail :
  steps !! k = Some f →
  all_succeed (take k steps) s = Some s_k →
  f s_k = (retval, s_fail) →
  is_error retval = true →
  until_error steps s = (retval, s_fail).
Proof.
  revert s k. induction steps as [|g steps IH]; intros s [|k] Hk Hpre Hf Herr;
    simplify_eq/=.
  - by rewrite Hf, Herr.
  - destruct (g s) as [r s1]. destruct (is_error r); [done|]. by eapply IH.
Qed.

Lemma until_error_none {S} (steps : list (S → cudaError_t * S)) s s' :
  all_succeed steps s = Some s' → until_error steps s = (cudaSuccess, s').
Proof.
  revert s. induction steps as [|g steps IH]; intros s Hall; simplify_eq/=.
  - done.
  - destruct (g s) as [r s1]. destruct (is_error r); [done|]. by apply IH.
Qed.

Lemma is_error_false retval : is_error retval = false → retval = cudaSuccess.
Proof. by destruct retval. Qed.

Lemma Allocate_until_error n e g m :
  Allocate HAS_EDGE_VALUES HAS_NODE_VALUES n e g m
  = ((until_error (Allocate_steps n e) (g, m)).1,
     (until_error (Allocate_steps n e) (g, m)).2.1,
     (until_error (Allocate_steps n e) (g, m)).2.2).
Proof.
  unfold Allocate, Allocate_steps, until_error. cbn [fst snd].
  destruct (BaseGraph_Allocate n e g m) as [[r1 g1] m1].
  destruct (is_error r1) eqn:E1; [done|]. cbn [fst snd].
  destruct (Memory.Allocate 0 (Types.int_add n 1) (column_offsets g1) m1)
    as [[r2 a2] m2].
  destruct (is_error r2) eqn:E2; [done|]. cbn [fst snd].
  destruct (Memory.Allocate 0 e (row_indices (set_column_offsets a2 g1)) m2)
    as [[r3 a3] m3].
  destruct (is_error r3) eqn:E3; [done|]. cbn [fst snd].
  destruct (unless_null HAS_NODE_VALUES (Memory.Allocate 0 n) _ m3)
    as [[r4 a4] m4].
  destruct (is_error r4) eqn:E4; [done|]. cbn [fst snd].
  destruct (unless_null HAS_EDGE_VALUES (Memory.Allocate 0 e) _ m4)
    as [[r5 a5] m5].
  destruct (is_error r5) eqn:E5; [done|]. cbn [fst snd].
  by rewrite (is_error_false _ E5).
Qed.

(** The block an array holds, as a set. *)
Definition block_of {T} (a : Array1D T) : gset nat :=
  match pointer a with Some b => {[b]} | None => ∅ end.

(** An array without a block is the released array. *)
Definition tidy {T} (a : Array1D T) : Prop := pointer a = None → a = released.

Lemma tidy_released {T} : tidy (@released T).
Proof. done. Qed.

Lemma Array_Release_owned {T} (a : Array1D T) m :
  block_of a ⊆ live m → tidy a →
  ∃ m', Memory.Release a m = (cudaSuccess, released, m')
        ∧ live m' = live m ∖ block_of a
        ∧ outcomes m' = outcomes m.
Proof.
  unfold Memory.Release, block_of, tidy. intros Hsub Htidy.
  destruct (pointer a) as [b|] eqn:Hp.
  - rewrite bool_decide_eq_true_2 by set_solver. by eexists.
  - rewrite (Htidy eq_refl). exists m. split_and!; [done | set_solver | done].
Qed.

Lemma Array_Allocate_owned {T} (dflt : T) size a m retval a' m' :
  block_of a ⊆ live m → tidy a →
  Memory.Allocate dflt size a m = (retval, a', m') →
  tidy a' ∧ block_of a' ⊆ live m'
  ∧ live m' ∖ block_of a' = live m ∖ block_of a.
Proof.
  intros Hsub Htidy. unfold Memory.Allocate.
  destruct (bool_decide_reflect (size < 0)).
  { intros [= <- <- <-]. done. }
  destruct (Array_Release_owned a m Hsub Htidy) as (m1 & -> & Hlive1 & Hout1).
  simpl. unfold next_outcome.
  destruct (outcomes m1) as [|r rest] eqn:Hout; simpl.
  - intros [= <- <- <-]. unfold tidy, block_of. simpl.
    pose proof (is_fresh (live m1)). split_and!; [done | set_solver | set_solver].
  - destruct (is_error r) eqn:Hr.
    + intros [= <- <- <-]. unfold tidy, block_of. simpl.
      split_and!; [done | set_solver | set_solver].
    + intros [= <- <- <-]. unfold tidy, block_of. simpl.
      pose proof (is_fresh (live m1)).
      split_and!; [done | set_solver | set_solver].
Qed.

(** Set goals over blocks, settled element by element with a case
    distinction on the two sets named. *)
Ltac pointwise S1 S2 :=
  set_unfold; intros;
  repeat match goal with H : _ ∧ _ |- _ => destruct H end;
  split_and?;
  let x := fresh "x" in
  intros x;
  repeat match goal with H : ∀ _ : nat, _ |- _ => specialize (H x) end;
  destruct (decide (x ∈ S1)); destruct (decide (x ∈ S2));
  tauto.

(** The reserved memory [L] splits into the blocks of the four arrays and
    what was reserved before the build. *)
Definition split5 (L A R N E B : gset nat) : Prop :=
  L = A ∪ R ∪ N ∪ E ∪ B
  ∧ A ## R ∪ N ∪ E ∪ B ∧ R ## N ∪ E ∪ B ∧ N ## E ∪ B ∧ E ## B.

Lemma split5_1 L A R N E B L' A' :
  split5 L A R N E B → A' ⊆ L' → L' ∖ A' = L ∖ A → split5 L' A' R N E B.
Proof. unfold split5. pointwise A A'. Qed.
Lemma split5_2 L A R N E B L' R' :
  split5 L A R N E B → R' ⊆ L' → L' ∖ R' = L ∖ R → split5 L' A R' N E B.
Proof. unfold split5. pointwise R R'. Qed.
Lemma split5_3 L A R N E B L' N' :
  split5 L A R N E B → N' ⊆ L' → L' ∖ N' = L ∖ N → split5 L' A R N' E B.
Proof. unfold split5. pointwise N N'. Qed.
Lemma split5_4 L A R N E B L' E' :
  split5 L A R N E B → E' ⊆ L' → L' ∖ E' = L ∖ E → split5 L' A R N E' B.
Proof. unfold split5. pointwise E E'. Qed.

Lemma split5_subseteq L A R N E B :
  split5 L A R N E B → A ⊆ L ∧ R ⊆ L ∧ N ⊆ L ∧ E ⊆ L.
Proof. unfold split5. intros (-> & _). set_solver. Qed.

Lemma split5_empty L B : split5 L ∅ ∅ ∅ ∅ B → L = B.
Proof. unfold split5. intros (-> & _). set_solver. Qed.

(** The graph owns its blocks: the memory reserved is what was reserved
    before the build, [before], and one block for each allocated array,
    all different; an array without its flag stays released. *)
Record owned (before : gset nat) (s : build_state) : Prop := mkOwned {
  own_split :
    split5 (live s.2)
           (block_of (column_offsets s.1)) (block_of (row_indices s.1))
           (block_of (node_values s.1)) (block_of (edge_values s.1)) before;
  own_tidy :
    tidy (column_offsets s.1) ∧ tidy (row_indices s.1)
    ∧ tidy (node_values s.1) ∧ tidy (edge_values s.1);
  own_null_node : HAS_NODE_VALUES = false → node_values s.1 = released;
  own_null_edge : HAS_EDGE_VALUES = false → edge_values s.1 = released
}.

Lemma owned_constructed g m : constructed g → owned (live m) (g, m).
Proof.
  intros (Hr & Hc & He & Hn). split; simpl; rewrite ?Hr, ?Hc, ?He, ?Hn;
    try done.
  unfold split5, block_of. simpl. set_solver.
Qed.

Lemma owned_memory before g m m' :
  owned before (g, m) → live m' = live m → owned before (g, m').
Proof. intros [] Hl. split; simpl in *; try done. by rewrite Hl. Qed.

Lemma owned_set_counts before n e g m :
  owned before (g, m) → owned before (set_counts n e g, m).
Proof. intros []. by split. Qed.

Lemma owned_set_directed before b g m :
  owned before (g, m) → owned before (set_directed b g, m).
Proof. intros []. by split. Qed.

Lemma owned_set_column_offsets before g m a m' :
  owned before (g, m) →
  tidy a → block_of a ⊆ live m' →
  live m' ∖ block_of a = live m ∖ block_of (column_offsets g) →
  owned before (set_column_offsets a g, m').
Proof.
  intros [Hs (?&?&?&?) ? ?] Ht Hsub Hframe. simpl in *.
  split; simpl; try done. by eapply split5_1.
Qed.

Lemma owned_set_row_indices before g m a m' :
  owned before (g, m) →
  tidy a → block_of a ⊆ live m' →
  live m' ∖ block_of a = live m ∖ block_of (row_indices g) →
  owned before (set_row_indices a g, m').
Proof.
  intros [Hs (?&?&?&?) ? ?] Ht Hsub Hframe. simpl in *.
  split; simpl; try done. by eapply split5_2.
Qed.

Lemma owned_set_node_values before g m a m' :
  owned before (g, m) →
  tidy a → block_of a ⊆ live m' →
  live m' ∖ block_of a = live m ∖ block_of (node_values g) →
  (HAS_NODE_VALUES = false → a = released) →
  owned before (set_node_values a g, m').
Proof.
  intros [Hs (?&?&?&?) ? ?] Ht Hsub Hframe Hnull. simpl in *.
  split; simpl; try done. by eapply split5_3.
Qed.

Lemma owned_set_edge_values before g m a m' :
  owned before (g, m) →
  tidy a → block_of a ⊆ live m' →
  live m' ∖ block_of a = live m ∖ block_of (edge_values g) →
  (HAS_EDGE_VALUES = false → a = released) →
  owned before (set_edge_values a g, m').
Proof.
  intros [Hs (?&?&?&?) ? ?] Ht Hsub Hframe Hnull. simpl in *.
  split; simpl; try done. by eapply split5_4.
Qed.

Lemma next_outcome_live m retval m' :
  next_outcome m = (retval, m') → live m' = live m.
Proof.
  unfold next_outcome. destruct (outcomes m); by intros [= <- <-].
Qed.

(** What an array operation that keeps to its own block does to a graph
    that owns its blocks. *)
Definition keeps_block {T} (a : Array1D T) (m : Memory) (a' : Array1D T)
    (m' : Memory) : Prop :=
  tidy a' ∧ block_of a' ⊆ live m' ∧ live m' ∖ block_of a' = live m ∖ block_of a.

Lemma keeps_block_refl {T} (a : Array1D T) m :
  tidy a → block_of a ⊆ live m → keeps_block a m a m.
Proof. intros ??. unfold keeps_block. by split_and!. Qed.

Lemma unless_null_keeps_block {T} has
    (op : Array1D T → Memory → cudaError_t * Array1D T * Memory)
    a m retval a' m' :
  tidy a → block_of a ⊆ live m →
  (has = false → a = released) →
  (∀ retval a' m', op a m = (retval, a', m') → keeps_block a m a' m') →
  unless_null has op a m = (retval, a', m') →
  keeps_block a m a' m' ∧ (has = false → a' = released).
Proof.
  intros Ht Hsub Hnull Hop. unfold unless_null. destruct has.
  - intros H. split; [by eapply Hop | done].
  - intros [= <- <- <-]. split; [by apply keeps_block_refl | done].
Qed.

Lemma until_error_invariant {S} (P : S → Prop)
    (steps : list (S → cudaError_t * S)) s :
  Forall (λ f, ∀ s retval s', P s → f s = (retval, s') → P s') steps →
  P s → P (until_error steps s).2.
Proof.
  intros Hsteps. revert s. induction Hsteps as [|f steps Hf _ IH]; intros s Hs.
  - done.
  - simpl. destruct (f s) as [r s1] eqn:Hfs. specialize (Hf _ _ _ Hs Hfs).
    destruct (is_error r); [done|]. by apply IH.
Qed.

Lemma owned_Allocate before n e g m retval g' m' :
  owned before (g, m) →
  Allocate HAS_EDGE_VALUES HAS_NODE_VALUES n e g m = (retval, g', m') →
  owned before (g', m').
Proof.
  intros Hown. rewrite Allocate_until_error.
  assert (owned before (until_error (Allocate_steps n e) (g, m)).2) as Hfinal;
    [|destruct (until_error _ _) as [r [g1 m1]]; by intros [= _ <- <-]].
  apply until_error_invariant; [|done]. clear.
  repeat apply Forall_cons_2; [..|apply Forall_nil_2];
    intros [g m] retval [g' m'] Hown; cbn [fst snd];
    pose proof Hown as [Hs (?&?&?&?) ? ?]; cbn [fst snd] in *;
    pose proof (split5_subseteq _ _ _ _ _ _ Hs) as (?&?&?&?).
  - unfold BaseGraph_Allocate.
    destruct (next_outcome m) as [r0 m0] eqn:Hnext.
    apply next_outcome_live in Hnext.
    destruct (is_error r0); intros [= <- <- <-].
    + by eapply owned_memory.
    + by eapply owned_set_counts, owned_memory.
  - destruct (Memory.Allocate _ _ _ _) as [[r a] m1] eqn:Hop.
    intros [= <- <- <-].
    apply Array_Allocate_owned in Hop as (?&?&?); [|done..].
    by eapply owned_set_column_offsets.
  - destruct (Memory.Allocate _ _ _ _) as [[r a] m1] eqn:Hop.
    intros [= <- <- <-].
    apply Array_Allocate_owned in Hop as (?&?&?); [|done..].
    by eapply owned_set_row_indices.
  - destruct (unless_null _ _ _ _) as [[r a] m1] eqn:Hop.
    intros [= <- <- <-].
    eapply unless_null_keeps_block in Hop as [(?&?&?) ?]; try done.
    + by eapply owned_set_node_values.
    + intros ???. by apply Array_Allocate_owned.
  - destruct (unless_null _ _ _ _) as [[r a] m1] eqn:Hop.
    intros [= <- <- <-].
    eapply unless_null_keeps_block in Hop as [(?&?&?) ?]; try done.
    + by eapply owned_set_edge_values.
    + intros ???. by apply Array_Allocate_owned.
Qed.

Lemma Array_Release_keeps_block {T} (a : Array1D T) m retval a' m' :
  tidy a → block_of a ⊆ live m →
  Memory.Release a m = (retval, a', m') →
  retval = cudaSuccess ∧ a' = released ∧ outcomes m' = outcomes m
  ∧ keeps_block a m a' m'.
Proof.
  intros Ht Hsub H.
  destruct (Array_Release_owned a m Hsub Ht) as (m1 & Hr & Hl & Ho).
  rewrite Hr in H. injection H as <- <- <-. split_and!; [done..|].
  unfold keeps_block, block_of. simpl. split_and!; [done | set_solver |].
  rewrite Hl. set_solver.
Qed.

(** [Release] on a graph that owns its blocks succeeds, leaves the graph
    as constructed, and gives back exactly the blocks of the graph. *)
Lemma owned_Release before g m :
  owned before (g, m) →
  ∃ g' m',
    Release HAS_EDGE_VALUES HAS_NODE_VALUES g m = (cudaSuccess, g', m')
    ∧ constructed g' ∧ live m' = before ∧ outcomes m' = outcomes m.
Proof.
  intros Hown. unfold Release, BaseGraph_Release.
  destruct (Memory.Release (column_offsets g) m) as [[r1 a1] m1] eqn:H1.
  cbv beta iota zeta.
  assert (r1 = cudaSuccess ∧ a1 = released ∧ outcomes m1 = outcomes m
          ∧ owned before (set_column_offsets a1 g, m1)) as (-> & -> & Ho1 & Hown1).
  { pose proof Hown as [Hs (?&?&?&?) ? ?]. cbn [fst snd] in *.
    pose proof (split5_subseteq _ _ _ _ _ _ Hs) as (?&?&?&?).
    apply Array_Release_keeps_block in H1 as (?&?&?&?&?&?); try done.
    split_and!; try done. by eapply owned_set_column_offsets. }
  clear Hown H1. cbn [is_error].
  set (g1 := set_column_offsets released g) in *.
  destruct (Memory.Release (row_indices g1) m1) as [[r2 a2] m2] eqn:H2.
  assert (r2 = cudaSuccess ∧ a2 = released ∧ outcomes m2 = outcomes m1
          ∧ owned before (set_row_indices a2 g1, m2))
    as (-> & -> & Ho2 & Hown2).
  { pose proof Hown1 as [Hs (?&?&?&?) ? ?]. cbn [fst snd] in *.
    pose proof (split5_subseteq _ _ _ _ _ _ Hs) as (?&?&?&?).
    apply Array_Release_keeps_block in H2 as (?&?&?&?&?&?); try done.
    split_and!; try done. by eapply owned_set_row_indices. }
  clear Hown1 H2. cbn [is_error].
  set (g2 := set_row_indices released g1) in *.
  destruct (unless_null HAS_NODE_VALUES Memory.Release (node_values g2) m2)
    as [[r3 a3] m3] eqn:H3.
  assert (r3 = cudaSuccess ∧ a3 = released ∧ outcomes m3 = outcomes m2
          ∧ owned before (set_node_values a3 g2, m3)) as (-> & -> & Ho3 & Hown3).
  { pose proof Hown2 as [Hs (?&?&?&?) Hnn ?]. cbn [fst snd] in *.
    pose proof (split5_subseteq _ _ _ _ _ _ Hs) as (?&?&?&?).
    unfold unless_null in H3. destruct HAS_NODE_VALUES.
    - apply Array_Release_keeps_block in H3 as (?&?&?&?&?&?); try done.
      split_and!; try done. by eapply owned_set_node_values.
    - injection H3 as <- <- <-. split_and!; [done | by apply Hnn | done |].
      eapply owned_set_node_values;
        [exact Hown2 | exact H1 | exact H6 | reflexivity
        | intros _; exact (Hnn eq_refl)]. }
  clear Hown2 H3. cbn [is_error].
  set (g3 := set_node_values released g2) in *.
  destruct (unless_null HAS_EDGE_VALUES Memory.Release (edge_values g3) m3)
    as [[r4 a4] m4] eqn:H4.
  assert (r4 = cudaSuccess ∧ a4 = released ∧ outcomes m4 = outcomes m3
          ∧ owned before (set_edge_values a4 g3, m4)) as (-> & -> & Ho4 & Hown4).
  { pose proof Hown3 as [Hs (?&?&?&?) ? Hne]. cbn [fst snd] in *.
    pose proof (split5_subseteq _ _ _ _ _ _ Hs) as (?&?&?&?).
    unfold unless_null in H4. destruct HAS_EDGE_VALUES.
    - apply Array_Release_keeps_block in H4 as (?&?&?&?&?&?); try done.
      split_and!; try done. by eapply owned_set_edge_values.
    - injection H4 as <- <- <-. split_and!; [done | by apply Hne | done |].
      eapply owned_set_edge_values;
        [exact Hown3 | exact H2 | exact H7 | reflexivity
        | intros _; exact (Hne eq_refl)]. }
  clear Hown3 H4. cbn [is_error].
  eexists _, _. split; [done|]. split_and!.
  - done.
  - destruct Hown4 as [Hs _ _ _]. cbn in Hs. unfold block_of in Hs.
    cbn in Hs. by apply split5_empty.
  - congruence.
Qed.

(** A state of [FromCoo]: the graph, the source and the memory. *)
Definition convert_state : Type := CscT * Coo.CooT * Memory.

(** The steps of [Csc::FromCoo] after the counts are copied, in the order
    of the source. *)
Definition FromCoo_steps : list (convert_state → cudaError_t * convert_state) :=
  [ (λ s, let '(retval, g, m) :=
            Allocate HAS_EDGE_VALUES HAS_NODE_VALUES
                     (Coo.nodes s.1.2) (Coo.edges s.1.2) s.1.1 s.2 in
          (retval, (g, s.1.2, m)));
    (λ s, let '(retval, source, m) :=
            Coo.Order HAS_EDGE_VALUES Coo.BY_COLUMN_ASCENDING s.1.2 s.2 in
          (retval, (s.1.1, source, m)));
    (λ s, let '(retval, a, m) :=
            ForEach (λ _ edge_pair, Coo.x edge_pair) (edges s.1.1)
                    (Coo.edge_pairs s.1.2) (row_indices s.1.1) s.2 in
          (retval, (set_row_indices a s.1.1, s.1.2, m)));
    (λ s, let '(retval, a, m) :=
            unless_null HAS_EDGE_VALUES
              (ForEach (λ _ edge_value_in, edge_value_in) (edges s.1.1)
                       (Coo.edge_values s.1.2))
              (edge_values s.1.1) s.2 in
          (retval, (set_edge_values a s.1.1, s.1.2, m)));
    (λ s, let '(retval, a, m) :=
            ForAll (assign_column_offset (nodes s.1.1) (edges s.1.1))
                   (Types.int_add (nodes s.1.1) 1)
                   (Coo.edge_pairs s.1.2) (column_offsets s.1.1) s.2 in
          (retval, (set_column_offsets a s.1.1, s.1.2, m))) ].

(** The state [FromCoo] starts its steps from. *)
Definition FromCoo_start (source : Coo.CooT) (g : CscT) (m : Memory)
  : convert_state :=
  (set_directed (Coo.directed source)
     (set_counts (Coo.nodes source) (Coo.edges source) g), source, m).

Lemma FromCoo_until_error source g m :
  FromCoo HAS_EDGE_VALUES HAS_NODE_VALUES source g m
  = ((until_error FromCoo_steps (FromCoo_start source g m)).1,
     (until_error FromCoo_steps (FromCoo_start source g m)).2.1.1,
     (until_error FromCoo_steps (FromCoo_start source g m)).2.1.2,
     (until_error FromCoo_steps (FromCoo_start source g m)).2.2).
Proof.
  unfold FromCoo, FromCoo_steps, FromCoo_start, until_error. cbn [fst snd].
  destruct (Allocate _ _ _ _ _ m) as [[r1 g1] m1].
  destruct (is_error r1) eqn:E1; [done|]. cbn [fst snd].
  destruct (Coo.Order _ _ source m1) as [[r2 source2] m2].
  destruct (is_error r2) eqn:E2; [done|]. cbn [fst snd].
  destruct (ForEach _ _ _ (row_indices g1) m2) as [[r3 a3] m3].
  destruct (is_error r3) eqn:E3; [done|]. cbn [fst snd].
  destruct (unless_null HAS_EDGE_VALUES _ _ m3) as [[r4 a4] m4].
  destruct (is_error r4) eqn:E4; [done|]. cbn [fst snd].
  destruct (ForAll _ _ _ _ m4) as [[r5 a5] m5].
  destruct (is_error r5) eqn:E5; [done|]. cbn [fst snd].
  by rewrite (is_error_false _ E5).
Qed.

Lemma until_error_success {S} (steps : list (S → cudaError_t * S)) s s' :
  until_error steps s = (cudaSuccess, s') → all_succeed steps s = Some s'.
Proof.
  revert s. induction steps as [|f steps IH]; intros s; simpl.
  - by intros [= <-].
  - destruct (f s) as [r s1]. destruct (is_error r) eqn:Hr.
    + intros [= -> <-]. discriminate Hr.
    + apply IH.
Qed.

Lemma ForEach_keeps_block {T U} (op : T → U → T) len other (a : Array1D T) m
    retval a' m' :
  tidy a → block_of a ⊆ live m →
  ForEach op len other a m = (retval, a', m') →
  keeps_block a m a' m'.
Proof.
  intros Ht Hsub. unfold ForEach.
  destruct (bool_decide_reflect
              (len < 0 ∨ Z.of_nat (length (data a)) < len
               ∨ Z.of_nat (length other) < len)) as [|Hlen].
  { intros [= <- <- <-]. by apply keeps_block_refl. }
  destruct (next_outcome m) as [r m1] eqn:Hnext.
  apply next_outcome_live in Hnext.
  destruct (is_error r); intros [= <- <- <-].
  - unfold keeps_block. rewrite Hnext. by split_and!.
  - unfold keeps_block, block_of, tidy in *. simpl. rewrite Hnext.
    split_and!; [|done..]. intros Hp. specialize (Ht Hp). rewrite Ht in *.
    simpl in *. assert (len = 0) as -> by lia. done.
Qed.

Lemma ForAll_keeps_block {T U} (op : list T → list U → Z → list T) len other
    (a : Array1D T) m retval a' m' :
  tidy a → block_of a ⊆ live m →
  ForAll op len other a m = (retval, a', m') →
  keeps_block a m a' m'.
Proof.
  intros Ht Hsub. unfold ForAll.
  destruct (bool_decide_reflect
              (len < 0 ∨ Z.of_nat (length (data a)) < len)) as [|Hlen].
  { intros [= <- <- <-]. by apply keeps_block_refl. }
  destruct (next_outcome m) as [r m1] eqn:Hnext.
  apply next_outcome_live in Hnext.
  destruct (is_error r); intros [= <- <- <-].
  - unfold keeps_block. rewrite Hnext. by split_and!.
  - unfold keeps_block, block_of, tidy in *. simpl. rewrite Hnext.
    split_and!; [|done..]. intros Hp. specialize (Ht Hp). rewrite Ht in *.
    simpl in *. assert (len = 0) as -> by lia. done.
Qed.

Lemma Order_live order source m retval source' m' :
  Coo.Order HAS_EDGE_VALUES order source m = (retval, source', m') →
  live m' = live m.
Proof.
  unfold Coo.Order. destruct (next_outcome m) as [r m1] eqn:Hnext.
  apply next_outcome_live in Hnext.
  destruct (is_error r); [by intros [= <- <- <-]|].
  destruct HAS_EDGE_VALUES; by intros [= <- <- <-].
Qed.

Lemma owned_FromCoo before source g m retval g' source' m' :
  owned before (g, m) →
  FromCoo HAS_EDGE_VALUES HAS_NODE_VALUES source g m = (retval, g', source', m') →
  owned before (g', m').
Proof.
  intros Hown. rewrite FromCoo_until_error.
  assert (let s := (until_error FromCoo_steps (FromCoo_start source g m)).2 in
          owned before (s.1.1, s.2)) as Hfinal;
    [|destruct (until_error _ _) as [r [[g1 s1] m1]]; by intros [= _ <- _ <-]].
  apply (until_error_invariant (λ s : convert_state, owned before (s.1.1, s.2))).
  2:{ unfold FromCoo_start. cbn [fst snd].
      by apply owned_set_directed, owned_set_counts. }
  clear.
  repeat apply Forall_cons_2; [..|apply Forall_nil_2];
    intros [[g source] m] retval [[g' source'] m'] Hown; cbn [fst snd] in *;
    pose proof Hown as [Hs (?&?&?&?) ? ?]; cbn [fst snd] in *;
    pose proof (split5_subseteq _ _ _ _ _ _ Hs) as (?&?&?&?).
  - destruct (Allocate _ _ _ _ _ _) as [[r g1] m1] eqn:Hop.
    intros [= <- <- <- <-]. by eapply owned_Allocate.
  - destruct (Coo.Order _ _ _ _) as [[r s1] m1] eqn:Hop.
    intros [= <- <- <- <-]. apply Order_live in Hop. by eapply owned_memory.
  - destruct (ForEach _ _ _ _ _) as [[r a] m1] eqn:Hop.
    intros [= <- <- <- <-].
    apply ForEach_keeps_block in Hop as (?&?&?); [|done..].
    by eapply owned_set_row_indices.
  - destruct (unless_null _ _ _ _) as [[r a] m1] eqn:Hop.
    intros [= <- <- <- <-].
    eapply unless_null_keeps_block in Hop as [(?&?&?) ?]; try done.
    + by eapply owned_set_edge_values.
    + intros ???. by apply ForEach_keeps_block.
  - destruct (ForAll _ _ _ _ _) as [[r a] m1] eqn:Hop.
    intros [= <- <- <- <-].
    apply ForAll_keeps_block in Hop as (?&?&?); [|done..].
    by eapply owned_set_column_offsets.
Qed.

Lemma FromCoo_Allocate_error source g m retval g1 m1 :
  Allocate HAS_EDGE_VALUES HAS_NODE_VALUES (Coo.nodes source) (Coo.edges source)
    (set_directed (Coo.directed source)
       (set_counts (Coo.nodes source) (Coo.edges source) g)) m
  = (retval, g1, m1) →
  is_error retval = true →
  FromCoo HAS_EDGE_VALUES HAS_NODE_VALUES source g m = (retval, g1, source, m1).
Proof. intros HA Herr. unfold FromCoo. by rewrite HA, Herr. Qed.

(** C7.  [Allocate] ends with the first of its sub-steps that fails: its
    status is that sub-step's, and the graph and the memory are as that
    sub-step left them, no later sub-step having run; [FromCoo] hands
    such an error on as it is, with nothing done after [Allocate].
    Whatever [Allocate] or [FromCoo] returned on a freshly constructed
    graph, [Release] then succeeds, leaves every array released, and the
    memory holds the blocks it held before the build: each block reserved
    on the way is freed once, and nothing else is. *)
Theorem Allocate_aborts_and_stays_releasable :
  ∀ (n e : Z) (source : Coo.CooT) (g : CscT) (m : Memory),
    (∀ k f s_k retval s_fail,
        Allocate_steps n e !! k = Some f →
        all_succeed (take k (Allocate_steps n e)) (g, m) = Some s_k →
        f s_k = (retval, s_fail) →
        is_error retval = true →
        Allocate HAS_EDGE_VALUES HAS_NODE_VALUES n e g m
        = (retval, s_fail.1, s_fail.2))
    ∧ (∀ retval g1 m1,
        Allocate HAS_EDGE_VALUES HAS_NODE_VALUES
          (Coo.nodes source) (Coo.edges source)
          (set_directed (Coo.directed source)
             (set_counts (Coo.nodes source) (Coo.edges source) g)) m
        = (retval, g1, m1) →
        is_error retval = true →
        FromCoo HAS_EDGE_VALUES HAS_NODE_VALUES source g m
        = (retval, g1, source, m1))
    ∧ (constructed g →
       ∀ retval g1 m1,
         Allocate HAS_EDGE_VALUES HAS_NODE_VALUES n e g m = (retval, g1, m1) →
         ∃ g2 m2,
           Release HAS_EDGE_VALUES HAS_NODE_VALUES g1 m1 = (cudaSuccess, g2, m2)
           ∧ constructed g2 ∧ live m2 = live m)
    ∧ (constructed g →
       ∀ retval g1 source1 m1,
         FromCoo HAS_EDGE_VALUES HAS_NODE_VALUES source g m
         = (retval, g1, source1, m1) →
         ∃ g2 m2,
           Release HAS_EDGE_VALUES HAS_NODE_VALUES g1 m1 = (cudaSuccess, g2, m2)
           ∧ constructed g2 ∧ live m2 = live m).
Proof.
  intros n e source g m. split_and!.
  - intros k f s_k retval s_fail Hk Hpre Hf Herr.
    rewrite Allocate_until_error.
    by rewrite (until_error_first _ _ _ _ _ _ _ Hk Hpre Hf Herr).
  - apply FromCoo_Allocate_error.
  - intros Hc retval g1 m1 HA.
    destruct (owned_Release (live m) g1 m1) as (g2 & m2 & HR & ? & ? & _).
    { eapply owned_Allocate; [|done]. by apply owned_constructed. }
    by exists g2, m2.
  - intros Hc retval g1 source1 m1 HF.
    destruct (owned_Release (live m) g1 m1) as (g2 & m2 & HR & ? & ? & _).
    { eapply owned_FromCoo; [|done]. by apply owned_constructed. }
    by exists g2, m2.
Qed.

End AllocateRelease.

(** A build of a graph of four vertices and five edges in which the third
    reservation, that of [row_indices], fails. *)
Definition new_Csc : Csc.CscT :=
  Csc.mkCsc 0 0 false Memory.released Memory.released Memory.released
            Memory.released.
Definition memory_failing_third : Memory.Memory :=
  Memory.mkMemory [cudaSuccess; cudaSuccess; cudaErrorMemoryAllocation] ∅.

Lemma Allocate_aborts_and_stays_releasable_witness :
  (Csc.Allocate true true 4 5 new_Csc memory_failing_third).1.1
  = cudaErrorMemoryAllocation
  ∧ ∃ g2 m2,
      Csc.Release true true
        (Csc.Allocate true true 4 5 new_Csc memory_failing_third).1.2
        (Csc.Allocate true true 4 5 new_Csc memory_failing_third).2
      = (cudaSuccess, g2, m2)
      ∧ Csc.constructed g2 ∧ Memory.live m2 = ∅.
Proof.
  pose proof (Allocate_aborts_and_stays_releasable true true 4 5
                (Coo.mkCoo 4 5 true Coo.UNORDERED [] []) new_Csc
                memory_failing_third) as (H1 & _ & H3 & _).
  split.
  - erewrite (H1 2%nat); [reflexivity | reflexivity | reflexivity
                          | reflexivity | reflexivity].
  - apply (H3 ltac:(by split_and!) cudaErrorMemoryAllocation).
    by destruct (Csc.Allocate true true 4 5 new_Csc memory_failing_third)
      as [[??]?] eqn:E; vm_compute in E; injection E as <- <- <-.
Defined.

(** ** Offsets and the round trip of the conversion *)

#[global] Instance key_le_trans {E} (key : E → Z) : Transitive (Coo.key_le key).
Proof. unfold Coo.key_le. intros a b c. lia. Qed.
#[global] Instance key_le_total {E} (key : E → Z) : Total (Coo.key_le key).
Proof. unfold Coo.key_le. intros a b. lia. Qed.

Section Offsets.
Import Memory.

Context {E : Type} (key : E → Z).

(** The number of elements whose key is below [k]. *)
Definition count_below (k : Z) (l : list E) : nat :=
  length (filter (λ e, key e < k) l).

(** The number of elements whose key is [k]. *)
Definition count_at (k : Z) (l : list E) : nat :=
  length (filter (λ e, key e = k) l).

Lemma count_below_le_length k l : (count_below k l ≤ length l)%nat.
Proof. apply length_filter. Qed.

Lemma count_below_Permutation k l1 l2 :
  l1 ≡ₚ l2 → count_below k l1 = count_below k l2.
Proof. intros H. unfold count_below. by rewrite H. Qed.

Lemma count_at_Permutation k l1 l2 :
  l1 ≡ₚ l2 → count_at k l1 = count_at k l2.
Proof. intros H. unfold count_at. by rewrite H. Qed.

Lemma count_below_succ k l :
  count_below (k + 1) l = (count_below k l + count_at k l)%nat.
Proof.
  unfold count_below, count_at. induction l as [|a l IH]; [done|].
  rewrite !filter_cons.
  destruct (decide (key a < k + 1)), (decide (key a < k)), (decide (key a = k));
    simpl; lia.
Qed.

Lemma count_below_all k l :
  Forall (λ e, key e < k) l → count_below k l = length l.
Proof.
  unfold count_below. induction 1 as [|a l Ha _ IH]; [done|].
  rewrite filter_cons_True by done. simpl. by rewrite IH.
Qed.

Lemma count_below_none k l :
  Forall (λ e, k ≤ key e) l → count_below k l = 0%nat.
Proof.
  unfold count_below. induction 1 as [|a l Ha _ IH]; [done|].
  rewrite filter_cons_False by lia. done.
Qed.

Lemma count_at_none k l :
  Forall (λ e, key e ≠ k) l → count_at k l = 0%nat.
Proof.
  unfold count_at. induction 1 as [|a l Ha _ IH]; [done|].
  by rewrite filter_cons_False.
Qed.

(** In a list sorted by key, the elements below [k] are those at the
    positions before [count_below k]. *)
Lemma sorted_below_iff k l i e :
  StronglySorted (Coo.key_le key) l →
  l !! i = Some e →
  (key e < k ↔ (i < count_below k l)%nat).
Proof.
  intros Hs. revert i. induction Hs as [|a l Hs IH Hall]; intros i Hi; [done|].
  unfold count_below in *. rewrite filter_cons.
  destruct (decide (key a < k)) as [Ha|Ha]; simpl.
  - destruct i as [|i]; simplify_eq/=; [lia|].
    rewrite (IH _ Hi). lia.
  - assert (Forall (λ e, k ≤ key e) l) as Hge.
    { eapply Forall_impl; [done|]. unfold Coo.key_le. intros; simpl in *; lia. }
    pose proof (count_below_none k l Hge) as H0. unfold count_below in H0.
    rewrite H0.
    destruct i as [|i]; simplify_eq/=; [lia|].
    apply list_elem_of_lookup_2 in Hi.
    rewrite Forall_forall in Hge. specialize (Hge _ Hi). lia.
Qed.

(** The binary search finds that position. *)
Lemma BinarySearch_loop_sorted (comp : E → Z → bool) k l fuel left right :
  (∀ e, comp e k = bool_decide (key e < k)) →
  StronglySorted (Coo.key_le key) l →
  0 ≤ left ≤ Z.of_nat (count_below k l) →
  Z.of_nat (count_below k l) ≤ right ≤ Z.of_nat (length l) →
  right - left ≤ Z.of_nat fuel →
  BinarySearch_loop comp k l fuel left right = Z.of_nat (count_below k l).
Proof.
  intros Hcomp Hs. revert left right.
  induction fuel as [|fuel IH]; intros left right Hl Hr Hfuel; simpl.
  - lia.
  - destruct (bool_decide_reflect (left < right)) as [Hlt|]; [|lia].
    set (center := (left + right) `div` 2).
    assert (left ≤ center < right) as Hc.
    { unfold center. split.
      - apply Z.div_le_lower_bound; lia.
      - apply Z.div_lt_upper_bound; lia. }
    destruct (lookup_lt_is_Some_2 l (Z.to_nat center)) as [e He]; [lia|].
    rewrite He, Hcomp.
    pose proof (sorted_below_iff k l _ e Hs He) as Hiff.
    destruct (bool_decide_reflect (key e < k)) as [Hk|Hk].
    + apply IH; lia.
    + apply IH; lia.
Qed.

Lemma BinarySearch_sorted (comp : E → Z → bool) k l :
  (∀ e, comp e k = bool_decide (key e < k)) →
  StronglySorted (Coo.key_le key) l →
  BinarySearch k l 0 (Z.of_nat (length l)) comp = Z.of_nat (count_below k l).
Proof.
  intros Hcomp Hs. unfold BinarySearch.
  pose proof (count_below_le_length k l).
  apply BinarySearch_loop_sorted; try done; lia.
Qed.

End Offsets.

Section Loops.
Import Memory.

Lemma ForEach_loop_length {T U} (op : T → U → T) (other : list U) n d :
  length (foldl (λ arr i,
                   match arr !! i, other !! i with
                   | Some elem, Some elem_in => <[i := op elem elem_in]> arr
                   | _, _ => arr
                   end) d (seq 0 n)) = length d.
Proof.
  induction n as [|n IH]; [done|].
  rewrite seq_S, foldl_app. simpl.
  repeat case_match; by rewrite ?length_insert.
Qed.

Lemma ForEach_loop_lookup {T U} (op : T → U → T) (other : list U) n d j :
  (n ≤ length d)%nat → (n ≤ length other)%nat →
  foldl (λ arr i,
           match arr !! i, other !! i with
           | Some elem, Some elem_in => <[i := op elem elem_in]> arr
           | _, _ => arr
           end) d (seq 0 n) !! j
  = if decide (j < n)%nat
    then a ← d !! j; b ← other !! j; Some (op a b)
    else d !! j.
Proof.
  revert j. induction n as [|n IH]; intros j Hd Ho.
  - simpl. destruct (decide (j < 0)%nat); [lia|done].
  - rewrite seq_S, foldl_app. simpl.
    pose proof (ForEach_loop_length op other n d) as Hlen.
    pose proof (IH n ltac:(lia) ltac:(lia)) as Hn.
    rewrite decide_False in Hn by lia.
    specialize (IH j ltac:(lia) ltac:(lia)).
    revert Hlen Hn IH. generalize (foldl (λ arr i,
           match arr !! i, other !! i with
           | Some elem, Some elem_in => <[i := op elem elem_in]> arr
           | _, _ => arr
           end) d (seq 0 n)). intros arr Hlen Hn IH.
    destruct (lookup_lt_is_Some_2 d n) as [a Ha]; [lia|].
    destruct (lookup_lt_is_Some_2 other n) as [b Hb]; [lia|].
    rewrite Hn, Ha, Hb.
    destruct (decide (j = n)) as [->|Hne].
    + rewrite list_lookup_insert_eq by lia.
      rewrite decide_True by lia. by rewrite Ha, Hb.
    + rewrite list_lookup_insert_ne by done. rewrite IH.
      destruct (decide (j < n)%nat), (decide (j < S n)%nat); try done; lia.
Qed.

(** A successful [ForEach] whose operation only looks at the other
    array, over the whole of both arrays. *)
Lemma ForEach_success {T U} (f : U → T) len other (a : Array1D T) m a' m' :
  ForEach (λ _ u, f u) len other a m = (cudaSuccess, a', m') →
  len = Z.of_nat (length (data a)) →
  len = Z.of_nat (length other) →
  data a' = f <$> other ∧ pointer a' = pointer a ∧ live m' = live m.
Proof.
  unfold ForEach.
  destruct (bool_decide _); [intros H; discriminate H|].
  destruct (next_outcome m) as [r m1] eqn:Hnext.
  unfold next_outcome in Hnext.
  assert (live m1 = live m) as Hlive.
  { destruct (outcomes m); by injection Hnext as <- <-. }
  destruct (is_error r) eqn:Hr; [intros [= -> _ _]; discriminate Hr|].
  intros H Hd Ho. injection H as <- <-. simpl. split_and!; [|done..].
  apply list_eq. intros j.
  rewrite ForEach_loop_lookup by lia. rewrite list_lookup_fmap.
  destruct (decide (j < Z.to_nat len)%nat) as [Hj|Hj].
  - destruct (lookup_lt_is_Some_2 (data a) j) as [x ->]; [lia|].
    simpl. by destruct (other !! j).
  - rewrite !lookup_ge_None_2 by lia. done.
Qed.

(** A loop whose body assigns [v i] to position [i]. *)
Lemma assign_loop_length (body : list Z → Z → list Z) (v : Z → Z) len arr :
  (∀ arr i, body arr i = <[Z.to_nat i := v i]> arr) →
  length (foldl body arr (seqZ 0 len)) = length arr.
Proof.
  intros Hbody.
  destruct (decide (0 ≤ len)) as [Hlen|]; [|by rewrite seqZ_nil by lia].
  rewrite <- (Z2Nat.id len) by done. generalize (Z.to_nat len). clear Hlen.
  intros n. induction n as [|n IH]; [done|].
  rewrite seqZ_S, foldl_app. simpl. by rewrite Hbody, length_insert.
Qed.

Lemma assign_loop_lookup (body : list Z → Z → list Z) (v : Z → Z) len arr k :
  (∀ arr i, body arr i = <[Z.to_nat i := v i]> arr) →
  0 ≤ k < len → len ≤ Z.of_nat (length arr) →
  foldl body arr (seqZ 0 len) !! Z.to_nat k = Some (v k).
Proof.
  intros Hbody Hk Hlen. assert (0 ≤ len) as Hpos by lia. revert Hk Hlen.
  rewrite <- (Z2Nat.id len) by done. generalize (Z.to_nat len). clear Hpos.
  intros n. induction n as [|n IH]; intros Hk Hlen; [lia|].
  rewrite seqZ_S, foldl_app. simpl. rewrite Hbody.
  destruct (decide (k = Z.of_nat n)) as [->|Hne].
  - rewrite list_lookup_insert_eq; [done|].
    rewrite (assign_loop_length _ v) by done. lia.
  - rewrite list_lookup_insert_ne by lia. apply IH; lia.
Qed.

Lemma assign_column_offset_eq n e pairs arr column :
  Csc.assign_column_offset n e arr pairs column
  = <[Z.to_nat column :=
        if bool_decide (column < n)
        then BinarySearch column pairs 0 e Csc.column_edge_compare
        else e]> arr.
Proof. unfold Csc.assign_column_offset. by case_bool_decide. Qed.

Lemma ForAll_success n e len pairs (a : Array1D Z) m a' m' :
  ForAll (Csc.assign_column_offset n e) len pairs a m = (cudaSuccess, a', m') →
  length (data a') = length (data a)
  ∧ pointer a' = pointer a ∧ live m' = live m
  ∧ ∀ k, 0 ≤ k < len →
      data a' !! Z.to_nat k
      = Some (if bool_decide (k < n)
              then BinarySearch k pairs 0 e Csc.column_edge_compare
              else e).
Proof.
  unfold ForAll.
  destruct (bool_decide_reflect (len < 0 ∨ Z.of_nat (length (data a)) < len));
    [intros H; discriminate H|].
  destruct (next_outcome m) as [r m1] eqn:Hnext.
  unfold next_outcome in Hnext.
  assert (live m1 = live m) as Hlive.
  { destruct (outcomes m); by injection Hnext as <- <-. }
  destruct (is_error r) eqn:Hr; [intros [= -> _ _]; discriminate Hr|].
  intros H. injection H as <- <-. simpl.
  set (v := λ k, if bool_decide (k < n)
                 then BinarySearch k pairs 0 e Csc.column_edge_compare
                 else e).
  assert (∀ arr i, Csc.assign_column_offset n e arr pairs i
                   = <[Z.to_nat i := v i]> arr) as Hbody.
  { intros. apply assign_column_offset_eq. }
  split_and!; [by apply (assign_loop_length _ v) | done | done |].
  intros k Hk. rewrite (assign_loop_lookup _ v) by (done || lia). done.
Qed.

End Loops.

Lemma wrap32_id_add n :
  0 ≤ n < Types.INT_MAX → Types.int_add n 1 = n + 1.
Proof.
  intros Hn. unfold Types.int_add. apply wrap32_id.
  unfold Types.INT_MAX, Types.INT_MIN in *. lia.
Qed.

Section Conversion.
Import Memory.

Variables HAS_EDGE_VALUES HAS_NODE_VALUES : bool.

Lemma Array_Allocate_success {T} (dflt : T) size a m a' m' :
  Memory.Allocate dflt size a m = (cudaSuccess, a', m') →
  0 ≤ size ∧ data a' = replicate (Z.to_nat size) dflt.
Proof.
  unfold Memory.Allocate.
  destruct (bool_decide_reflect (size < 0)); [intros H; discriminate H|].
  destruct (Memory.Release a m) as [[r1 a1] m1].
  destruct (is_error r1) eqn:Hr1; [intros [= -> _ _]; discriminate Hr1|].
  destruct (next_outcome m1) as [r2 m2].
  destruct (is_error r2) eqn:Hr2; [intros [= -> _ _]; discriminate Hr2|].
  intros [= <- <-]. simpl. split; [lia | done].
Qed.

Lemma all_succeed_cons {S} (f : S → cudaError_t * S) steps s s' :
  all_succeed (f :: steps) s = Some s' →
  ∃ s1, f s = (cudaSuccess, s1) ∧ all_succeed steps s1 = Some s'.
Proof.
  simpl. destruct (f s) as [r s1]. destruct (is_error r) eqn:Hr; [done|].
  intros H. exists s1. by rewrite (is_error_false _ Hr).
Qed.

Lemma Allocate_success n e g m g' m' :
  Csc.Allocate HAS_EDGE_VALUES HAS_NODE_VALUES n e g m = (cudaSuccess, g', m') →
  Csc.nodes g' = n ∧ Csc.edges g' = e ∧ Csc.directed g' = Csc.directed g
  ∧ 0 ≤ Types.int_add n 1 ∧ 0 ≤ e
  ∧ data (Csc.column_offsets g') = replicate (Z.to_nat (Types.int_add n 1)) 0
  ∧ data (Csc.row_indices g') = replicate (Z.to_nat e) 0
  ∧ (HAS_EDGE_VALUES = true →
     data (Csc.edge_values g') = replicate (Z.to_nat e) 0).
Proof.
  rewrite Allocate_until_error. intros H.
  assert (until_error (Allocate_steps HAS_EDGE_VALUES HAS_NODE_VALUES n e) (g, m)
          = (cudaSuccess, (g', m'))) as Hu.
  { destruct (until_error _ _) as [r [g1 m1]]. by injection H as -> -> ->. }
  clear H. apply until_error_success in Hu. unfold Allocate_steps in Hu.
  apply all_succeed_cons in Hu as ([g1 m1] & H1 & Hu).
  apply all_succeed_cons in Hu as ([g2 m2] & H2 & Hu).
  apply all_succeed_cons in Hu as ([g3 m3] & H3 & Hu).
  apply all_succeed_cons in Hu as ([g4 m4] & H4 & Hu).
  apply all_succeed_cons in Hu as ([g5 m5] & H5 & Hu).
  injection Hu as -> ->. cbn [fst snd] in *.
  unfold Csc.BaseGraph_Allocate in H1.
  destruct (next_outcome m) as [r0 m0].
  destruct (is_error r0) eqn:Hr0; [injection H1 as -> _ _; discriminate Hr0|].
  injection H1 as <- <-.
  destruct (Memory.Allocate 0 (Types.int_add n 1) _ _) as [[r a] mm] eqn:HA2.
  injection H2 as -> <- <-. apply Array_Allocate_success in HA2 as [? Hd2].
  destruct (Memory.Allocate 0 e _ _) as [[r a3] mm3] eqn:HA3.
  injection H3 as -> <- <-. apply Array_Allocate_success in HA3 as [? Hd3].
  destruct (Csc.unless_null HAS_NODE_VALUES _ _ _) as [[r a4] mm4] eqn:HA4.
  injection H4 as -> <- <-.
  destruct (Csc.unless_null HAS_EDGE_VALUES _ _ _) as [[r a5] mm5] eqn:HA5.
  injection H5 as -> <- <-.
  simpl. split_and!; try done.
  intros ->. unfold Csc.unless_null in HA5.
  by apply Array_Allocate_success in HA5 as [_ ?].
Qed.

Lemma StronglySorted_fmap_fst {A B} (key : A → Z) (s : list (A * B)) :
  StronglySorted (Coo.key_le (λ t, key t.1)) s →
  StronglySorted (Coo.key_le key) (s.*1).
Proof.
  induction 1 as [|t s Hs IH Hall]; simpl; constructor; [done|].
  rewrite Forall_fmap. eapply Forall_impl; [done|]. done.
Qed.

Lemma Order_success order source m source1 m1 :
  Coo.Order HAS_EDGE_VALUES order source m = (cudaSuccess, source1, m1) →
  (HAS_EDGE_VALUES = true →
   length (Coo.edge_values source) = length (Coo.edge_pairs source)) →
  Coo.nodes source1 = Coo.nodes source
  ∧ Coo.edges source1 = Coo.edges source
  ∧ Coo.edge_pairs source1 ≡ₚ Coo.edge_pairs source
  ∧ StronglySorted (Coo.key_le (Coo.order_key order)) (Coo.edge_pairs source1)
  ∧ Coo.tuples HAS_EDGE_VALUES source1 ≡ₚ Coo.tuples HAS_EDGE_VALUES source
  ∧ (HAS_EDGE_VALUES = true →
     length (Coo.edge_values source1) = length (Coo.edge_pairs source1)).
Proof.
  unfold Coo.Order, Coo.tuples.
  destruct (next_outcome m) as [r m0].
  destruct (is_error r) eqn:Hr; [intros [= -> _ _]; discriminate Hr|].
  destruct HAS_EDGE_VALUES; intros [= <- <-] Hlen; simpl.
  - specialize (Hlen eq_refl).
    set (R := Coo.key_le (λ t : Coo.EdgePairT * Z, Coo.order_key order t.1)).
    pose proof (merge_sort_Permutation R
                  (zip (Coo.edge_pairs source) (Coo.edge_values source))) as Hp.
    pose proof (StronglySorted_merge_sort R
                  (zip (Coo.edge_pairs source) (Coo.edge_values source))) as Hs.
    unfold R in Hs.
    split_and!; [done | done | | | |].
    + rewrite Hp. by rewrite fst_zip by lia.
    + by apply StronglySorted_fmap_fst.
    + rewrite zip_with_fst_snd, Hp. by rewrite <- zip_with_zip.
    + intros _. by rewrite !length_fmap.
  - split_and!; [done | done | | | | done].
    + apply merge_sort_Permutation.
    + apply StronglySorted_merge_sort; apply _.
    + by rewrite merge_sort_Permutation.
Qed.

(** What a successful [FromCoo] leaves, on a well-formed source. *)
Lemma FromCoo_success source g m g1 source1 m1 :
  Coo.well_formed HAS_EDGE_VALUES source →
  Csc.FromCoo HAS_EDGE_VALUES HAS_NODE_VALUES source g m
  = (cudaSuccess, g1, source1, m1) →
  Csc.nodes g1 = Coo.nodes source
  ∧ Csc.edges g1 = Coo.edges source
  ∧ Csc.directed g1 = Coo.directed source
  ∧ Coo.edge_pairs source1 ≡ₚ Coo.edge_pairs source
  ∧ StronglySorted (Coo.key_le Coo.y) (Coo.edge_pairs source1)
  ∧ Coo.tuples HAS_EDGE_VALUES source1 ≡ₚ Coo.tuples HAS_EDGE_VALUES source
  ∧ data (Csc.row_indices g1) = Coo.x <$> Coo.edge_pairs source1
  ∧ (HAS_EDGE_VALUES = true →
     data (Csc.edge_values g1) = Coo.edge_values source1
     ∧ length (Coo.edge_values source1) = length (Coo.edge_pairs source1))
  ∧ length (data (Csc.column_offsets g1)) = Z.to_nat (Coo.nodes source + 1)
  ∧ ∀ k, 0 ≤ k ≤ Coo.nodes source →
      data (Csc.column_offsets g1) !! Z.to_nat k
      = Some (Z.of_nat (count_below Coo.y k (Coo.edge_pairs source1))).
Proof.
  intros (Hn & He & Hv & Hrange). rewrite FromCoo_until_error. intros H.
  assert (until_error (FromCoo_steps HAS_EDGE_VALUES HAS_NODE_VALUES)
            (FromCoo_start source g m) = (cudaSuccess, (g1, source1, m1))) as Hu.
  { destruct (until_error _ _) as [r [[g2 s2] m2]]. by injection H as -> -> -> ->. }
  clear H. apply until_error_success in Hu. unfold FromCoo_steps in Hu.
  apply all_succeed_cons in Hu as ([[ga_ sa_] ma_] & H1 & Hu).
  apply all_succeed_cons in Hu as ([[gb_ sb_] mb_] & H2 & Hu).
  apply all_succeed_cons in Hu as ([[gc_ sc_] mc_] & H3 & Hu).
  apply all_succeed_cons in Hu as ([[gd_ sd_] md_] & H4 & Hu).
  apply all_succeed_cons in Hu as ([[ge_ se_] me_] & H5 & Hu).
  injection Hu as -> -> ->. unfold FromCoo_start in *. cbn [fst snd] in *.
  destruct (Csc.Allocate _ _ _ _ _ _) as [[r ga] ma] eqn:HA.
  injection H1 as -> <- <- <-.
  apply Allocate_success in HA
    as (Hnodes & Hedges & Hdir & Hn1 & He0 & Hoff & Hrow & Hval).
  destruct (Coo.Order _ _ _ _) as [[r sb] mb] eqn:HO.
  injection H2 as -> <- <- <-.
  apply Order_success in HO as (Hon & Hoe & Hperm & Hsorted & Htup & Hvlen);
    [|done].
  assert (length (Coo.edge_pairs sb) = length (Coo.edge_pairs source)) as Hplen.
  { by rewrite Hperm. }
  destruct (ForEach _ _ _ (Csc.row_indices _) _) as [[r a3] mc] eqn:HF.
  injection H3 as -> <- <- <-.
  apply ForEach_success in HF as (Hrow' & _ & _);
    [|rewrite Hrow, length_replicate; lia | lia].
  destruct (Csc.unless_null _ _ _ _) as [[r a4] md] eqn:HE.
  injection H4 as -> <- <- <-.
  destruct (ForAll _ _ _ _ _) as [[r a5] me] eqn:HC.
  injection H5 as -> <- <- <-. cbn [Csc.nodes Csc.edges Csc.directed
    Csc.row_indices Csc.column_offsets Csc.edge_values Csc.set_row_indices
    Csc.set_edge_values Csc.set_column_offsets] in *.
  apply ForAll_success in HC as (Hclen & _ & _ & Hcol).
  rewrite Hnodes, Hedges in *.
  rewrite wrap32_id_add in * by done.
  split_and!; try done.
  - intros ->. unfold Csc.unless_null in HE.
    apply ForEach_success in HE as (Hval' & _ & _).
    + rewrite Hval'. split; [by rewrite list_fmap_id | by apply Hvlen].
    + rewrite (Hval eq_refl), length_replicate. lia.
    + rewrite (Hvlen eq_refl). lia.
  - by rewrite Hclen, Hoff, length_replicate.
  - intros k Hk. rewrite Hcol by lia. f_equal.
    case_bool_decide as Hkn.
    + rewrite He, <- Hplen. apply BinarySearch_sorted; [done | done].
    + assert (k = Coo.nodes source) as -> by lia.
      rewrite count_below_all; [lia|].
      rewrite Hperm. eapply Forall_impl; [done|]. simpl. lia.
Qed.

Lemma read_lookup (a : Array1D Z) k v :
  data a !! Z.to_nat k = Some v → read a k = v.
Proof. unfold read. by intros ->. Qed.

(** The last offset.  The store of [edges] at [column == nodes] does not
    look at the edge list: it is there after every successful [FromCoo]
    on a graph with a vertex count that is not negative, whatever the
    edges are. *)
Lemma FromCoo_last_offset source g m g1 source1 m1 :
  0 ≤ Coo.nodes source ≤ Types.INT_MAX →
  Csc.FromCoo HAS_EDGE_VALUES HAS_NODE_VALUES source g m
  = (cudaSuccess, g1, source1, m1) →
  data (Csc.column_offsets g1) !! Z.to_nat (Coo.nodes source)
  = Some (Coo.edges source).
Proof.
  intros Hn. rewrite FromCoo_until_error. intros H.
  assert (until_error (FromCoo_steps HAS_EDGE_VALUES HAS_NODE_VALUES)
            (FromCoo_start source g m) = (cudaSuccess, (g1, source1, m1))) as Hu.
  { destruct (until_error _ _) as [r [[g2 s2] m2]]. by injection H as -> -> -> ->. }
  clear H. apply until_error_success in Hu. unfold FromCoo_steps in Hu.
  apply all_succeed_cons in Hu as ([[ga_ sa_] ma_] & H1 & Hu).
  apply all_succeed_cons in Hu as ([[gb_ sb_] mb_] & H2 & Hu).
  apply all_succeed_cons in Hu as ([[gc_ sc_] mc_] & H3 & Hu).
  apply all_succeed_cons in Hu as ([[gd_ sd_] md_] & H4 & Hu).
  apply all_succeed_cons in Hu as ([[ge_ se_] me_] & H5 & Hu).
  injection Hu as -> -> ->. unfold FromCoo_start in *. cbn [fst snd] in *.
  destruct (Csc.Allocate _ _ _ _ _ _) as [[r ga] ma] eqn:HA.
  injection H1 as -> <- <- <-.
  apply Allocate_success in HA
    as (Hnodes & Hedges & _ & Hn1 & _ & _ & _ & _).
  destruct (Coo.Order _ _ _ _) as [[r sb] mb] eqn:HO.
  injection H2 as -> <- <- <-.
  destruct (ForEach _ _ _ (Csc.row_indices _) _) as [[r a3] mc] eqn:HF.
  injection H3 as -> <- <- <-.
  destruct (Csc.unless_null _ _ _ _) as [[r a4] md] eqn:HE.
  injection H4 as -> <- <- <-.
  destruct (ForAll _ _ _ _ _) as [[r a5] me] eqn:HC.
  injection H5 as -> <- <- <-. cbn [Csc.nodes Csc.edges Csc.directed
    Csc.row_indices Csc.column_offsets Csc.edge_values Csc.set_row_indices
    Csc.set_edge_values Csc.set_column_offsets] in *.
  apply ForAll_success in HC as (_ & _ & _ & Hcol).
  rewrite Hnodes, Hedges in *.
  assert (Coo.nodes source < Types.INT_MAX) as Hlt.
  { destruct (decide (Coo.nodes source = Types.INT_MAX)) as [Heq|]; [|lia].
    rewrite Heq in Hn1. vm_compute in Hn1. by destruct Hn1. }
  rewrite wrap32_id_add in Hcol by lia.
  rewrite Hcol by lia. by rewrite bool_decide_eq_false_2 by lia.
Qed.

(** C2.  After a successful [FromCoo] on a COO graph with a vertex count
    that is not negative, [column_offsets[nodes]] is [edges], whatever
    the edge list holds: the loop stores it without a search.  On a
    well-formed graph, whose edge list [FromCoo] has ordered by
    destination: for every vertex [k], [column_offsets[k]] is the
    position of the first edge of the ordered list whose destination is
    at least [k] (all edges before it have a smaller destination, all
    from it on do not); the offsets never decrease, the difference of two
    neighbours is the in-degree of the vertex in the graph, and a vertex
    no edge leads to has an empty range. *)
Theorem FromCoo_column_offsets :
  ∀ (source : Coo.CooT) (g : Csc.CscT) (m : Memory)
    (g1 : Csc.CscT) (source1 : Coo.CooT) (m1 : Memory),
    0 ≤ Coo.nodes source ≤ Types.INT_MAX →
    Csc.FromCoo HAS_EDGE_VALUES HAS_NODE_VALUES source g m
    = (cudaSuccess, g1, source1, m1) →
    data (Csc.column_offsets g1) !! Z.to_nat (Coo.nodes source)
    = Some (Coo.edges source)
    ∧ (Coo.well_formed HAS_EDGE_VALUES source →
       Coo.edge_pairs source1 ≡ₚ Coo.edge_pairs source
       ∧ StronglySorted (Coo.key_le Coo.y) (Coo.edge_pairs source1)
       ∧ length (data (Csc.column_offsets g1)) = Z.to_nat (Coo.nodes source + 1)
       ∧ (∀ k, 0 ≤ k < Coo.nodes source →
            0 ≤ read (Csc.column_offsets g1) k ≤ Coo.edges source
            ∧ ∀ i ed, Coo.edge_pairs source1 !! i = Some ed →
                (Z.of_nat i < read (Csc.column_offsets g1) k ↔ Coo.y ed < k))
       ∧ read (Csc.column_offsets g1) (Coo.nodes source) = Coo.edges source
       ∧ (∀ k, 0 ≤ k < Coo.nodes source →
            read (Csc.column_offsets g1) k
            ≤ read (Csc.column_offsets g1) (k + 1))
       ∧ (∀ k, 0 ≤ k < Coo.nodes source →
            read (Csc.column_offsets g1) (k + 1)
            - read (Csc.column_offsets g1) k
            = Z.of_nat (count_at Coo.y k (Coo.edge_pairs source)))
       ∧ (∀ k, 0 ≤ k < Coo.nodes source →
            (∀ ed, ed ∈ Coo.edge_pairs source → Coo.y ed ≠ k) →
            read (Csc.column_offsets g1) k
            = read (Csc.column_offsets g1) (k + 1))).
Proof.
  intros source g m g1 source1 m1 Hnodes HF.
  pose proof (FromCoo_last_offset _ _ _ _ _ _ Hnodes HF) as Hlast.
  split; [done|]. intros Hwf.
  pose proof Hwf as (Hn & He & Hv & Hrange).
  destruct (FromCoo_success _ _ _ _ _ _ Hwf HF)
    as (_ & _ & _ & Hperm & Hsorted & _ & _ & _ & Hlen & Hoff).
  assert (∀ k, 0 ≤ k ≤ Coo.nodes source →
            read (Csc.column_offsets g1) k
            = Z.of_nat (count_below Coo.y k (Coo.edge_pairs source1))) as Hread.
  { intros k Hk. by apply read_lookup, Hoff. }
  assert (∀ k, 0 ≤ k < Coo.nodes source →
            read (Csc.column_offsets g1) (k + 1) - read (Csc.column_offsets g1) k
            = Z.of_nat (count_at Coo.y k (Coo.edge_pairs source))) as Hdeg.
  { intros k Hk. rewrite !Hread by lia. rewrite count_below_succ.
    rewrite (count_at_Permutation _ _ _ _ Hperm). lia. }
  assert (length (Coo.edge_pairs source1) = length (Coo.edge_pairs source))
    as Hplen by (by rewrite Hperm).
  split_and!; [done | done | done | | | | done |].
  - intros k Hk. rewrite Hread by lia. split.
    + pose proof (count_below_le_length Coo.y k (Coo.edge_pairs source1)). lia.
    + intros i ed Hi. rewrite (sorted_below_iff Coo.y k _ i ed Hsorted Hi). lia.
  - by apply read_lookup.
  - intros k Hk. specialize (Hdeg k Hk). lia.
  - intros k Hk Hnone. specialize (Hdeg k Hk).
    assert (count_at Coo.y k (Coo.edge_pairs source) = 0%nat) as H0; [|lia].
    apply count_at_none, Forall_forall. intros ed Hed. by apply Hnone.
Qed.

(** The tuple at a position of a COO graph whose value array is as long
    as its edge array. *)
Lemma tuples_lookup source i ed :
  (HAS_EDGE_VALUES = true →
   length (Coo.edge_values source) = length (Coo.edge_pairs source)) →
  Coo.edge_pairs source !! i = Some ed →
  Coo.tuples HAS_EDGE_VALUES source !! i
  = Some (ed, if HAS_EDGE_VALUES
              then Some (default 0 (Coo.edge_values source !! i))
              else None).
Proof.
  intros Hlen Hi. unfold Coo.tuples. destruct HAS_EDGE_VALUES.
  - rewrite lookup_zip_with, Hi. simpl.
    destruct (lookup_lt_is_Some_2 (Coo.edge_values source) i) as [v ->]; [|done].
    rewrite (Hlen eq_refl). by eapply lookup_lt_Some.
  - by rewrite list_lookup_fmap, Hi.
Qed.

Lemma tuples_length source :
  (HAS_EDGE_VALUES = true →
   length (Coo.edge_values source) = length (Coo.edge_pairs source)) →
  length (Coo.tuples HAS_EDGE_VALUES source) = length (Coo.edge_pairs source).
Proof.
  intros Hlen. unfold Coo.tuples. destruct HAS_EDGE_VALUES.
  - rewrite length_zip_with. rewrite (Hlen eq_refl). lia.
  - apply length_fmap.
Qed.

(** The edges [expand_column] finds for vertex [c] are the tuples of the
    ordered source between the two offsets of [c]. *)
Lemma expand_column_segment source g m g1 source1 m1 c :
  Coo.well_formed HAS_EDGE_VALUES source →
  Csc.FromCoo HAS_EDGE_VALUES HAS_NODE_VALUES source g m
  = (cudaSuccess, g1, source1, m1) →
  0 ≤ c < Coo.nodes source →
  Csc.expand_column HAS_EDGE_VALUES g1 c
  = take (count_at Coo.y c (Coo.edge_pairs source1))
         (drop (count_below Coo.y c (Coo.edge_pairs source1))
               (Coo.tuples HAS_EDGE_VALUES source1)).
Proof.
  intros Hwf HF Hc.
  destruct (FromCoo_success _ _ _ _ _ _ Hwf HF)
    as (_ & _ & _ & Hperm & Hsorted & _ & Hrow & Hval & _ & Hoff).
  set (sorted := Coo.edge_pairs source1) in *.
  assert (HAS_EDGE_VALUES = true →
          length (Coo.edge_values source1) = length sorted) as Hvlen.
  { intros HE. by apply Hval. }
  unfold Csc.expand_column.
  rewrite (read_lookup _ c _ (Hoff c ltac:(lia))).
  rewrite (read_lookup _ (c + 1) _ (Hoff (c + 1) ltac:(lia))).
  rewrite count_below_succ.
  set (lo := count_below Coo.y c sorted).
  set (cnt := count_at Coo.y c sorted).
  pose proof (count_below_le_length Coo.y (c + 1) sorted) as Hhi.
  rewrite count_below_succ in Hhi. fold lo cnt in Hhi.
  replace (Z.of_nat (lo + cnt) - Z.of_nat lo) with (Z.of_nat cnt) by lia.
  apply list_eq. intros j.
  rewrite list_lookup_fmap.
  destruct (decide (j < cnt)%nat) as [Hj|Hj].
  2:{ rewrite lookup_seqZ_ge by lia. rewrite lookup_take_ge by lia. done. }
  rewrite lookup_seqZ_lt by lia. rewrite lookup_take_lt by done.
  rewrite lookup_drop. simpl.
  destruct (lookup_lt_is_Some_2 sorted (lo + j)) as [ed Hed]; [lia|].
  rewrite (tuples_lookup _ _ ed) by done.
  assert (Coo.y ed = c) as Hy.
  { pose proof (sorted_below_iff Coo.y c _ _ _ Hsorted Hed) as H1.
    pose proof (sorted_below_iff Coo.y (c + 1) _ _ _ Hsorted Hed) as H2.
    rewrite count_below_succ in H2. fold lo cnt in H1, H2. lia. }
  f_equal. f_equal.
  - unfold read. rewrite Hrow, list_lookup_fmap.
    replace (Z.to_nat (Z.of_nat lo + Z.of_nat j)) with (lo + j)%nat by lia.
    fold sorted. rewrite Hed. simpl. destruct ed as [ex ey]. simpl in *.
    by rewrite Hy.
  - destruct HAS_EDGE_VALUES eqn:HE; [|done].
    unfold read. destruct (Hval eq_refl) as [-> _].
    by replace (Z.to_nat (Z.of_nat lo + Z.of_nat j)) with (lo + j)%nat by lia.
Qed.

Lemma expand_is_ordered_source source g m g1 source1 m1 :
  Coo.well_formed HAS_EDGE_VALUES source →
  Csc.FromCoo HAS_EDGE_VALUES HAS_NODE_VALUES source g m
  = (cudaSuccess, g1, source1, m1) →
  Csc.expand HAS_EDGE_VALUES g1 = Coo.tuples HAS_EDGE_VALUES source1.
Proof.
  intros Hwf HF. pose proof Hwf as (Hn & He & Hv & Hrange).
  destruct (FromCoo_success _ _ _ _ _ _ Hwf HF)
    as (Hnodes & _ & _ & Hperm & Hsorted & _ & _ & Hval & _ & _).
  assert (∀ c : nat, Z.of_nat c ≤ Coo.nodes source →
            seqZ 0 (Z.of_nat c) ≫= Csc.expand_column HAS_EDGE_VALUES g1
            = take (count_below Coo.y (Z.of_nat c) (Coo.edge_pairs source1))
                   (Coo.tuples HAS_EDGE_VALUES source1)) as Hpre.
  { induction c as [|c IH]; intros Hc.
    - rewrite count_below_none; [done|].
      rewrite Hperm. eapply Forall_impl; [done|]. simpl. lia.
    - rewrite seqZ_S, bind_app, IH by lia. simpl. rewrite app_nil_r.
      rewrite (expand_column_segment _ _ _ _ _ _ _ Hwf HF) by lia.
      rewrite take_take_drop.
      replace (Z.of_nat (S c)) with (Z.of_nat c + 1) by lia.
      by rewrite count_below_succ. }
  unfold Csc.expand. rewrite Hnodes.
  rewrite <- (Z2Nat.id (Coo.nodes source)) at 1 by lia.
  rewrite Hpre by lia. rewrite Z2Nat.id by lia.
  apply take_ge. rewrite tuples_length by (intros HE; by apply Hval).
  rewrite count_below_all; [done|].
  rewrite Hperm. eapply Forall_impl; [done|]. simpl. lia.
Qed.

End Conversion.

(** ** The round trip through a compressed form *)

Section RoundTrip.
Import Memory.

Variables HAS_EDGE_VALUES HAS_NODE_VALUES : bool.

Lemma transpose_pair_involutive e :
  Csr.transpose_pair (Csr.transpose_pair e) = e.
Proof. by destruct e. Qed.

Lemma well_formed_transpose source :
  Coo.well_formed HAS_EDGE_VALUES source →
  Coo.well_formed HAS_EDGE_VALUES (Csr.transpose source).
Proof.
  intros (Hn & He & Hv & Hrange). unfold Coo.well_formed, Csr.transpose. simpl.
  rewrite length_fmap.
  split; [done|]. split; [done|]. split; [done|].
  rewrite Forall_fmap. eapply Forall_impl; [done|]. simpl. tauto.
Qed.

Lemma tuples_transpose source :
  Coo.tuples HAS_EDGE_VALUES (Csr.transpose source)
  = (λ t, (Csr.transpose_pair t.1, t.2)) <$> Coo.tuples HAS_EDGE_VALUES source.
Proof.
  unfold Coo.tuples, Csr.transpose. simpl. destruct HAS_EDGE_VALUES.
  - generalize (Coo.edge_values source).
    induction (Coo.edge_pairs source) as [|e l IH]; intros [|v vs]; simpl;
      try done.
    by rewrite IH.
  - rewrite <- !list_fmap_compose. done.
Qed.

Lemma tuples_fst source :
  (HAS_EDGE_VALUES = true →
   length (Coo.edge_values source) = length (Coo.edge_pairs source)) →
  (Coo.tuples HAS_EDGE_VALUES source).*1 = Coo.edge_pairs source.
Proof.
  intros Hlen. unfold Coo.tuples. destruct HAS_EDGE_VALUES.
  - specialize (Hlen eq_refl). revert Hlen. generalize (Coo.edge_values source).
    induction (Coo.edge_pairs source) as [|e l IH]; intros [|v vs] Hlen;
      simplify_eq/=; try done.
    by rewrite IH.
  - rewrite <- list_fmap_compose. apply list_fmap_id.
Qed.

(** C3.  On a well-formed COO graph [G]: the edge tuples a graph built by
    [Csc::FromCoo] stands for are, up to their order, the tuples of [G],
    each with its value when the graph has edge values; in particular
    the pairs of a row index and its column are a permutation of the
    edges of [G].  The same holds of the row-compressed graph. *)
Theorem FromCoo_expand_round_trip :
  ∀ (source : Coo.CooT) (m : Memory),
    Coo.well_formed HAS_EDGE_VALUES source →
    (∀ g g1 source1 m1,
        Csc.FromCoo HAS_EDGE_VALUES HAS_NODE_VALUES source g m
        = (cudaSuccess, g1, source1, m1) →
        Csc.expand HAS_EDGE_VALUES g1 ≡ₚ Coo.tuples HAS_EDGE_VALUES source
        ∧ (Csc.expand HAS_EDGE_VALUES g1).*1 ≡ₚ Coo.edge_pairs source)
    ∧ (∀ g g1 source1 m1,
        Csr.FromCoo HAS_EDGE_VALUES HAS_NODE_VALUES source g m
        = (cudaSuccess, g1, source1, m1) →
        Csr.expand HAS_EDGE_VALUES g1 ≡ₚ Coo.tuples HAS_EDGE_VALUES source
        ∧ (Csr.expand HAS_EDGE_VALUES g1).*1 ≡ₚ Coo.edge_pairs source).
Proof.
  intros source m Hwf.
  assert (∀ src g g1 source1 m1,
            Coo.well_formed HAS_EDGE_VALUES src →
            Csc.FromCoo HAS_EDGE_VALUES HAS_NODE_VALUES src g m
            = (cudaSuccess, g1, source1, m1) →
            Csc.expand HAS_EDGE_VALUES g1 ≡ₚ Coo.tuples HAS_EDGE_VALUES src)
    as Hcsc.
  { intros src g g1 source1 m1 Hwf' HF.
    rewrite (expand_is_ordered_source _ _ _ _ _ _ _ _ Hwf' HF).
    by destruct (FromCoo_success _ _ _ _ _ _ _ _ Hwf' HF)
      as (_ & _ & _ & _ & _ & Htup & _). }
  pose proof Hwf as (_ & _ & Hv & _).
  split.
  - intros g g1 source1 m1 HF. pose proof (Hcsc _ _ _ _ _ Hwf HF) as Hp.
    split; [done|]. rewrite Hp. by rewrite tuples_fst.
  - intros g g1 source1 m1. unfold Csr.FromCoo, Csr.expand.
    destruct (Csc.FromCoo _ _ _ _ _) as [[[r gc] sc] mc] eqn:HF.
    intros Heq. injection Heq as -> <- <- <-.
    pose proof (Hcsc _ _ _ _ _ (well_formed_transpose _ Hwf) HF) as Hp.
    assert (Csc.expand HAS_EDGE_VALUES (Csr.to_Csc (Csr.of_Csc gc))
            = Csc.expand HAS_EDGE_VALUES gc) as -> by (by destruct gc).
    assert ((λ t : Coo.EdgePairT * option Z, (Csr.transpose_pair t.1, t.2))
              <$> Csc.expand HAS_EDGE_VALUES gc
            ≡ₚ Coo.tuples HAS_EDGE_VALUES source) as Hq.
    { rewrite Hp, tuples_transpose, <- list_fmap_compose.
      rewrite (list_fmap_ext _ id); [by rewrite list_fmap_id|].
      intros i [e w] _. simpl. by rewrite transpose_pair_involutive. }
    split; [done|]. rewrite Hq. by rewrite tuples_fst.
Qed.

End RoundTrip.

(** The graph 0->1, 0->2, 1->3, 2->3, 3->1 with a value on every edge. *)
Definition sample_coo : Coo.CooT :=
  Coo.mkCoo 4 5 true Coo.UNORDERED
    [Coo.mkEdgePair 0 1; Coo.mkEdgePair 0 2; Coo.mkEdgePair 1 3;
     Coo.mkEdgePair 2 3; Coo.mkEdgePair 3 1]
    [10; 20; 30; 40; 50].

Lemma sample_coo_well_formed : Coo.well_formed true sample_coo.
Proof.
  unfold Coo.well_formed, sample_coo, Types.INT_MAX. simpl.
  split; [lia|]. split; [done|]. split; [done|].
  repeat (apply Forall_cons_2; [simpl; lia|]). apply Forall_nil_2.
Defined.

Definition empty_memory : Memory.Memory := Memory.mkMemory [] ∅.

Definition sample_csc : Csc.CscT :=
  (Csc.FromCoo true false sample_coo new_Csc empty_memory).1.1.2.

Definition sample_csr : Csr.CsrT :=
  (Csr.FromCoo true false sample_coo (Csr.of_Csc new_Csc) empty_memory).1.1.2.

Lemma sample_csc_FromCoo :
  Csc.FromCoo true false sample_coo new_Csc empty_memory
  = (cudaSuccess, sample_csc,
     (Csc.FromCoo true false sample_coo new_Csc empty_memory).1.2,
     (Csc.FromCoo true false sample_coo new_Csc empty_memory).2).
Proof. vm_compute. reflexivity. Qed.

Lemma sample_csr_FromCoo :
  Csr.FromCoo true false sample_coo (Csr.of_Csc new_Csc) empty_memory
  = (cudaSuccess, sample_csr,
     (Csr.FromCoo true false sample_coo (Csr.of_Csc new_Csc) empty_memory).1.2,
     (Csr.FromCoo true false sample_coo (Csr.of_Csc new_Csc) empty_memory).2).
Proof. vm_compute. reflexivity. Qed.

(** A COO graph that is not well formed: two vertices and one edge, which
    leads to vertex 5. *)
Definition skewed_coo : Coo.CooT :=
  Coo.mkCoo 2 1 true Coo.UNORDERED [Coo.mkEdgePair 0 5] [10].

Definition skewed_csc : Csc.CscT :=
  (Csc.FromCoo true false skewed_coo new_Csc empty_memory).1.1.2.

Lemma skewed_csc_FromCoo :
  Csc.FromCoo true false skewed_coo new_Csc empty_memory
  = (cudaSuccess, skewed_csc,
     (Csc.FromCoo true false skewed_coo new_Csc empty_memory).1.2,
     (Csc.FromCoo true false skewed_coo new_Csc empty_memory).2).
Proof. vm_compute. reflexivity. Qed.

(** On the graph that is not well formed the search for column 2 would
    answer 0; the offset stored at [nodes = 2] is [edges = 1]. *)
Lemma FromCoo_column_offsets_witness :
  Memory.BinarySearch 2 (Coo.edge_pairs skewed_coo) 0 1 Csc.column_edge_compare
  = 0
  ∧ Memory.data (Csc.column_offsets skewed_csc) !! 2%nat = Some 1
  ∧ Coo.well_formed true sample_coo
  ∧ Memory.read (Csc.column_offsets sample_csc) 4 = 5
  ∧ ∀ k, 0 ≤ k < 4 →
      Memory.read (Csc.column_offsets sample_csc) (k + 1)
      - Memory.read (Csc.column_offsets sample_csc) k
      = Z.of_nat (count_at Coo.y k (Coo.edge_pairs sample_coo)).
Proof.
  split; [reflexivity|]. split.
  - assert (0 ≤ Coo.nodes skewed_coo ≤ Types.INT_MAX) as Hnodes.
    { unfold Types.INT_MAX. simpl. lia. }
    exact (proj1 (FromCoo_column_offsets true false skewed_coo new_Csc
                    empty_memory skewed_csc _ _ Hnodes skewed_csc_FromCoo)).
  - split; [exact sample_coo_well_formed|].
    assert (0 ≤ Coo.nodes sample_coo ≤ Types.INT_MAX) as Hnodes.
    { unfold Types.INT_MAX. simpl. lia. }
    pose proof (FromCoo_column_offsets true false sample_coo new_Csc
                  empty_memory sample_csc _ _ Hnodes sample_csc_FromCoo)
      as [_ Hwf].
    destruct (Hwf sample_coo_well_formed)
      as (_ & _ & _ & _ & Hlast & _ & Hdeg & _).
    split; [exact Hlast | exact Hdeg].
Defined.

Lemma FromCoo_expand_round_trip_witness :
  Coo.well_formed true sample_coo
  ∧ Csc.expand true sample_csc ≡ₚ Coo.tuples true sample_coo
  ∧ Csr.expand true sample_csr ≡ₚ Coo.tuples true sample_coo.
Proof.
  split; [exact sample_coo_well_formed|].
  pose proof (FromCoo_expand_round_trip true false sample_coo empty_memory
                sample_coo_well_formed) as [Hcsc Hcsr].
  split.
  - exact (proj1 (Hcsc _ _ _ _ sample_csc_FromCoo)).
  - exact (proj1 (Hcsr _ _ _ _ sample_csr_FromCoo)).
Defined.

(** ** The neighbor cap of [Display] *)

Section DisplayBound.
Import Memory.

Variable HAS_EDGE_VALUES : bool.

Lemma Display_edges_app g with_edge_values lo hi l1 l2 str :
  Forall (λ edge, edge - lo ≤ 40) l1 →
  Csc.Display_edges HAS_EDGE_VALUES g with_edge_values lo hi (l1 ++ l2) str
  = Csc.Display_edges HAS_EDGE_VALUES g with_edge_values lo hi l2
      (Csc.Display_edges HAS_EDGE_VALUES g with_edge_values lo hi l1 str).
Proof.
  intros Hl1. revert str. induction Hl1 as [|edge l1 He _ IH]; intros str.
  - done.
  - cbn [app Csc.Display_edges].
    rewrite bool_decide_eq_false_2 by lia. apply IH.
Qed.

(** Of a neighbor list longer than 40, the loop of [Display] visits the
    first 41 entries, those at the offsets 0 to 40, before it breaks. *)
Lemma Display_edges_visits_41 g with_edge_values lo hi str :
  hi - lo > 40 →
  Csc.Display_edges HAS_EDGE_VALUES g with_edge_values lo hi
    (seqZ lo (hi - lo)) str
  = Csc.Display_edges HAS_EDGE_VALUES g with_edge_values lo hi (seqZ lo 41) str.
Proof.
  intros Hdeg.
  replace (hi - lo) with (41 + (hi - lo - 41)) at 1 by lia.
  rewrite seqZ_app by lia. rewrite Display_edges_app.
  - destruct (decide (hi - lo - 41 = 0)) as [Heq|Hne].
    + rewrite Heq. reflexivity.
    + rewrite seqZ_cons by lia. cbn [Csc.Display_edges].
      rewrite bool_decide_eq_true_2 by lia. reflexivity.
  - apply Forall_seqZ. intros; lia.
Qed.

End DisplayBound.

(** A graph of two vertices in which 100 edges lead from vertex 0 to
    vertex 1, and the CSC graph [FromCoo] builds from it. *)
Definition star_coo : Coo.CooT :=
  Coo.mkCoo 2 100 true Coo.UNORDERED (replicate 100 (Coo.mkEdgePair 0 1)) [].

Definition star_csc : Csc.CscT :=
  Csc.mkCsc 2 100 true
    (Memory.mkArray1D (Some 1%nat) (replicate 100 0))
    (Memory.mkArray1D (Some 0%nat) [0; 0; 100])
    Memory.released Memory.released.

Lemma star_csc_FromCoo :
  (Csc.FromCoo false false star_coo new_Csc empty_memory).1.1
  = (cudaSuccess, star_csc).
Proof. vm_compute. reflexivity. Qed.

(** The number of neighbor entries on a line of [Display]: every entry
    opens with a bracket, and nothing else on the line has one. *)
Definition Display_entries (line : string) : nat :=
  length (filter (λ c, String c EmptyString = "[")
                 (String.list_ascii_of_string line)).

(** C6: the code at a failing input.  For vertex 1 of the star graph,
    whose neighbor list has 100 entries, [Display] prints 41 entries
    before the truncation marker, not 40: 40 entries with a separator,
    then the entry at offset 40, then the marker.  The graph is not
    touched: [Display] returns a status and the lines, no graph. *)
Example Display_prints_41_entries :
  ∃ line,
    (Csc.Display false "" 40 true star_csc).2 !! 2%nat = Some line
    ∧ line = String.concat "" (replicate 40 "[0], ") +:+ "[0]" +:+ "..."
             +:+ " : v 1 0"
    ∧ Display_entries line = 41%nat.
Proof.
  eexists. split; [vm_compute; reflexivity|]. split; vm_compute; reflexivity.
Qed.

(** ** Type names and the parsing of [bool] values *)

Section TypeNames.
Import Util TypeParse.

(** X1.  The readable name "unsigned long long" is behind a test that repeats
    the one for [unsigned long], so [TypeName] gives it to no type: a
    result of that spelling is the implementation's own name of the
    type. *)
Theorem TypeName_unsigned_long_long_is_unreachable
    (type_info_name : type_info → string) (t_info : type_info) :
  TypeName type_info_name t_info = "unsigned long long" →
  type_info_name t_info = "unsigned long long".
Proof.
  unfold TypeName. intros H.
  repeat (case_bool_decide; [by simplify_eq|]). done.
Qed.

End TypeNames.

Section StrtoTBool.
Import Util TypeParse.

(** The number of white-space characters a C string starts with, and what
    follows them. *)
Fixpoint leading_spaces (cs : list ascii) : nat :=
  match cs with
  | c :: cs => if isspace c then S (leading_spaces cs) else O
  | [] => O
  end.

Definition body (str : string) : list ascii :=
  drop (leading_spaces (c_str str)) (c_str str).

Definition lower (cs : list ascii) : list ascii := tolower <$> cs.

Definition word (s : string) : list ascii := String.list_ascii_of_string s.

Lemma c_str_no_NUL str : Forall (λ c, c ≠ NUL) (c_str str).
Proof.
  induction str as [|c str IH]; simpl; [constructor|].
  case_bool_decide; by constructor.
Qed.

Lemma leading_spaces_le cs : (leading_spaces cs ≤ length cs)%nat.
Proof. induction cs as [|c cs IH]; simpl; [lia|]. destruct (isspace c); lia. Qed.

Lemma uint_id n : (n < 4294967296)%N → uint n = n.
Proof. intros. unfold uint. by apply N.mod_small. Qed.

Lemma char_at_lookup str i :
  char_at str (N.of_nat i)
  = match c_str str !! i with
    | Some c => Some c
    | None => if bool_decide (i = length (c_str str)) then Some NUL else None
    end.
Proof.
  unfold char_at, strlen. rewrite Nat2N.id.
  destruct (c_str str !! i); [done|].
  apply (f_equal (λ b : bool, if b then Some NUL else None)).
  apply bool_decide_ext. lia.
Qed.

Lemma strtoT_bool_skip_spec str len fuel i :
  len = N.of_nat (length (c_str str)) →
  (len < 4294967296)%N →
  (i ≤ length (c_str str))%nat →
  (length (c_str str) - i ≤ fuel)%nat →
  strtoT_bool_skip str len fuel (N.of_nat i)
  = Some (N.of_nat (i + leading_spaces (drop i (c_str str)))).
Proof.
  intros -> Hlen. revert i. induction fuel as [|fuel IH]; intros i Hi Hfuel.
  - assert (i = length (c_str str)) as -> by lia.
    simpl. rewrite bool_decide_eq_false_2 by lia.
    rewrite drop_all. simpl. do 2 f_equal. lia.
  - simpl. case_bool_decide as Hlt.
    + rewrite char_at_lookup.
      destruct (lookup_lt_is_Some_2 (c_str str) i) as [c Hc]; [lia|].
      rewrite Hc. simpl. erewrite drop_S by done. simpl.
      destruct (isspace c).
      * rewrite uint_id by lia.
        replace (N.of_nat i + 1)%N with (N.of_nat (S i)) by lia.
        rewrite IH by lia. do 2 f_equal. lia.
      * do 2 f_equal. lia.
    + assert (i = length (c_str str)) as -> by lia.
      rewrite drop_all. simpl. do 2 f_equal. lia.
Qed.

Lemma tolower_digit c d :
  (N_of_ascii d < 65)%N → tolower c = d ↔ c = d.
Proof.
  intros Hd. unfold tolower. case_bool_decide as Hc; [|done].
  split.
  - intros <-. exfalso. rewrite N_ascii_embedding in Hd by lia. lia.
  - intros ->. lia.
Qed.

End StrtoTBool.

Section StrtoTBoolCases.
Import Util TypeParse.

Lemma body_length str :
  length (c_str str) = (leading_spaces (c_str str) + length (body str))%nat.
Proof.
  unfold body. rewrite length_drop.
  pose proof (leading_spaces_le (c_str str)). lia.
Qed.

(** What [str[i + k]] is, [i] being the position after the white space. *)
Definition body_char (rest : list ascii) (k : nat) : option ascii :=
  match rest !! k with
  | Some c => Some c
  | None => if bool_decide (k = length rest) then Some NUL else None
  end.

Lemma char_at_body str k n :
  n = (N.of_nat (leading_spaces (c_str str)) + N.of_nat k)%N →
  char_at str n = body_char (body str) k.
Proof.
  intros ->. rewrite <- Nat2N.inj_add, char_at_lookup.
  unfold body_char, body at 1. rewrite lookup_drop.
  destruct (c_str str !! _); [done|].
  apply (f_equal (λ b : bool, if b then Some NUL else None)).
  apply bool_decide_ext. pose proof (body_length str). lia.
Qed.

Local Ltac in_words :=
  solve [ rewrite !elem_of_cons; repeat (first [ by left | right ]) ].
Local Ltac not_in_words :=
  let Hin := fresh "Hin" in
  intros Hin;
  repeat (apply elem_of_cons in Hin as [Hin|Hin]; [by simplify_eq|]);
  by apply elem_of_nil in Hin.

Lemma strtoT_bool_cases str base :
  (strlen str + 5 < 4294967296)%N →
  ∃ (v : bool) (str_end : N),
    strtoT_bool str base = Some (v, str_end)
    ∧ ((lower (body str) ∈ [word "false"; word "f"; word "0"]
        ∧ v = false ∧ str_end = strlen str)
       ∨ (lower (body str) ∈ [word "true"; word "t"; word "1"]
          ∧ v = true ∧ str_end = strlen str)
       ∨ ((lower (body str)
             ∉ [word "false"; word "f"; word "0"; word "true"; word "t"; word "1"])
          ∧ v = true ∧ str_end = N.of_nat (leading_spaces (c_str str)))).
Proof.
  intros Hbound. unfold strlen in Hbound.
  pose proof (body_length str) as Hlen.
  unfold strtoT_bool.
  rewrite (uint_id (strlen str)) by (unfold strlen; lia).
  change 0%N with (N.of_nat 0).
  rewrite strtoT_bool_skip_spec by (unfold strlen; lia).
  rewrite drop_0. cbn [mbind option_bind Nat.add].
  rewrite !(uint_id (_ + _)) by lia.
  unfold lower_is, char_is.
  rewrite (char_at_body str 0 (N.of_nat _)) by lia.
  rewrite (char_at_body str 1 (_ + 1)%N) by lia.
  rewrite (char_at_body str 2 (_ + 2)%N) by lia.
  rewrite (char_at_body str 3 (_ + 3)%N) by lia.
  rewrite (char_at_body str 4 (_ + 4)%N) by lia.
  unfold strlen. rewrite Hlen.
  clear Hbound Hlen.
  generalize (leading_spaces (c_str str)). generalize (body str).
  intros rest i0.
  assert (∀ c, bool_decide (c = "0"%char) = bool_decide (tolower c = "0"%char))
    as E0.
  { intros c. apply bool_decide_ext. symmetry. by apply tolower_digit. }
  assert (∀ c, bool_decide (c = "1"%char) = bool_decide (tolower c = "1"%char))
    as E1.
  { intros c. apply bool_decide_ext. symmetry. by apply tolower_digit. }
  destruct rest as [|c0 [|c1 [|c2 [|c3 [|c4 [|c5 rest]]]]]];
    unfold body_char, lower, word; cbn -[N.of_nat N.add tolower];
    try rewrite (E0 c0); try rewrite (E1 c0); clear E0 E1;
    repeat (rewrite bool_decide_eq_true_2 by lia);
    repeat (rewrite bool_decide_eq_false_2 by lia);
    cbn -[N.of_nat N.add tolower].
  all: try generalize (tolower c0); try generalize (tolower c1);
    try generalize (tolower c2); try generalize (tolower c3);
    try generalize (tolower c4); try generalize (tolower c5); intros.
  all: repeat (case_bool_decide; simplify_eq; cbn -[N.of_nat N.add tolower]).
  all: eexists _, _; (split; [reflexivity|]).
  all: first
    [ left; split; [in_words | split; [done | lia]]
    | right; left; split; [in_words | split; [done | lia]]
    | right; right; split; [not_in_words | split; [done | lia]] ].
Qed.


Lemma char_at_NUL str n :
  (n ≤ strlen str)%N →
  char_at str n = Some NUL ↔ n = strlen str.
Proof.
  intros Hn. unfold char_at, strlen in *.
  destruct (c_str str !! N.to_nat n) as [c|] eqn:Hc.
  - pose proof (lookup_lt_Some _ _ _ Hc).
    pose proof (c_str_no_NUL str) as Hno.
    rewrite Forall_lookup in Hno. specialize (Hno _ _ Hc). simpl in Hno.
    split; [intros [= ->]; done | lia].
  - apply lookup_ge_None in Hc. rewrite bool_decide_eq_true_2 by lia.
    split; [lia|done].
Qed.

Lemma lower_nil cs : lower cs = [] ↔ cs = [].
Proof. unfold lower. by destruct cs. Qed.

(** X2.  [strtoT<bool>] reads no character past the terminator of its
    argument, whatever the argument is, and the position it reports in
    [str_end] lies in the string, at or after the leading white space. *)
Theorem strtoT_bool_stays_in_string :
  ∀ (str : string) (base : Z),
    (strlen str + 5 < 4294967296)%N →
    ∃ (v : bool) (str_end : N),
      strtoT_bool str base = Some (v, str_end)
      ∧ (N.of_nat (leading_spaces (c_str str)) ≤ str_end ≤ strlen str)%N
      ∧ is_Some (isValidString_as strtoT_bool str base).
Proof.
  intros str base Hbound.
  destruct (strtoT_bool_cases str base Hbound) as (v & e & Hrun & Hcases).
  exists v, e. split; [done|].
  pose proof (body_length str) as Hlen. unfold strlen in *.
  assert (N.of_nat (leading_spaces (c_str str)) ≤ e
          ≤ N.of_nat (length (c_str str)))%N as He.
  { destruct Hcases as [(_ & _ & ->)|[(_ & _ & ->)|(_ & _ & ->)]]; lia. }
  split; [done|].
  unfold isValidString_as. rewrite Hrun. simpl.
  unfold char_at, strlen.
  destruct (c_str str !! N.to_nat e) eqn:Hc; simpl; [by eexists|].
  apply lookup_ge_None in Hc.
  rewrite bool_decide_eq_true_2 by lia. by eexists.
Qed.

Lemma strtoT_bool_stays_in_string_witness :
  ∃ (v : bool) (str_end : N),
    strtoT_bool "  False" 0 = Some (v, str_end) ∧ (2 ≤ str_end ≤ 7)%N.
Proof.
  destruct (strtoT_bool_stays_in_string "  False" 0) as (v & e & H1 & H2 & _).
  - vm_compute. reflexivity.
  - exists v, e. split; [exact H1 | exact H2].
Defined.

Lemma isValidString_bool_spec str base :
  (strlen str + 5 < 4294967296)%N →
  isValidString_as strtoT_bool str base
  = Some (bool_decide
            (lower (body str)
             ∈ [word ""; word "false"; word "true"; word "f"; word "t";
                word "0"; word "1"])).
Proof.
  intros Hbound.
  destruct (strtoT_bool_cases str base Hbound) as (v & e & Hrun & Hcases).
  unfold isValidString_as. rewrite Hrun. simpl.
  pose proof (body_length str) as Hlen.
  destruct Hcases as [(Hin & _ & ->)|[(Hin & _ & ->)|(Hin & _ & ->)]].
  - rewrite (proj2 (char_at_NUL str _ (N.le_refl _)) eq_refl). simpl.
    f_equal. symmetry.
    apply bool_decide_eq_true_2. revert Hin. rewrite !elem_of_cons. tauto.
  - rewrite (proj2 (char_at_NUL str _ (N.le_refl _)) eq_refl). simpl.
    f_equal. symmetry.
    apply bool_decide_eq_true_2. revert Hin. rewrite !elem_of_cons. tauto.
  - assert (N.of_nat (leading_spaces (c_str str)) ≤ strlen str)%N as Hle
      by (unfold strlen; lia).
    destruct (char_at str (N.of_nat (leading_spaces (c_str str)))) as [c|] eqn:Hc.
    2:{ exfalso. unfold char_at in Hc.
        destruct (c_str str !! _) eqn:Hl; [done|].
        apply lookup_ge_None in Hl.
        rewrite bool_decide_eq_true_2 in Hc by (unfold strlen; lia). done. }
    simpl. f_equal. apply bool_decide_ext.
    assert (c = NUL ↔ N.of_nat (leading_spaces (c_str str)) = strlen str) as ->.
    { rewrite <- (char_at_NUL _ _ Hle), Hc.
      split; [by intros -> | by intros [= ->]]. }
    unfold strlen.
    split.
    + intros Heq. assert (body str = []) as ->.
      { apply length_zero_iff_nil. lia. }
      apply elem_of_cons. by left.
    + intros Hw. apply elem_of_cons in Hw as [Hw|Hw].
      * apply (proj1 (lower_nil _)) in Hw. rewrite Hw in Hlen. simpl in Hlen. lia.
      * exfalso. apply Hin. revert Hw. rewrite !elem_of_cons. tauto.
Qed.

(** X3.  [isValidString<bool>] accepts, after any leading white space, the
    words "false" and "true" and the letters "f" and "t" in either case,
    the digits "0" and "1", and nothing at all; every other string,
    among them a word followed by white space, is rejected. *)
Theorem isValidString_bool_accepts :
  ∀ (str : string) (base : Z),
    (strlen str + 5 < 4294967296)%N →
    isValidString_as strtoT_bool str base
    = Some (bool_decide
              (lower (body str)
               ∈ [word ""; word "false"; word "true"; word "f"; word "t";
                  word "0"; word "1"])).
Proof.
  intros str base Hbound. rewrite isValidString_bool_spec by done.
  reflexivity.
Qed.

Lemma isValidString_bool_accepts_witness :
  isValidString_as strtoT_bool " T" 0 = Some true
  ∧ isValidString_as strtoT_bool "true " 0 = Some false.
Proof.
  split.
  - rewrite (isValidString_bool_accepts " T" 0); [reflexivity|].
    vm_compute. reflexivity.
  - rewrite (isValidString_bool_accepts "true " 0); [reflexivity|].
    vm_compute. reflexivity.
Defined.

(** X4.  The value [strtoT<bool>] returns is [false] exactly for "false", "f"
    and "0" (letters in either case, after white space); for every other
    string, also one it does not accept, it is [true]. *)
Theorem strtoT_bool_value :
  ∀ (str : string) (base : Z),
    (strlen str + 5 < 4294967296)%N →
    fst <$> strtoT_bool str base
    = Some (negb (bool_decide
                    (lower (body str) ∈ [word "false"; word "f"; word "0"]))).
Proof.
  intros str base Hbound.
  destruct (strtoT_bool_cases str base Hbound) as (v & e & Hrun & Hcases).
  rewrite Hrun. simpl. f_equal.
  destruct Hcases as [(Hin & -> & _)|[(Hin & -> & _)|(Hin & -> & _)]].
  - by rewrite bool_decide_eq_true_2.
  - rewrite bool_decide_eq_false_2; [done|].
    revert Hin. unfold word. simpl. rewrite !elem_of_cons, !elem_of_nil.
    intros [Heq|[Heq|[Heq|[]]]]; rewrite Heq; intros [?|[?|[?|[]]]]; done.
  - rewrite bool_decide_eq_false_2; [done|].
    intros Hw. apply Hin. revert Hw. rewrite !elem_of_cons. tauto.
Qed.

Lemma strtoT_bool_value_witness :
  fst <$> strtoT_bool "falsehood" 0 = Some true
  ∧ fst <$> strtoT_bool " F" 0 = Some false.
Proof.
  split.
  - rewrite (strtoT_bool_value "falsehood" 0); [reflexivity|].
    vm_compute. reflexivity.
  - rewrite (strtoT_bool_value " F" 0); [reflexivity|].
    vm_compute. reflexivity.
Defined.

End StrtoTBoolCases.

Section ValidStrings.
Import Util TypeParse.

Variable floating : Type.
Variables strtol strtoul strtoll strtoull : string → Z → Z * N.
Variables strtof strtod strtold : string → floating * N.

Local Abbreviation isValidString' :=
  (isValidString floating strtol strtoul strtoll strtoull strtof strtod strtold).

(** X5.  The range of the type plays no part in [isValidString]: for [char],
    [signed char], [short] and [int] it answers as for [long], and for
    the unsigned types as for [unsigned long], whatever the C library's
    conversions do.  A number too large for the type is a valid string of
    the type. *)
Theorem isValidString_ignores_the_range :
  ∀ (str : string) (base : Z) (t_info : type_info),
    (t_info ∈ [ti_char; ti_signed_char; ti_short; ti_int] →
     isValidString floating strtol strtoul strtoll strtoull strtof strtod
                   strtold str t_info base
     = isValidString floating strtol strtoul strtoll strtoull strtof strtod
                     strtold str ti_long base)
    ∧ (t_info ∈ [ti_unsigned_char; ti_unsigned_short; ti_unsigned_int] →
       isValidString floating strtol strtoul strtoll strtoull strtof strtod
                     strtold str t_info base
       = isValidString floating strtol strtoul strtoll strtoull strtof strtod
                       strtold str ti_unsigned_long base).
Proof.
  intros str base t_info. split; intros Hin.
  - unfold isValidString, isValidString_as, strtoT_char, strtoT_signed_char,
      strtoT_short, strtoT_int, strtoT_long.
    repeat (apply elem_of_cons in Hin as [->|Hin]);
      [..|by apply elem_of_nil in Hin]; simpl; by destruct (strtol str base).
  - unfold isValidString, isValidString_as, strtoT_unsigned_char,
      strtoT_unsigned_short, strtoT_unsigned_int, strtoT_unsigned_long.
    repeat (apply elem_of_cons in Hin as [->|Hin]);
      [..|by apply elem_of_nil in Hin]; simpl; by destruct (strtoul str base).
Qed.

(** A string-typed parameter, and one of a type [isValidString] does not
    know, takes every argument. *)
Lemma isValidString_string str base t_info :
  t_info = ti_string ∨ t_info = ti_char_ptr ∨ (∃ name, t_info = ti_other name) →
  isValidString' str t_info base = Some true.
Proof.
  intros [->|[->|[name ->]]]; unfold isValidString; simpl; try done.
  all: unfold isValidString_as, strtoT_string; simpl.
  all: by rewrite (proj2 (char_at_NUL str _ (N.le_refl _)) eq_refl).
Qed.

End ValidStrings.

(** ** Declaring, setting, reading and listing parameters *)

Section RegistryOperations.
Import Util CommandLine.

(** Every item is stored under its own name. *)
Definition keyed (P : Parameters) : Prop :=
  ∀ key it, p_map P !! key = Some it → name it = key.

(** The registries a program can hold: made by the constructor, changed
    by [Use] and [Set]. *)
Inductive built : Parameters → Prop :=
| built_new summary : built (new_Parameters summary)
| built_Use name flag default_value description ty file line P :
    built P →
    built (Use name flag default_value description ty file line P).2
| built_Set name value P : built P → built (Set_ name value P).2.

Lemma Use_cases name flag dv desc ty file line P :
  Use name flag dv desc ty file line P
  = (cudaSuccess,
     mkParameters
       (<[name := mkItem name flag dv desc dv true ty file line]> (p_map P))
       (summary P))
  ∨ (Use name flag dv desc ty file line P).1 ≠ cudaSuccess
    ∧ (Use name flag dv desc ty file line P).2 = P.
Proof.
  unfold Use. destruct (_ && _); [by right|].
  destruct (p_map P !! name) as [it|]; [|by left].
  destruct (_ || _); [by right|by left].
Qed.

Lemma keyed_insert name it P :
  Util.name it = name → keyed P →
  keyed (mkParameters (<[name := it]> (p_map P)) (summary P)).
Proof.
  intros Hname HP key it'. simpl.
  destruct (decide (key = name)) as [->|Hne].
  - rewrite lookup_insert_eq. by intros [= <-].
  - rewrite lookup_insert_ne by done. apply HP.
Qed.

Lemma built_keyed P : built P → keyed P.
Proof.
  induction 1 as [summary|name flag dv desc ty file line P _ IH|name value P _ IH].
  - intros key it. simpl. by rewrite lookup_empty.
  - destruct (Use_cases name flag dv desc ty file line P) as [->|[_ ->]];
      [|done].
    by apply keyed_insert.
  - unfold Set_. destruct (p_map P !! name) as [it|] eqn:Hit; [|done].
    apply keyed_insert; [|done]. simpl. by apply IH.
Qed.

Lemma List_loop (l : list (string * Parameter_Item))
    (acc : gmap string string) key :
  NoDup l.*1 →
  (∀ k it, (k, it) ∈ l → name it = k) →
  foldl (λ list entry, <[name entry.2 := value entry.2]> list) acc l !! key
  = match (list_to_map l : gmap string Parameter_Item) !! key with
    | Some it => Some (value it)
    | None => acc !! key
    end.
Proof.
  revert acc. induction l as [|[k it] l IH]; intros acc Hnd Hkeyed; [done|].
  apply NoDup_cons in Hnd as [Hk Hnd]. simpl.
  rewrite IH by (try done; intros k' it' Hin; apply Hkeyed; by right).
  assert (name it = k) as -> by (apply Hkeyed; by left).
  destruct (decide (key = k)) as [->|Hne].
  - rewrite lookup_insert_eq.
    rewrite (not_elem_of_list_to_map_1 l k Hk). by rewrite lookup_insert_eq.
  - rewrite !lookup_insert_ne by (intros Heq; by apply Hne). done.
Qed.

(** X6.  [List()] of a registry maps every declared name, and no other, to
    the value [Get] returns for it. *)
Theorem List_is_the_values :
  ∀ (P : Parameters) (key : string),
    built P →
    List P !! key = value <$> p_map P !! key
    ∧ ∀ out, Get key out P
             = match List P !! key with
               | Some v => (cudaSuccess, v)
               | None => (cudaErrorInvalidValue, out)
               end.
Proof.
  intros P key HP. apply built_keyed in HP.
  assert (List P !! key = value <$> p_map P !! key) as Heq.
  { unfold List. rewrite List_loop.
    - assert ((list_to_map (entries P) : gmap string Parameter_Item) = p_map P)
        as ->.
      { rewrite (list_to_map_proper _ _ (entries_NoDup P) (entries_Permutation P)).
        apply list_to_map_to_list. }
      rewrite lookup_empty. by destruct (p_map P !! key).
    - apply entries_NoDup.
    - intros k it Hin. apply entries_lookup in Hin. by apply HP. }
  split; [done|]. intros out. rewrite Heq. unfold Get.
  by destruct (p_map P !! key).
Qed.

(** X7.  [Use] and [Get]: a declaration that succeeds makes [Get] on the name
    return the default value, and changes what [Get] returns for no other
    name; a declaration that fails changes nothing. *)
Theorem Use_then_Get :
  ∀ (name : string) (flag : Parameter_Flag) (default_value description : string)
    (ty : type_info) (file : string) (line : Z) (P : Parameters),
    let result := Use name flag default_value description ty file line P in
    (result.1 = cudaSuccess →
     (∀ out, Get name out result.2 = (cudaSuccess, default_value))
     ∧ ∀ other out, other ≠ name → Get other out result.2 = Get other out P)
    ∧ (result.1 ≠ cudaSuccess → result.2 = P).
Proof.
  intros name flag dv desc ty file line P result. subst result.
  destruct (Use_cases name flag dv desc ty file line P) as [->|[Hfail ->]].
  - split; [|done]. intros _. unfold Get. simpl. split.
    + intros out. by rewrite lookup_insert_eq.
    + intros other out Hne. by rewrite lookup_insert_ne.
  - split; [done|]. by intros _.
Qed.

(** X8.  Declaring again from the same call site takes back a [Set]: after a
    successful declaration, [Set] on the name succeeds and [Get] returns
    the value set, and the same call of [Use] after it succeeds and
    leaves the registry as it was right after the first declaration, the
    value set being lost. *)
Theorem Use_after_Set_restores_the_default :
  ∀ (name : string) (flag : Parameter_Flag) (default_value description : string)
    (ty : type_info) (file : string) (line : Z) (P P1 : Parameters)
    (value : string),
    Use name flag default_value description ty file line P = (cudaSuccess, P1) →
    ∃ P2,
      Set_ name value P1 = (cudaSuccess, P2)
      ∧ (∀ out, Get name out P2 = (cudaSuccess, value))
      ∧ Use name flag default_value description ty file line P2
        = (cudaSuccess, P1).
Proof.
  intros name flag dv desc ty file line P P1 v HU.
  destruct (Use_cases name flag dv desc ty file line P) as [Heq|[Hfail _]].
  2:{ rewrite HU in Hfail. done. }
  rewrite Heq in HU. injection HU as <-.
  unfold Set_. simpl. rewrite lookup_insert_eq. eexists. split; [done|].
  split.
  - intros out. unfold Get. simpl. by rewrite lookup_insert_eq.
  - revert Heq. unfold Use. simpl.
    destruct (_ && _); [done|]. intros _.
    rewrite lookup_insert_eq. simpl.
    rewrite !bool_decide_eq_false_2 by (intros Hne; by apply Hne). simpl.
    by rewrite !insert_insert_eq.
Qed.

(** The entries of a registry in which the item of a declared parameter
    has been replaced: the same keys in the same order. *)
Lemma entries_insert P key it it' :
  p_map P !! key = Some it →
  entries (mkParameters (<[key := it']> (p_map P)) (summary P))
  = (λ entry, if decide (entry.1 = key) then (key, it') else entry)
    <$> entries P.
Proof.
  intros Hit. symmetry.
  set (upd := λ entry : string * Parameter_Item,
                if decide (entry.1 = key) then (key, it') else entry).
  assert (∀ entry, (upd entry).1 = entry.1) as Hkey.
  { intros entry. unfold upd. by destruct (decide _). }
  assert ((upd <$> entries P).*1 = (entries P).*1) as Hkeys.
  { rewrite <- list_fmap_compose. apply list_fmap_ext. intros ???. apply Hkey. }
  apply entries_unique; simpl.
  - apply NoDup_Permutation.
    + apply (NoDup_fmap_1 fst). rewrite Hkeys. apply entries_NoDup.
    + apply NoDup_map_to_list.
    + intros [k1 i1]. rewrite elem_of_map_to_list, list_elem_of_fmap. split.
      * intros ([k0 i0] & Heq & Hin). apply entries_lookup in Hin.
        unfold upd in Heq. simpl in Heq.
        destruct (decide (k0 = key)) as [->|Hne]; injection Heq as -> ->.
        -- by rewrite lookup_insert_eq.
        -- by rewrite lookup_insert_ne.
      * intros Hl. destruct (decide (k1 = key)) as [->|Hne].
        -- rewrite lookup_insert_eq in Hl. injection Hl as <-.
           exists (key, it). split; [|by apply entries_lookup].
           unfold upd. simpl. by rewrite decide_True.
        -- rewrite lookup_insert_ne in Hl by done.
           exists (k1, i1). split; [|by apply entries_lookup].
           unfold upd. simpl. by rewrite decide_False.
  - pose proof (entries_sorted P) as Hs.
    clear Hkeys. induction Hs as [|entry l Hs IH Hall]; simpl; constructor;
      [done|].
    rewrite Forall_fmap. eapply Forall_impl; [done|].
    intros entry'. unfold key_order. simpl. by rewrite !Hkey.
Qed.

(** The parameter a line of [Check_Required] names. *)
Definition reported_name (line : cerr_line) : string :=
  match line with Required_not_present name _ _ => name end.

Lemma Check_Required_lines_insert (l : list (string * Parameter_Item)) key it' :
  Forall (λ entry, name entry.2 = entry.1) l →
  ¬ missing (key, it') →
  omap Check_Required_entry
       ((λ entry, if decide (entry.1 = key) then (key, it') else entry) <$> l)
  = filter (λ line, reported_name line ≠ key) (omap Check_Required_entry l).
Proof.
  intros Hl Hnot. induction Hl as [|[k0 i0] l Hname _ IH]; [done|].
  cbn [fmap list_fmap omap list_omap]. rewrite !Check_Required_entry_cases.
  simpl in Hname. simpl. destruct (decide (k0 = key)) as [->|Hne].
  - rewrite decide_False by done.
    destruct (decide (missing (key, i0))); [|done].
    rewrite filter_cons_False; [done|].
    unfold report. simpl. intros Hne. by apply Hne.
  - destruct (decide (missing (k0, i0))); [|done].
    rewrite filter_cons_True; [by rewrite IH|].
    unfold report. simpl. by rewrite Hname.
Qed.

(** X9.  [Set] and [Check_Required]: once a parameter has been given a value
    that is not empty, [Check_Required] writes no line for it, and for the
    other parameters exactly the lines it wrote before, in the same
    order. *)
Theorem Check_Required_after_Set :
  ∀ (P P' : Parameters) (name value : string),
    built P →
    Set_ name value P = (cudaSuccess, P') →
    value ≠ "" →
    (Check_Required P').2
    = filter (λ line, reported_name line ≠ name) (Check_Required P).2.
Proof.
  intros P P' name v HP HS Hv. apply built_keyed in HP.
  unfold Set_ in HS. destruct (p_map P !! name) as [it|] eqn:Hit; [|done].
  injection HS as <-. unfold Check_Required. cbn [snd].
  rewrite (entries_insert P name it) by done.
  apply Check_Required_lines_insert.
  - apply Forall_forall. intros [k0 i0] Hin. simpl.
    apply entries_lookup in Hin. by apply HP.
  - unfold missing. simpl. by intros [_ ?].
Qed.

End RegistryOperations.

(** ** The option table of [Parse_CommandLine] *)

Section OptionTables.
Import Util CommandLine.

(** The value [getopt] is told to return for the option at position [j]
    of the table: one more than the position, and one more again from
    ['?'] on. *)
Definition option_code (j : nat) : Z :=
  if bool_decide (question_mark ≤ Z.of_nat j + 1) then Z.of_nat j + 2
  else Z.of_nat j + 1.

Definition option_of (it : Parameter_Item) (j : nat) : Option_ :=
  mkOption (Some (name it)) (Z.of_N (N.land (flag it) 0x07 `div` 2))
           (option_code j).

Lemma option_code_mono j j' : (j < j')%nat → option_code j < option_code j'.
Proof.
  unfold option_code, question_mark. intros.
  repeat case_bool_decide; lia.
Qed.

Lemma option_code_pos j : 0 < option_code j.
Proof. unfold option_code. case_bool_decide; lia. Qed.

Lemma int_add_small a b :
  0 ≤ a → 0 ≤ b → a + b ≤ Types.INT_MAX → Types.int_add a b = a + b.
Proof.
  intros. unfold Types.int_add. apply wrap32_id.
  unfold Types.INT_MAX, Types.INT_MIN in *. lia.
Qed.

Lemma load_options_spec (n : nat) todo (j : nat) long_options names :
  Z.of_nat n + 2 ≤ Types.INT_MAX →
  (j + length todo = n)%nat →
  length long_options = S n →
  length names = S (S n) →
  ∃ long_options' names',
    load_options todo (Z.of_nat j) long_options names
    = Some (long_options', names')
    ∧ length long_options' = S n
    ∧ length names' = S (S n)
    ∧ (∀ k it, todo !! k = Some it →
         long_options' !! (j + k)%nat = Some (option_of it.2 (j + k))
         ∧ names' !! Z.to_nat (option_code (j + k)) = Some (name it.2))
    ∧ (∀ p, (p < j)%nat → long_options' !! p = long_options !! p)
    ∧ long_options' !! n = long_options !! n
    ∧ (∀ q, (q < Z.to_nat (option_code j))%nat → names' !! q = names !! q).
Proof.
  intros Hn. revert j long_options names.
  induction todo as [|it todo IH]; intros j long_options names Hj Hlo Hnm.
  - simpl. eexists _, _. split; [done|]. by split_and!.
  - simpl in Hj. cbn [load_options].
    rewrite !(int_add_small (Z.of_nat j) 1) by lia.
    assert ((if bool_decide (question_mark ≤ Z.of_nat j + 1)
             then Types.int_add (Z.of_nat j + 1) 1 else Z.of_nat j + 1)
            = option_code j) as ->.
    { unfold option_code. case_bool_decide; [|done].
      rewrite int_add_small by lia. lia. }
    assert (0 < option_code j ≤ Z.of_nat j + 2) as Hcode.
    { unfold option_code. case_bool_decide; lia. }
    unfold array_set at 1. rewrite bool_decide_eq_true_2 by lia. simpl.
    unfold array_set at 1. rewrite bool_decide_eq_true_2 by lia. simpl.
    rewrite Nat2Z.id.
    replace (Z.of_nat j + 1) with (Z.of_nat (S j)) by lia.
    destruct (IH (S j) (<[j := option_of it.2 j]> long_options)
                 (<[Z.to_nat (option_code j) := name it.2]> names))
      as (lo' & nm' & Hrun & Hlo' & Hnm' & Htodo & Hbefore & Hlast & Hnames).
    { lia. } { by rewrite length_insert. } { by rewrite length_insert. }
    exists lo', nm'. split; [exact Hrun|]. split; [done|]. split; [done|].
    pose proof (option_code_mono j (S j) ltac:(lia)) as Hmono.
    split_and!.
    + intros [|k] it' Hk.
      * injection Hk as <-. rewrite Nat.add_0_r. split.
        -- rewrite Hbefore by lia. apply list_lookup_insert_eq. lia.
        -- rewrite Hnames by lia. apply list_lookup_insert_eq. lia.
      * replace (j + S k)%nat with (S j + k)%nat by lia. by apply Htodo.
    + intros p Hp. rewrite Hbefore by lia. apply list_lookup_insert_ne. lia.
    + rewrite Hlast. apply list_lookup_insert_ne. lia.
    + intros q Hq. rewrite Hnames by lia. apply list_lookup_insert_ne. lia.
Qed.

Lemma option_tables_spec :
  ∀ (P : Parameters),
    Z.of_nat (size (p_map P)) + 2 ≤ Types.INT_MAX →
    ∃ long_options names,
      option_tables P = Some (Z.of_nat (size (p_map P)), long_options, names)
      ∧ length long_options = S (size (p_map P))
      ∧ long_options !! size (p_map P) = Some (mkOption None 0 0)
      ∧ (∀ key it, p_map P !! key = Some it →
           ∃ j, entries P !! j = Some (key, it))
      ∧ ∀ (j : nat) (entry : string * Parameter_Item),
          entries P !! j = Some entry →
          long_options !! j = Some (option_of entry.2 j)
          ∧ array_get names (option_code j) = Some (name entry.2)
          ∧ option_code j ≠ question_mark
          ∧ 0 < option_code j
            < (if bool_decide
                    (question_mark
                     ≤ Types.int_add (Z.of_nat (size (p_map P))) 1)
               then Types.int_add (Z.of_nat (size (p_map P))) 2
               else Types.int_add (Z.of_nat (size (p_map P))) 1)
          ∧ ∀ j', j' ≠ j → option_code j' ≠ option_code j.
Proof.
  intros P Hn. set (n := size (p_map P)) in *.
  unfold option_tables. fold n.
  rewrite wrap32_id by (unfold Types.INT_MIN, Types.INT_MAX in *; lia).
  rewrite !int_add_small by lia.
  destruct (load_options_spec n (entries P) 0
              (replicate (Z.to_nat (Z.of_nat n + 1)) (mkOption None 0 0))
              (replicate (Z.to_nat (Z.of_nat n + 2)) ""))
    as (lo & nm & Hrun & Hlo & Hnm & Htodo & _ & Hlast & _).
  { done. } { by rewrite entries_length. }
  { rewrite length_replicate. lia. } { rewrite length_replicate. lia. }
  change (Z.of_nat 0) with 0 in Hrun. rewrite Hrun. simpl.
  unfold array_set. rewrite bool_decide_eq_true_2 by lia. simpl.
  rewrite Nat2Z.id.
  eexists _, _. split; [reflexivity|]. split; [by rewrite length_insert|].
  split; [apply list_lookup_insert_eq; lia|].
  split.
  { intros key it Hit. apply list_elem_of_lookup_1. by apply entries_lookup. }
  intros j entry Hj. pose proof (lookup_lt_Some _ _ _ Hj) as Hlt.
  rewrite entries_length in Hlt. fold n in Hlt.
  destruct (Htodo j entry Hj) as [Ho Hname]. simpl in Ho, Hname.
  split_and!.
  - rewrite list_lookup_insert_ne by lia. exact Ho.
  - unfold array_get. pose proof (option_code_pos j).
    by rewrite bool_decide_eq_true_2 by lia.
  - unfold option_code, question_mark. case_bool_decide; lia.
  - apply option_code_pos.
  - unfold option_code, question_mark. repeat case_bool_decide; lia.
  - intros j' Hne Heq.
    destruct (decide (j' < j)%nat).
    + pose proof (option_code_mono j' j ltac:(lia)). lia.
    + pose proof (option_code_mono j j' ltac:(lia)). lia.
Qed.

(** X10.  The table [Parse_CommandLine] hands to [getopt]: it is built without
    a write outside the two arrays; every declared parameter has a
    position in it; the option at position [j] carries
    the name of the [j]-th parameter in the order of the names, and a
    value that is not ['?'], that no other option has, that leads back to
    the parameter's name in [names], and that lies strictly inside the
    range the switch admits; the table ends with the null entry. *)
Theorem option_tables_codes :
  ∀ (P : Parameters),
    Z.of_nat (size (p_map P)) + 2 ≤ Types.INT_MAX →
    ∃ long_options names,
      option_tables P = Some (Z.of_nat (size (p_map P)), long_options, names)
      ∧ length long_options = S (size (p_map P))
      ∧ long_options !! size (p_map P) = Some (mkOption None 0 0)
      ∧ (∀ key it, p_map P !! key = Some it →
           ∃ j, entries P !! j = Some (key, it))
      ∧ ∀ (j : nat) (entry : string * Parameter_Item),
          entries P !! j = Some entry →
          long_options !! j = Some (option_of entry.2 j)
          ∧ array_get names (option_code j) = Some (name entry.2)
          ∧ option_code j ≠ question_mark
          ∧ 0 < option_code j
            < (if bool_decide
                    (question_mark
                     ≤ Types.int_add (Z.of_nat (size (p_map P))) 1)
               then Types.int_add (Z.of_nat (size (p_map P))) 2
               else Types.int_add (Z.of_nat (size (p_map P))) 1)
          ∧ ∀ j', j' ≠ j → option_code j' ≠ option_code j.
Proof.
  intros P Hsize.
  destruct (option_tables_spec P Hsize) as (long_options & names & Hspec).
  by exists long_options, names.
Qed.

End OptionTables.

(** ** Parsing the command line *)

Section ParseCommandLine.
Import Util TypeParse CommandLine.

Variable type_info_name : type_info → string.
Variable floating : Type.
Variables strtol strtoul strtoll strtoull : string → Z → Z * N.
Variables strtof strtod strtold : string → floating * N.

Local Abbreviation isValidString' :=
  (isValidString floating strtol strtoul strtoll strtoull strtof strtod strtold).
Local Abbreviation Parse_option' :=
  (Parse_option type_info_name floating strtol strtoul strtoll strtoull
                strtof strtod strtold).
Local Abbreviation Parse_loop' :=
  (Parse_loop type_info_name floating strtol strtoul strtoll strtoull
              strtof strtod strtold).
Local Abbreviation Parse_CommandLine' :=
  (Parse_CommandLine type_info_name floating strtol strtoul strtoll strtoull
                     strtof strtod strtold).

(** What a declaration fixes of an item: everything but [value] and
    [use_default]. *)
Definition same_declaration (it it' : Parameter_Item) : Prop :=
  name it' = name it ∧ flag it' = flag it
  ∧ default_value it' = default_value it ∧ description it' = description it
  ∧ value_type_info it' = value_type_info it
  ∧ file_name it' = file_name it ∧ line_num it' = line_num it.

(** The argument given to a parameter: [true] for a [bool] parameter
    without one. *)
Definition argument_of (it : Parameter_Item) (optarg : option string) : string :=
  if bool_decide (value_type_info it = ti_bool)
     && bool_decide (default "" optarg = "")
  then "true" else default "" optarg.

(** The value [Set] is called with. *)
Definition new_value (it : Parameter_Item) (optarg : option string) : string :=
  if bool_decide (N.land (flag it) MULTI_VALUE = MULTI_VALUE)
     && negb (use_default it)
  then value it +:+ "," +:+ argument_of it optarg
  else argument_of it optarg.

(** What one option does to the registry: nothing, or [Set] on a
    declared name with a value that is valid for the parameter's type. *)
Lemma Parse_option_cases names num_options i optarg P cerr retval P' cerr' :
  Parse_option' names num_options i optarg P cerr = Some (retval, P', cerr') →
  retval = cudaSuccess
  ∧ (P' = P
     ∨ ∃ key it,
         p_map P !! key = Some it
         ∧ array_get names i = Some key
         ∧ isValidString' (new_value it optarg) (value_type_info it) 0 = Some true
         ∧ Set_ key (new_value it optarg) P = (cudaSuccess, P')).
Proof.
  unfold Parse_option. case_bool_decide; [intros [= <- <- <-]; by split; [|left]|].
  destruct (array_get names i) as [key|]; [|done]. simpl.
  destruct (p_map P !! key) as [it|] eqn:Hit; [|done]. simpl.
  fold (argument_of it optarg).
  destruct (_ && contains_comma _); [intros [= <- <- <-]; by split; [|left]|].
  assert ((if bool_decide (N.land (flag it) MULTI_VALUE = MULTI_VALUE)
              && negb (use_default it)
           then (value it +:+ "," +:+ argument_of it optarg,
                 (if bool_decide (N.land (flag it) SINGLE_VALUE = SINGLE_VALUE)
                     && negb (use_default it)
                  then cerr ++ [More_than_once_latter_effective
                                  (name it) (file_name it) (line_num it)
                                  (argument_of it optarg)]
                  else cerr)
                 ++ [More_than_once_appended (name it) (file_name it)
                       (line_num it) (argument_of it optarg)])
           else (argument_of it optarg,
                 if bool_decide (N.land (flag it) SINGLE_VALUE = SINGLE_VALUE)
                    && negb (use_default it)
                 then cerr ++ [More_than_once_latter_effective
                                 (name it) (file_name it) (line_num it)
                                 (argument_of it optarg)]
                 else cerr))
          = (new_value it optarg,
             (if bool_decide (N.land (flag it) SINGLE_VALUE = SINGLE_VALUE)
                 && negb (use_default it)
              then cerr ++ [More_than_once_latter_effective
                              (name it) (file_name it) (line_num it)
                              (argument_of it optarg)]
              else cerr)
             ++ (if bool_decide (N.land (flag it) MULTI_VALUE = MULTI_VALUE)
                    && negb (use_default it)
                 then [More_than_once_appended (name it) (file_name it)
                         (line_num it) (argument_of it optarg)]
                 else []))) as ->.
  { unfold new_value. destruct (_ && negb _); [done|]. by rewrite app_nil_r. }
  destruct (isValidString' _ _ _) as [[]|] eqn:Hvalid; simpl; [| |done].
  - unfold Set_ at 1. rewrite Hit. intros [= <- <- <-]. split; [done|].
    right. exists key, it. split_and!; try done. unfold Set_. by rewrite Hit.
  - intros [= <- <- <-]. by split; [|left].
Qed.

(** The registries related by some calls of [Set] on declared names. *)
Definition keeps_declarations (P P' : Parameters) : Prop :=
  summary P' = summary P
  ∧ ∀ key,
      match p_map P !! key, p_map P' !! key with
      | Some it, Some it' => same_declaration it it'
      | None, None => True
      | _, _ => False
      end.

Lemma keeps_declarations_refl P : keeps_declarations P P.
Proof.
  split; [done|]. intros key. destruct (p_map P !! key); [|done].
  by repeat split.
Qed.

Lemma keeps_declarations_trans P1 P2 P3 :
  keeps_declarations P1 P2 → keeps_declarations P2 P3 →
  keeps_declarations P1 P3.
Proof.
  intros [Hs1 H1] [Hs2 H2]. split; [congruence|]. intros key.
  specialize (H1 key). specialize (H2 key).
  destruct (p_map P1 !! key), (p_map P2 !! key), (p_map P3 !! key); try done.
  unfold same_declaration in *. intuition congruence.
Qed.

Lemma keeps_declarations_Set name value P P' :
  Set_ name value P = (cudaSuccess, P') → keeps_declarations P P'.
Proof.
  unfold Set_. destruct (p_map P !! name) as [it|] eqn:Hit; [|done].
  intros [= <-]. split; [done|]. intros key. simpl.
  destruct (decide (key = name)) as [->|Hne].
  - rewrite lookup_insert_eq, Hit. by repeat split.
  - rewrite lookup_insert_ne by done. destruct (p_map P !! key); [|done].
    by repeat split.
Qed.

Lemma built_Set_eq name value P P' :
  built P → Set_ name value P = (cudaSuccess, P') → built P'.
Proof.
  intros HP HS. replace P' with (Set_ name value P).2 by (by rewrite HS).
  by constructor.
Qed.

Lemma Parse_loop_invariant (I : Parameters → Prop) names num_options :
  (∀ i optarg P cerr retval P' cerr',
      I P →
      Parse_option' names num_options i optarg P cerr
      = Some (retval, P', cerr') →
      I P') →
  ∀ results P cerr retval P' cerr',
    I P →
    Parse_loop' names num_options results P cerr = Some (retval, P', cerr') →
    retval = cudaSuccess ∧ I P'.
Proof.
  intros Hstep. induction results as [|[i optarg] results IH];
    intros P cerr retval P' cerr' HP; simpl.
  - by intros [= <- <- <-].
  - destruct (bool_decide_reflect (i = question_mark)) as [Hq|Hq].
    { simpl. rewrite bool_decide_eq_true_2 by (rewrite Hq; done).
      by apply IH. }
    destruct (bool_decide_reflect (i = -1)) as [Hend|Hend].
    { simpl. rewrite bool_decide_eq_false_2 by (intros Hne; by apply Hne).
      by intros [= <- <- <-]. }
    destruct (Parse_option' names num_options i optarg P cerr)
      as [[[r P1] cerr1]|] eqn:Hopt; [|done]. simpl.
    destruct (Parse_option_cases _ _ _ _ _ _ _ _ _ Hopt) as [-> _]. simpl.
    rewrite bool_decide_eq_true_2 by done.
    apply IH. by eapply Hstep.
Qed.

(** X11.  [Parse_CommandLine] declares nothing and withdraws nothing: whatever
    [getopt] finds on the command line, the call that returns reports no
    error, and leaves every parameter with its declaration, the name,
    the flag, the default, the description, the type and the call site
    it had; only values and their [use_default] marks change.  A registry
    made by [Use] and [Set] is one after the call. *)
Theorem Parse_CommandLine_keeps_declarations :
  ∀ (results : list (Z * option string)) (P P' : Parameters)
    (retval : cudaError_t) (cerr : list cerr_message),
    Parse_CommandLine type_info_name floating strtol strtoul strtoll strtoull
                      strtof strtod strtold results P
    = Some (retval, P', cerr) →
    retval = cudaSuccess
    ∧ summary P' = summary P
    ∧ dom (p_map P') = dom (p_map P)
    ∧ (∀ key it it',
         p_map P !! key = Some it → p_map P' !! key = Some it' →
         same_declaration it it')
    ∧ (built P → built P').
Proof.
  intros results P P' retval cerr. unfold Parse_CommandLine.
  destruct (option_tables P) as [[[num_options long_options] names]|]; [|done].
  simpl. intros Hrun.
  assert (∀ I : Parameters → Prop,
            I P →
            (∀ name value P1 P2,
                I P1 → Set_ name value P1 = (cudaSuccess, P2) → I P2) →
            retval = cudaSuccess ∧ I P') as Hinv.
  { intros I HP HSet.
    eapply (Parse_loop_invariant I); [|exact HP|exact Hrun].
    intros i optarg P1 cerr1 r P2 cerr2 HP1 Hopt.
    destruct (Parse_option_cases _ _ _ _ _ _ _ _ _ Hopt)
      as [_ [->|(key & it & _ & _ & _ & HS)]]; [done|].
    by eapply HSet. }
  destruct (Hinv (keeps_declarations P) (keeps_declarations_refl P))
    as [-> [Hsum Hkeep]].
  { intros name value P1 P2 H1 HS.
    eapply keeps_declarations_trans; [exact H1|].
    by eapply keeps_declarations_Set. }
  split; [done|]. split; [done|]. split_and!.
  - apply set_eq. intros key. rewrite !elem_of_dom. specialize (Hkeep key).
    unfold is_Some.
    destruct (p_map P !! key), (p_map P' !! key); naive_solver.
  - intros key it it' Hit Hit'. specialize (Hkeep key).
    by rewrite Hit, Hit' in Hkeep.
  - intros HP. apply (Hinv built HP).
    intros name value P1 P2 H1 HS. by eapply built_Set_eq.
Qed.


(** The spellings [isValidString<bool>] accepts. *)
Definition bool_words : list (list ascii) :=
  [word ""; word "false"; word "true"; word "f"; word "t"; word "0"; word "1"].

(** X12.  Every value [Parse_CommandLine] gives a [bool] parameter is spelled
    as a [bool]: after the call, a [bool] parameter either is as it was
    before, or has [use_default] off and a value that, after white space,
    is one of "false", "true", "f", "t" (in either case), "0", "1" or
    empty.  In particular no [bool] parameter, [MULTI_VALUE] or not, ever
    collects a list of values: a second occurrence is rejected. *)
Theorem Parse_CommandLine_bool_values :
  ∀ (results : list (Z * option string)) (P P' : Parameters)
    (retval : cudaError_t) (cerr : list cerr_message)
    (key : string) (it' : Parameter_Item),
    Parse_CommandLine type_info_name floating strtol strtoul strtoll strtoull
                      strtof strtod strtold results P
    = Some (retval, P', cerr) →
    p_map P' !! key = Some it' →
    value_type_info it' = ti_bool →
    (strlen (value it') + 5 < 4294967296)%N →
    p_map P !! key = Some it'
    ∨ (use_default it' = false ∧ lower (body (value it')) ∈ bool_words).
Proof.
  intros results P P' retval cerr key it'. unfold Parse_CommandLine.
  destruct (option_tables P) as [[[num_options long_options] names]|]; [|done].
  simpl. intros Hrun.
  set (I := λ P1 : Parameters,
         ∀ key it', p_map P1 !! key = Some it' →
           value_type_info it' = ti_bool →
           (strlen (value it') + 5 < 4294967296)%N →
           p_map P !! key = Some it'
           ∨ (use_default it' = false
              ∧ lower (body (value it')) ∈ bool_words)).
  assert (I P') as HI; [|by apply HI].
  eapply (Parse_loop_invariant I); [| |exact Hrun].
  2:{ intros k it1 Hk _ _. by left. }
  clear. intros i optarg P1 cerr1 r P2 cerr2 HP1 Hopt.
  destruct (Parse_option_cases _ _ _ _ _ _ _ _ _ Hopt)
    as [_ [->|(key0 & it0 & Hit0 & _ & Hvalid & HS)]]; [done|].
  unfold Set_ in HS. rewrite Hit0 in HS. injection HS as <-.
  intros key it'. simpl. destruct (decide (key = key0)) as [->|Hne].
  - rewrite lookup_insert_eq. intros [= <-]. simpl. intros Hty Hbound.
    right. split; [done|]. rewrite Hty in Hvalid.
    unfold isValidString in Hvalid. simpl in Hvalid.
    rewrite isValidString_bool_spec in Hvalid by done.
    injection Hvalid as Hvalid. by apply bool_decide_eq_true_1 in Hvalid.
  - rewrite lookup_insert_ne by done. apply HP1.
Qed.

(** X13.  An option given twice.  For a string parameter that has not been set
    before, two occurrences on the command line, with the arguments [a]
    and [b], leave the value ["a,b"] when the parameter is [MULTI_VALUE]
    and the value [b] when it is not; for a [SINGLE_VALUE] parameter
    this needs arguments without a comma. *)
Theorem Parse_CommandLine_option_given_twice :
  ∀ (P : Parameters) (j : nat) (key : string) (it : Parameter_Item)
    (a b : string),
    Z.of_nat (size (p_map P)) + 2 ≤ Types.INT_MAX →
    built P →
    entries P !! j = Some (key, it) →
    value_type_info it = ti_string →
    use_default it = true →
    (N.land (flag it) SINGLE_VALUE = SINGLE_VALUE →
     contains_comma a = false ∧ contains_comma b = false) →
    ∃ P' cerr it',
      Parse_CommandLine type_info_name floating strtol strtoul strtoll strtoull
                        strtof strtod strtold
                        [(option_code j, Some a); (option_code j, Some b)] P
      = Some (cudaSuccess, P', cerr)
      ∧ p_map P' !! key = Some it'
      ∧ value it'
        = (if bool_decide (N.land (flag it) MULTI_VALUE = MULTI_VALUE)
           then a +:+ "," +:+ b else b)
      ∧ use_default it' = false.
Proof.
  intros P j key it a b Hsize HP Hj Hty Hdef Hcomma.
  destruct (option_tables_spec P Hsize)
    as (long_options & names & Htab & _ & _ & _ & Hcodes).
  destruct (Hcodes j _ Hj) as (_ & Hname & Hq & Hguard & _). simpl in Hname.
  assert (p_map P !! key = Some it) as Hit.
  { apply entries_lookup. by eapply list_elem_of_lookup_2. }
  rewrite (built_keyed P HP key it Hit) in Hname.
  unfold Parse_CommandLine. rewrite Htab. simpl.
  rewrite (bool_decide_eq_false_2 (option_code j = question_mark)) by done.
  assert (option_code j ≠ -1) as Hend by lia.
  rewrite (bool_decide_eq_false_2 (option_code j = -1)) by done.
  rewrite (bool_decide_eq_true_2 (option_code j ≠ -1)) by done.
  assert (∀ (P1 : Parameters) it1 cerr1 arg,
            p_map P1 !! key = Some it1 →
            value_type_info it1 = ti_string →
            (N.land (flag it1) SINGLE_VALUE = SINGLE_VALUE →
             contains_comma arg = false) →
            ∃ cerr2,
              Parse_option' names (Z.of_nat (size (p_map P))) (option_code j)
                            (Some arg) P1 cerr1
              = Some (Set_ key (new_value it1 (Some arg)) P1, cerr2)
              ∧ new_value it1 (Some arg)
                = if bool_decide (N.land (flag it1) MULTI_VALUE = MULTI_VALUE)
                     && negb (use_default it1)
                  then value it1 +:+ "," +:+ arg else arg) as Hstep.
  { intros P1 it1 cerr1 arg Hit1 Hty1 Hc1.
    unfold Parse_option. rewrite bool_decide_eq_false_2 by lia.
    rewrite Hname. simpl. rewrite Hit1. simpl. rewrite Hty1. simpl.
    assert (bool_decide (N.land (flag it1) SINGLE_VALUE = SINGLE_VALUE)
            && contains_comma arg = false) as ->.
    { destruct (bool_decide_reflect
                  (N.land (flag it1) SINGLE_VALUE = SINGLE_VALUE)) as [Hs|Hs];
        simpl; [by apply Hc1|done]. }
    assert (new_value it1 (Some arg)
            = if bool_decide (N.land (flag it1) MULTI_VALUE = MULTI_VALUE)
                 && negb (use_default it1)
              then value it1 +:+ "," +:+ arg else arg) as Hnew.
    { unfold new_value, argument_of. by rewrite Hty1. }
    rewrite Hnew.
    destruct (bool_decide (N.land (flag it1) MULTI_VALUE = MULTI_VALUE)
              && negb (use_default it1)).
    - rewrite isValidString_string by (by left). simpl.
      destruct (Set_ key _ P1) as [r P2] eqn:HS. by eexists.
    - rewrite isValidString_string by (by left). simpl.
      destruct (Set_ key _ P1) as [r P2] eqn:HS. by eexists. }
  destruct (Hstep P it [] a Hit Hty) as (cerr1 & -> & Hnew1).
  { intros Hs. by apply Hcomma. }
  rewrite Hdef, andb_false_r in Hnew1. rewrite Hnew1.
  unfold Set_ at 1. rewrite Hit. simpl.
  set (it1 := mkItem (name it) (flag it) (default_value it) (description it) a
                     false (value_type_info it) (file_name it) (line_num it)).
  set (P1 := mkParameters (<[key := it1]> (p_map P)) (summary P)).
  assert (p_map P1 !! key = Some it1) as Hit1 by apply lookup_insert_eq.
  destruct (Hstep P1 it1 cerr1 b Hit1 Hty) as (cerr2 & -> & Hnew2).
  { intros Hs. by apply Hcomma. }
  rewrite Hnew2. unfold Set_ at 1. rewrite Hit1. simpl.
  eexists _, _, _. split; [reflexivity|]. simpl.
  split; [apply lookup_insert_eq|]. simpl. split; [|done].
  by rewrite andb_true_r.
Qed.


(** The warnings a repeated option draws. *)
Definition repeat_warnings (it : Parameter_Item) (optarg : option string)
  : list cerr_message :=
  (if bool_decide (N.land (flag it) SINGLE_VALUE = SINGLE_VALUE)
      && negb (use_default it)
   then [More_than_once_latter_effective (name it) (file_name it) (line_num it)
           (argument_of it optarg)]
   else [])
  ++ (if bool_decide (N.land (flag it) MULTI_VALUE = MULTI_VALUE)
         && negb (use_default it)
      then [More_than_once_appended (name it) (file_name it) (line_num it)
              (argument_of it optarg)]
      else []).

(** One option on the command line, the one of the [j]-th parameter. *)
Lemma Parse_CommandLine_one_option P j key it optarg :
  Z.of_nat (size (p_map P)) + 2 ≤ Types.INT_MAX →
  built P →
  entries P !! j = Some (key, it) →
  Parse_CommandLine' [(option_code j, optarg)] P
  = if bool_decide (N.land (flag it) SINGLE_VALUE = SINGLE_VALUE)
       && contains_comma (argument_of it optarg)
    then Some (cudaSuccess, P,
               [Only_takes_single_argument (name it) (file_name it)
                                           (line_num it)])
    else
      valid ← isValidString' (new_value it optarg) (value_type_info it) 0;
      if valid : bool
      then Some (Set_ key (new_value it optarg) P, repeat_warnings it optarg)
      else Some (cudaSuccess, P,
                 repeat_warnings it optarg
                 ++ [Only_takes_in (name it) (file_name it) (line_num it)
                       (TypeName type_info_name (value_type_info it))
                       (new_value it optarg)]).
Proof.
  intros Hsize HP Hj.
  destruct (option_tables_spec P Hsize)
    as (long_options & names & Htab & _ & _ & _ & Hcodes).
  destruct (Hcodes j _ Hj) as (_ & Hname & Hq & Hguard & _). simpl in Hname.
  assert (p_map P !! key = Some it) as Hit.
  { apply entries_lookup. by eapply list_elem_of_lookup_2. }
  rewrite (built_keyed P HP key it Hit) in Hname.
  unfold Parse_CommandLine. rewrite Htab. simpl.
  rewrite (bool_decide_eq_false_2 (option_code j = question_mark)) by done.
  assert (option_code j ≠ -1) as Hend by lia.
  rewrite (bool_decide_eq_false_2 (option_code j = -1)) by done.
  rewrite (bool_decide_eq_true_2 (option_code j ≠ -1)) by done.
  unfold Parse_option. rewrite bool_decide_eq_false_2 by lia.
  rewrite Hname. simpl. rewrite Hit. simpl.
  fold (argument_of it optarg).
  destruct (_ && contains_comma _); [done|].
  unfold repeat_warnings, new_value.
  destruct (bool_decide (N.land (flag it) MULTI_VALUE = MULTI_VALUE)
            && negb (use_default it));
    destruct (bool_decide (N.land (flag it) SINGLE_VALUE = SINGLE_VALUE)
              && negb (use_default it)); simpl;
    (destruct (isValidString' _ _ _) as [[]|]; simpl; [|done|done]);
    unfold Set_; rewrite Hit; done.
Qed.

(** X14.  A switch.  A [bool] parameter that has not been set and is named on
    the command line without an argument gets the value "true", with no
    message. *)
Theorem Parse_CommandLine_bool_switch :
  ∀ (P : Parameters) (j : nat) (key : string) (it : Parameter_Item),
    Z.of_nat (size (p_map P)) + 2 ≤ Types.INT_MAX →
    built P →
    entries P !! j = Some (key, it) →
    value_type_info it = ti_bool →
    use_default it = true →
    Parse_CommandLine type_info_name floating strtol strtoul strtoll strtoull
                      strtof strtod strtold [(option_code j, None)] P
    = Some (Set_ key "true" P, [])
    ∧ (Set_ key "true" P).1 = cudaSuccess
    ∧ ∀ out, Get key out (Set_ key "true" P).2 = (cudaSuccess, "true").
Proof.
  intros P j key it Hsize HP Hj Hty Hdef.
  assert (p_map P !! key = Some it) as Hit.
  { apply entries_lookup. by eapply list_elem_of_lookup_2. }
  rewrite (Parse_CommandLine_one_option P j key it None Hsize HP Hj).
  unfold new_value, repeat_warnings, argument_of.
  rewrite Hty, Hdef, !andb_false_r. simpl. split; [done|].
  unfold Set_, Get. rewrite Hit. simpl. by rewrite lookup_insert_eq.
Qed.

(** X15.  A [SINGLE_VALUE] parameter does not take a list: an argument with a
    comma is refused with a message on [std::cerr], the registry stays
    as it was, and the status is still [cudaSuccess]. *)
Theorem Parse_CommandLine_single_value_refuses_a_list :
  ∀ (P : Parameters) (j : nat) (key : string) (it : Parameter_Item)
    (argument : string),
    Z.of_nat (size (p_map P)) + 2 ≤ Types.INT_MAX →
    built P →
    entries P !! j = Some (key, it) →
    N.land (flag it) SINGLE_VALUE = SINGLE_VALUE →
    contains_comma argument = true →
    Parse_CommandLine type_info_name floating strtol strtoul strtoll strtoull
                      strtof strtod strtold
                      [(option_code j, Some argument)] P
    = Some (cudaSuccess, P,
            [Only_takes_single_argument (name it) (file_name it)
                                        (line_num it)]).
Proof.
  intros P j key it argument Hsize HP Hj Hsingle Hcomma.
  rewrite (Parse_CommandLine_one_option P j key it _ Hsize HP Hj).
  rewrite bool_decide_eq_true_2 by done.
  assert (argument_of it (Some argument) = argument) as ->.
  { unfold argument_of. simpl.
    destruct argument; [done|]. by rewrite andb_false_r. }
  by rewrite Hcomma.
Qed.

(** X16.  Options the table does not hold.  For an option it does not know
    [getopt_long_only] returns ['?'], having reported the option on the
    standard error itself (the code leaves [opterr] set).  The loop of
    [Parse_CommandLine] goes on to the next option: a command line of
    unknown options only ends in [cudaSuccess] with the registry as it
    was, and [Parse_CommandLine] adds no message of its own to what
    [getopt_long_only] wrote. *)
Theorem Parse_CommandLine_passes_over_unknown_options :
  ∀ (results : list (Z * option string)) (P : Parameters),
    Z.of_nat (size (p_map P)) + 2 ≤ Types.INT_MAX →
    Forall (λ result, result.1 = question_mark) results →
    Parse_CommandLine type_info_name floating strtol strtoul strtoll strtoull
                      strtof strtod strtold results P
    = Some (cudaSuccess, P, []).
Proof.
  intros results P Hsize Hunknown.
  destruct (option_tables_spec P Hsize) as (long_options & names & Htab & _).
  unfold Parse_CommandLine. rewrite Htab. simpl.
  induction Hunknown as [|[i optarg] results Hi _ IH]; [done|].
  simpl in Hi. subst i. simpl. exact IH.
Qed.

End ParseCommandLine.

(** ** The help text *)

Section HelpText.
Import Util TypeParse CommandLine.

Variable type_info_name : type_info → string.





End HelpText.

(** ** The lines of [Display] *)

Section DisplayLines.
Import Memory.

Variable HAS_EDGE_VALUES : bool.

(** One entry of a neighbor list as [Display] writes it. *)
Definition Display_entry (g : Csc.CscT) (with_edge_values : bool) (edge : Z)
  : string :=
  "[" +:+ Csc.to_string (read (Csc.row_indices g) edge)
  +:+ (if with_edge_values && HAS_EDGE_VALUES
       then "," +:+ Csc.to_string (read (Csc.edge_values g) edge) else "")
  +:+ "]".

Lemma string_app_assoc (a b c : string) : (a +:+ b) +:+ c = a +:+ b +:+ c.
Proof.
  induction a as [|x a IH]; [done|].
  change (String x ((a +:+ b) +:+ c) = String x (a +:+ b +:+ c)).
  by rewrite IH.
Qed.

Lemma string_app_nil_r (a : string) : a +:+ "" = a.
Proof.
  induction a as [|x a IH]; [done|].
  change (String x (a +:+ "") = String x a). by rewrite IH.
Qed.

Lemma string_app_nil_l (a : string) : "" +:+ a = a.
Proof. done. Qed.

Lemma Display_edges_step g with_edge_values lo hi edge todo str :
  edge - lo ≤ 40 →
  Csc.Display_edges HAS_EDGE_VALUES g with_edge_values lo hi (edge :: todo) str
  = Csc.Display_edges HAS_EDGE_VALUES g with_edge_values lo hi todo
      (str +:+ Display_entry g with_edge_values edge
       +:+ (if bool_decide (edge - lo ≠ 40 ∧ edge ≠ hi - 1) then ", " else "")).
Proof.
  intros Hcap. cbn [Csc.Display_edges].
  rewrite bool_decide_eq_false_2 by lia. f_equal.
  unfold Display_entry.
  destruct (with_edge_values && HAS_EDGE_VALUES),
    (bool_decide (edge - lo ≠ 40 ∧ edge ≠ hi - 1));
    rewrite !string_app_assoc, ?string_app_nil_l; reflexivity.
Qed.

Lemma concat_cons_cons (sep x y : string) (l : list string) :
  String.concat sep (x :: y :: l) = x +:+ sep +:+ String.concat sep (y :: l).
Proof. done. Qed.

Lemma Display_edges_concat g with_edge_values lo hi (n : nat) a str :
  lo ≤ a →
  a + Z.of_nat n - 1 ≤ hi - 1 →
  a + Z.of_nat n - 1 ≤ lo + 40 →
  (a + Z.of_nat n - 1 = hi - 1 ∨ a + Z.of_nat n - 1 = lo + 40 ∨ n = 0%nat) →
  Csc.Display_edges HAS_EDGE_VALUES g with_edge_values lo hi
    (seqZ a (Z.of_nat n)) str
  = str +:+ String.concat ", "
              (Display_entry g with_edge_values <$> seqZ a (Z.of_nat n)).
Proof.
  revert a str. induction n as [|n IH]; intros a str Hlo Hhi Hcap Hlast.
  - simpl. by rewrite string_app_nil_r.
  - rewrite seqZ_cons by lia.
    replace (Z.pred (Z.of_nat (S n))) with (Z.of_nat n) by lia.
    rewrite Display_edges_step by lia. rewrite IH by lia.
    rewrite fmap_cons. destruct n as [|n].
    + rewrite bool_decide_eq_false_2 by lia. simpl.
      by rewrite !string_app_nil_r.
    + rewrite bool_decide_eq_true_2 by lia.
      rewrite (seqZ_cons (Z.succ a)) by lia. rewrite fmap_cons.
      rewrite concat_cons_cons. by rewrite !string_app_assoc.
Qed.

(** X18.  What [Display] prints: the status is [cudaSuccess]; after the header
    there is one line for each of the first [nodes_to_show] vertices, or
    for all vertices if there are fewer, and none for a negative count;
    the line of a vertex holds the entries of its neighbor list at the
    offsets 0 to 40, that is the whole list up to 41 neighbors and the
    first 41 of a longer one, separated by commas, then "..." when the
    list has more than 40 entries, then the vertex and its offset. *)
Theorem Display_lines :
  ∀ (graph_prefix : string) (nodes_to_show : Z) (with_edge_values : bool)
    (g : Csc.CscT),
    ∃ header,
      Csc.Display HAS_EDGE_VALUES graph_prefix nodes_to_show with_edge_values g
      = (cudaSuccess,
         header
         :: ((λ node,
                let lo := read (Csc.column_offsets g) node in
                let hi := read (Csc.column_offsets g) (node + 1) in
                String.concat ", "
                  (Display_entry g with_edge_values
                   <$> seqZ lo (Z.min (hi - lo) 41))
                +:+ (if bool_decide (hi - lo > 40) then "..." else "")
                +:+ " : v " +:+ Csc.to_string node +:+ " "
                +:+ Csc.to_string lo)
             <$> seqZ 0 (Z.min nodes_to_show (Csc.nodes g)))).
Proof.
  intros graph_prefix nodes_to_show with_edge_values g.
  eexists. unfold Csc.Display. f_equal. f_equal.
  assert ((if bool_decide (nodes_to_show > Csc.nodes g)
           then Csc.nodes g else nodes_to_show)
          = Z.min nodes_to_show (Csc.nodes g)) as ->.
  { case_bool_decide; lia. }
  apply list_fmap_ext. intros _ node _. unfold Csc.Display_node.
  set (lo := read (Csc.column_offsets g) node).
  set (hi := read (Csc.column_offsets g) (node + 1)).
  cbv zeta.
  destruct (bool_decide_reflect (hi - lo > 40)) as [Hmany|Hfew].
  - rewrite Display_edges_visits_41 by done.
    rewrite Z.min_r by lia.
    change 41 with (Z.of_nat 41).
    rewrite (Display_edges_concat g with_edge_values lo hi 41 lo "")
      by lia.
    rewrite ?string_app_nil_l, ?string_app_assoc. reflexivity.
  - destruct (decide (hi - lo ≤ 0)) as [Hnone|Hsome].
    + rewrite Z.min_l by lia. rewrite !seqZ_nil by lia. reflexivity.
    + rewrite Z.min_l by lia.
      rewrite <- (Z2Nat.id (hi - lo)) by lia.
      rewrite (Display_edges_concat g with_edge_values lo hi _ lo "") by lia.
      rewrite ?string_app_nil_l, ?string_app_assoc, ?string_app_nil_l.
      reflexivity.
Qed.

End DisplayLines.

(** ** The graph [FromCoo] builds *)

Section BuiltGraph.
Import Memory.

Variables HAS_EDGE_VALUES HAS_NODE_VALUES : bool.

(** X19.  A successful [FromCoo] on a well-formed COO graph leaves a
    well-formed CSC graph: the counts and the direction are those of the
    source, [row_indices] has one entry for every edge and each entry is
    a vertex, the values are as many as the edges, [column_offsets] has
    [nodes + 1] entries that begin with 0. *)
Theorem FromCoo_builds_a_well_formed_graph :
  ∀ (source : Coo.CooT) (g : Csc.CscT) (m : Memory)
    (g1 : Csc.CscT) (source1 : Coo.CooT) (m1 : Memory),
    Coo.well_formed HAS_EDGE_VALUES source →
    Csc.FromCoo HAS_EDGE_VALUES HAS_NODE_VALUES source g m
    = (cudaSuccess, g1, source1, m1) →
    Csc.nodes g1 = Coo.nodes source
    ∧ Csc.edges g1 = Coo.edges source
    ∧ Csc.directed g1 = Coo.directed source
    ∧ Z.of_nat (length (data (Csc.row_indices g1))) = Coo.edges source
    ∧ Forall (λ r, 0 ≤ r < Coo.nodes source) (data (Csc.row_indices g1))
    ∧ (HAS_EDGE_VALUES = true →
       Z.of_nat (length (data (Csc.edge_values g1))) = Coo.edges source)
    ∧ Z.of_nat (length (data (Csc.column_offsets g1))) = Coo.nodes source + 1
    ∧ read (Csc.column_offsets g1) 0 = 0.
Proof.
  intros source g m g1 source1 m1 Hwf HF.
  pose proof Hwf as (Hn & He & Hv & Hrange).
  destruct (FromCoo_success _ _ _ _ _ _ _ _ Hwf HF)
    as (Hnodes & Hedges & Hdir & Hperm & Hsorted & Htup & Hrow & Hval & Hlen
        & Hoff).
  assert (length (Coo.edge_pairs source1) = length (Coo.edge_pairs source))
    as Hplen by (by rewrite Hperm).
  assert (Forall (λ e, 0 ≤ Coo.x e < Coo.nodes source
                       ∧ 0 ≤ Coo.y e < Coo.nodes source)
                 (Coo.edge_pairs source1)) as Hrange1.
  { by rewrite Hperm. }
  split_and!; try done.
  - rewrite Hrow, length_fmap. lia.
  - rewrite Hrow, Forall_fmap. eapply Forall_impl; [exact Hrange1|].
    simpl. tauto.
  - intros HE. destruct (Hval HE) as [-> Hvl]. lia.
  - rewrite Hlen. lia.
  - apply read_lookup. rewrite (Hoff 0) by lia.
    rewrite (count_below_none Coo.y 0); [done|].
    eapply Forall_impl; [exact Hrange1|]. simpl. tauto.
Qed.

(** X20.  [FromCoo] ends with the first of its steps that fails, the
    allocation, the ordering of the source, the copy of the row indices,
    the copy of the values or the computation of the offsets: its status
    is that step's, and the graph, the source and the memory are as that
    step left them, no later step having run. *)
Theorem FromCoo_stops_at_the_first_error :
  ∀ (source : Coo.CooT) (g : Csc.CscT) (m : Memory) (k : nat)
    (f : convert_state → cudaError_t * convert_state)
    (s_k : convert_state) (retval : cudaError_t) (s_fail : convert_state),
    FromCoo_steps HAS_EDGE_VALUES HAS_NODE_VALUES !! k = Some f →
    all_succeed (take k (FromCoo_steps HAS_EDGE_VALUES HAS_NODE_VALUES))
                (FromCoo_start source g m) = Some s_k →
    f s_k = (retval, s_fail) →
    is_error retval = true →
    Csc.FromCoo HAS_EDGE_VALUES HAS_NODE_VALUES source g m
    = (retval, s_fail.1.1, s_fail.1.2, s_fail.2).
Proof.
  intros source g m k f s_k retval s_fail Hk Hpre Hf Herr.
  rewrite FromCoo_until_error.
  by rewrite (until_error_first _ _ _ _ _ _ _ Hk Hpre Hf Herr).
Qed.

End BuiltGraph.

(** ** The BFS functor on one edge *)

Section FunctorOnAnEdge.
Import BFSFunctor.

Variable MARK_PREDECESSORS : bool.
Variables INVALID_NODE_ID INVALID_NODE_VALUE INVALID_PREDECESSOR_ID : Z.

Local Abbreviation CondEdge' :=
  (CondEdge MARK_PREDECESSORS INVALID_NODE_VALUE INVALID_PREDECESSOR_ID).
Local Abbreviation ApplyEdge' := (ApplyEdge MARK_PREDECESSORS).

(** The array [CondEdge] claims a vertex in, and the value that marks a
    vertex as not yet claimed. *)
Definition claimed_in (p : DataSlice) : list Z :=
  if MARK_PREDECESSORS then d_preds p else d_labels p.
Definition not_claimed : Z :=
  if MARK_PREDECESSORS then INVALID_PREDECESSOR_ID else INVALID_NODE_VALUE.

(** X21.  A vertex that has been claimed stays as it is: [CondEdge] on a
    destination whose cell does not hold the sentinel returns false and
    changes neither array. *)
Theorem CondEdge_rejects_a_claimed_vertex :
  ∀ (s_id d_id : Z) (p : DataSlice) (old : Z),
    load (claimed_in p) d_id = Some old →
    old ≠ not_claimed →
    CondEdge MARK_PREDECESSORS INVALID_NODE_VALUE INVALID_PREDECESSOR_ID
             s_id d_id p
    = Some (false, p).
Proof.
  intros s_id d_id p old Hload Hold.
  assert (∀ arr val,
            load arr d_id = Some old → old ≠ not_claimed →
            atomicCAS arr d_id not_claimed val = Some (old, arr)) as Hcas.
  { intros arr val Hl Hne. apply atomicCAS_Some. split; [done|].
    rewrite bool_decide_eq_false_2 by done.
    pose proof (load_in_range _ _ _ Hl) as Hrange.
    apply load_Some in Hl as [_ Hlook].
    apply store_Some. split; [done|]. by rewrite list_insert_id. }
  unfold CondEdge, claimed_in, not_claimed in *.
  destruct MARK_PREDECESSORS; rewrite (Hcas _ _ Hload Hold); simpl;
    rewrite bool_decide_eq_false_2 by done; by destruct p.
Qed.

(** The slices that differ at most in the cells of [d_id]. *)
Definition same_but_at (d_id : Z) (p p' : DataSlice) : Prop :=
  length (d_labels p') = length (d_labels p)
  ∧ length (d_preds p') = length (d_preds p)
  ∧ ∀ i, i ≠ d_id →
      load (d_labels p') i = load (d_labels p) i
      ∧ load (d_preds p') i = load (d_preds p) i.

(** X22.  [CondEdge] and [ApplyEdge] write one cell: whatever they return, the
    arrays keep their lengths and every cell of [d_labels] and [d_preds]
    other than that of the destination is as before.  [CondEdge] leaves
    the array it does not claim in untouched, and [ApplyEdge] never
    writes [d_preds]. *)
Theorem functor_writes_the_destination_only :
  ∀ (s_id d_id : Z) (p : DataSlice),
    (∀ result p',
        CondEdge MARK_PREDECESSORS INVALID_NODE_VALUE INVALID_PREDECESSOR_ID
                 s_id d_id p = Some (result, p') →
        same_but_at d_id p p'
        ∧ (if MARK_PREDECESSORS then d_labels p' = d_labels p
           else d_preds p' = d_preds p))
    ∧ (∀ p',
        ApplyEdge MARK_PREDECESSORS s_id d_id p = Some p' →
        same_but_at d_id p p' ∧ d_preds p' = d_preds p).
Proof.
  intros s_id d_id p.
  assert (∀ arr arr' v, store arr d_id v = Some arr' →
            length arr' = length arr
            ∧ ∀ i, i ≠ d_id → load arr' i = load arr i) as Hstore.
  { intros arr arr' v Hs. split.
    - apply store_Some in Hs as [_ ->]. by rewrite length_insert.
    - intros i Hi. rewrite (load_store _ _ _ _ i Hs).
      by rewrite bool_decide_eq_false_2. }
  unfold same_but_at. split.
  - intros result p' HC. unfold CondEdge in HC. destruct MARK_PREDECESSORS.
    + destruct (atomicCAS _ _ _ _) as [[old preds]|] eqn:Hcas; [|done].
      injection HC as _ <-. simpl.
      apply atomicCAS_Some in Hcas as [_ Hs].
      destruct (Hstore _ _ _ Hs) as [Hl Hf]. split_and!; try done.
      intros i Hi. split; [done|by apply Hf].
    + destruct (atomicCAS _ _ _ _) as [[old labels]|] eqn:Hcas; [|done].
      injection HC as _ <-. simpl.
      apply atomicCAS_Some in Hcas as [_ Hs].
      destruct (Hstore _ _ _ Hs) as [Hl Hf]. split_and!; try done.
      intros i Hi. split; [by apply Hf|done].
  - intros p' HA. unfold ApplyEdge, ApplyEdge_load, ApplyEdge_store in HA.
    destruct MARK_PREDECESSORS; [|by injection HA as <-].
    destruct (load _ s_id) as [v|]; [|done]. simpl in HA.
    destruct (store _ _ _) as [labels|] eqn:Hs; [|done].
    injection HA as <-. simpl.
    destruct (Hstore _ _ _ Hs) as [Hl Hf]. split_and!; try done.
    intros i Hi. split; [by apply Hf|done].
Qed.

End FunctorOnAnEdge.

(** X23.  With predecessor tracking, the first visit of a vertex records where
    it was reached from and how deep it lies: when [d_preds[d_id]] holds
    the sentinel, [CondEdge] returns true and [ApplyEdge] after it
    succeeds, and then
    [d_preds[d_id]] is the source and [d_labels[d_id]] is the label of
    the source plus one (in [int] arithmetic), all other cells being as
    before. *)
Theorem CondEdge_then_ApplyEdge :
  ∀ (INVALID_NODE_VALUE INVALID_PREDECESSOR_ID s_id d_id : Z)
    (p : BFSFunctor.DataSlice) (depth old_label : Z),
    load (BFSFunctor.d_preds p) d_id = Some INVALID_PREDECESSOR_ID →
    load (BFSFunctor.d_labels p) d_id = Some old_label →
    load (BFSFunctor.d_labels p) s_id = Some depth →
    ∃ p1 p2,
      BFSFunctor.CondEdge true INVALID_NODE_VALUE INVALID_PREDECESSOR_ID
                          s_id d_id p = Some (true, p1)
      ∧ BFSFunctor.ApplyEdge true s_id d_id p1 = Some p2
      ∧ BFSFunctor.d_preds p2
        = <[Z.to_nat d_id := s_id]> (BFSFunctor.d_preds p)
      ∧ BFSFunctor.d_labels p2
        = <[Z.to_nat d_id := Types.int_add depth 1]> (BFSFunctor.d_labels p).
Proof.
  intros inv_value inv_pred s d p depth old_label Hpred Hlabel Hsource.
  pose proof (load_in_range _ _ _ Hpred) as Hdp.
  pose proof (load_in_range _ _ _ Hlabel) as Hdl.
  unfold BFSFunctor.CondEdge, atomicCAS. rewrite Hpred. simpl.
  rewrite !bool_decide_eq_true_2 by done.
  unfold store at 1. rewrite bool_decide_eq_true_2 by lia. simpl.
  rewrite (bool_decide_eq_true_2 (inv_pred = inv_pred)) by done.
  eexists _, _. split; [reflexivity|].
  unfold BFSFunctor.ApplyEdge, BFSFunctor.ApplyEdge_load,
    BFSFunctor.ApplyEdge_store. simpl. rewrite Hsource. simpl.
  unfold store. rewrite bool_decide_eq_true_2 by lia. simpl.
  by split_and!.
Qed.


(** ** Sample inputs *)

(** A registry with a switch, a required parameter and a list. *)
Definition sample_registry : Util.Parameters :=
  let P := Util.new_Parameters "test <graph-type> [optional arguments]" in
  let P :=
    (Util.Use "quick"
       (Util.NO_ARGUMENT + Util.SINGLE_VALUE + Util.OPTIONAL_PARAMETER)%N
       "0" "quick mode" Util.ti_bool "app.cu" 10 P).2 in
  let P :=
    (Util.Use "src"
       (Util.REQUIRED_ARGUMENT + Util.MULTI_VALUE + Util.OPTIONAL_PARAMETER)%N
       "" "source vertices" Util.ti_string "app.cu" 11 P).2 in
  (Util.Use "graph"
     (Util.REQUIRED_ARGUMENT + Util.SINGLE_VALUE + Util.REQUIRED_PARAMETER)%N
     "" "input graph" Util.ti_string "app.cu" 12 P).2.

Lemma sample_registry_built : built sample_registry.
Proof. unfold sample_registry. repeat apply built_Use. apply built_new. Qed.

(** Conversions that read their whole argument. *)
Definition sample_type_info_name (t_info : Util.type_info) : string :=
  match t_info with Util.ti_other name => name | _ => "" end.
Definition sample_strtol (str : string) (base : Z) : Z * N :=
  (0, TypeParse.strlen str).
Definition sample_strtod (str : string) : unit * N :=
  (tt, TypeParse.strlen str).

Lemma TypeName_unsigned_long_long_is_unreachable_witness :
  TypeParse.TypeName (λ _, "unsigned long long") Util.ti_unsigned_long_long
  = "unsigned long long"
  ∧ (λ _ : Util.type_info, "unsigned long long") Util.ti_unsigned_long_long
    = "unsigned long long".
Proof.
  split; [reflexivity|].
  apply (TypeName_unsigned_long_long_is_unreachable
           (λ _, "unsigned long long") Util.ti_unsigned_long_long).
  reflexivity.
Defined.

Lemma List_is_the_values_witness :
  CommandLine.List sample_registry !! "quick" = Some "0"
  ∧ CommandLine.List sample_registry !! "slow" = None.
Proof.
  split.
  - rewrite (proj1 (List_is_the_values sample_registry "quick"
                      sample_registry_built)).
    reflexivity.
  - rewrite (proj1 (List_is_the_values sample_registry "slow"
                      sample_registry_built)).
    reflexivity.
Defined.

Lemma Use_after_Set_restores_the_default_witness :
  ∃ P2,
    Util.Set_ "quick" "1" registry_with_quick = (cudaSuccess, P2)
    ∧ (∀ out, Util.Get "quick" out P2 = (cudaSuccess, "1"))
    ∧ Util.Use "quick" Util.OPTIONAL_ARGUMENT "0" "quick mode" Util.ti_int
               "app.cu" 10 P2
      = (cudaSuccess, registry_with_quick).
Proof.
  apply (Use_after_Set_restores_the_default "quick" Util.OPTIONAL_ARGUMENT "0"
           "quick mode" Util.ti_int "app.cu" 10 (Util.new_Parameters "test")
           registry_with_quick "1").
  reflexivity.
Defined.

(** Three required parameters without a value, declared out of order. *)
Definition registry_three_required : Util.Parameters :=
  let P := Util.new_Parameters "test" in
  let P :=
    (Util.Use "zeta"
       (Util.REQUIRED_ARGUMENT + Util.SINGLE_VALUE + Util.REQUIRED_PARAMETER)%N
       "" "third" Util.ti_string "app.cu" 20 P).2 in
  let P :=
    (Util.Use "alpha"
       (Util.REQUIRED_ARGUMENT + Util.SINGLE_VALUE + Util.REQUIRED_PARAMETER)%N
       "" "first" Util.ti_string "app.cu" 21 P).2 in
  (Util.Use "both"
     (Util.REQUIRED_ARGUMENT + Util.SINGLE_VALUE + Util.REQUIRED_PARAMETER)%N
     "" "second" Util.ti_string "app.cu" 22 P).2.

Lemma registry_three_required_built : built registry_three_required.
Proof.
  unfold registry_three_required. repeat apply built_Use. apply built_new.
Qed.

Lemma Check_Required_after_Set_witness :
  (Util.Check_Required registry_three_required).2
  = [Util.Required_not_present "alpha" "app.cu" 21;
     Util.Required_not_present "both" "app.cu" 22;
     Util.Required_not_present "zeta" "app.cu" 20]
  ∧ (Util.Check_Required (Util.Set_ "both" "1" registry_three_required).2).2
    = [Util.Required_not_present "alpha" "app.cu" 21;
       Util.Required_not_present "zeta" "app.cu" 20].
Proof.
  split; [by vm_compute|].
  rewrite (Check_Required_after_Set registry_three_required
             (Util.Set_ "both" "1" registry_three_required).2 "both" "1").
  - by vm_compute.
  - exact registry_three_required_built.
  - reflexivity.
  - discriminate.
Defined.

Lemma option_tables_codes_witness :
  ∃ long_options names,
    CommandLine.option_tables sample_registry = Some (3, long_options, names)
    ∧ CommandLine.array_get names 3 = Some "src".
Proof.
  destruct (option_tables_codes sample_registry)
    as (long_options & names & Htab & _ & _ & _ & Hcodes).
  - by vm_compute.
  - exists long_options, names. split; [exact Htab|].
    destruct (Hcodes 2%nat
                ("src",
                 declared_item "src"
                   (Util.REQUIRED_ARGUMENT + Util.MULTI_VALUE
                    + Util.OPTIONAL_PARAMETER)%N
                   "" "source vertices" Util.ti_string "app.cu" 11))
      as (_ & Hname & _).
    + vm_compute. reflexivity.
    + exact Hname.
Defined.

Lemma Parse_CommandLine_keeps_declarations_witness :
  ∃ P' cerr,
    CommandLine.Parse_CommandLine sample_type_info_name unit sample_strtol
      sample_strtol sample_strtol sample_strtol sample_strtod sample_strtod
      sample_strtod [(1, Some "g.mtx"); (2, None); (-1, None)] sample_registry
    = Some (cudaSuccess, P', cerr)
    ∧ dom (Util.p_map P') = dom (Util.p_map sample_registry)
    ∧ built P'.
Proof.
  destruct (CommandLine.Parse_CommandLine sample_type_info_name unit
              sample_strtol sample_strtol sample_strtol sample_strtol
              sample_strtod sample_strtod sample_strtod
              [(1, Some "g.mtx"); (2, None); (-1, None)] sample_registry)
    as [[[retval P'] cerr]|] eqn:Hrun; [|by vm_compute in Hrun].
  destruct (Parse_CommandLine_keeps_declarations _ _ _ _ _ _ _ _ _ _ _ _ _ _
              Hrun) as (-> & _ & Hdom & _ & Hbuilt).
  exists P', cerr. split; [reflexivity|]. split; [exact Hdom|].
  exact (Hbuilt sample_registry_built).
Defined.

Lemma Parse_CommandLine_bool_values_witness :
  ∃ P' cerr it',
    CommandLine.Parse_CommandLine sample_type_info_name unit sample_strtol
      sample_strtol sample_strtol sample_strtol sample_strtod sample_strtod
      sample_strtod [(2, Some " T")] sample_registry
    = Some (cudaSuccess, P', cerr)
    ∧ Util.p_map P' !! "quick" = Some it'
    ∧ lower (body (Util.value it')) ∈ bool_words.
Proof.
  assert (∃ P' cerr it',
            CommandLine.Parse_CommandLine sample_type_info_name unit
              sample_strtol sample_strtol sample_strtol sample_strtol
              sample_strtod sample_strtod sample_strtod
              [(2, Some " T")] sample_registry
            = Some (cudaSuccess, P', cerr)
            ∧ Util.p_map P' !! "quick" = Some it'
            ∧ Util.value it' = " T"
            ∧ Util.value_type_info it' = Util.ti_bool)
    as (P' & cerr & it' & Hrun & Hit & Hvalue & Hty).
  { vm_compute. eexists _, _, _. split; [reflexivity|].
    split; [reflexivity|]. split; reflexivity. }
  exists P', cerr, it'. split; [exact Hrun|]. split; [exact Hit|].
  destruct (Parse_CommandLine_bool_values _ _ _ _ _ _ _ _ _ _ _ _ _ _ "quick"
              it' Hrun Hit Hty) as [Hsame|[_ Hword]].
  - rewrite Hvalue. by vm_compute.
  - exfalso. vm_compute in Hsame. injection Hsame as <-.
    discriminate Hvalue.
  - exact Hword.
Defined.

Lemma Parse_CommandLine_option_given_twice_witness :
  ∃ P' cerr it',
    CommandLine.Parse_CommandLine sample_type_info_name unit sample_strtol
      sample_strtol sample_strtol sample_strtol sample_strtod sample_strtod
      sample_strtod [(3, Some "0"); (3, Some "5")] sample_registry
    = Some (cudaSuccess, P', cerr)
    ∧ Util.p_map P' !! "src" = Some it'
    ∧ Util.value it' = "0,5".
Proof.
  destruct (Parse_CommandLine_option_given_twice sample_type_info_name unit
              sample_strtol sample_strtol sample_strtol sample_strtol
              sample_strtod sample_strtod sample_strtod sample_registry 2%nat
              "src"
              (declared_item "src"
                 (Util.REQUIRED_ARGUMENT + Util.MULTI_VALUE
                  + Util.OPTIONAL_PARAMETER)%N
                 "" "source vertices" Util.ti_string "app.cu" 11)
              "0" "5")
    as (P' & cerr & it' & Hrun & Hit & Hvalue & _).
  - by vm_compute.
  - exact sample_registry_built.
  - vm_compute. reflexivity.
  - reflexivity.
  - reflexivity.
  - intros Hsingle. vm_compute in Hsingle. discriminate Hsingle.
  - exists P', cerr, it'. split; [exact Hrun|]. split; [exact Hit|].
    exact Hvalue.
Defined.

Lemma Parse_CommandLine_bool_switch_witness :
  ∃ P',
    CommandLine.Parse_CommandLine sample_type_info_name unit sample_strtol
      sample_strtol sample_strtol sample_strtol sample_strtod sample_strtod
      sample_strtod [(2, None)] sample_registry
    = Some (cudaSuccess, P', [])
    ∧ ∀ out, Util.Get "quick" out P' = (cudaSuccess, "true").
Proof.
  destruct (Parse_CommandLine_bool_switch sample_type_info_name unit
              sample_strtol sample_strtol sample_strtol sample_strtol
              sample_strtod sample_strtod sample_strtod sample_registry 1%nat
              "quick"
              (declared_item "quick"
                 (Util.NO_ARGUMENT + Util.SINGLE_VALUE
                  + Util.OPTIONAL_PARAMETER)%N
                 "0" "quick mode" Util.ti_bool "app.cu" 10))
    as (Hrun & Hok & Hget).
  - by vm_compute.
  - exact sample_registry_built.
  - vm_compute. reflexivity.
  - reflexivity.
  - reflexivity.
  - exists (Util.Set_ "quick" "true" sample_registry).2.
    split; [|exact Hget].
    transitivity (Some (Util.Set_ "quick" "true" sample_registry,
                        @nil CommandLine.cerr_message)); [exact Hrun|].
    reflexivity.
Defined.

Lemma Parse_CommandLine_single_value_refuses_a_list_witness :
  CommandLine.Parse_CommandLine sample_type_info_name unit sample_strtol
    sample_strtol sample_strtol sample_strtol sample_strtod sample_strtod
    sample_strtod [(1, Some "a.mtx,b.mtx")] sample_registry
  = Some (cudaSuccess, sample_registry,
          [CommandLine.Only_takes_single_argument "graph" "app.cu" 12]).
Proof.
  apply (Parse_CommandLine_single_value_refuses_a_list sample_type_info_name
           unit sample_strtol sample_strtol sample_strtol sample_strtol
           sample_strtod sample_strtod sample_strtod sample_registry 0%nat
           "graph"
           (declared_item "graph"
              (Util.REQUIRED_ARGUMENT + Util.SINGLE_VALUE
               + Util.REQUIRED_PARAMETER)%N
              "" "input graph" Util.ti_string "app.cu" 12)
           "a.mtx,b.mtx").
  - by vm_compute.
  - exact sample_registry_built.
  - vm_compute. reflexivity.
  - reflexivity.
  - reflexivity.
Defined.

Lemma Parse_CommandLine_passes_over_unknown_options_witness :
  CommandLine.Parse_CommandLine sample_type_info_name unit sample_strtol
    sample_strtol sample_strtol sample_strtol sample_strtod sample_strtod
    sample_strtod [(63, None); (63, Some "x")] sample_registry
  = Some (cudaSuccess, sample_registry, []).
Proof.
  apply (Parse_CommandLine_passes_over_unknown_options sample_type_info_name
           unit sample_strtol sample_strtol sample_strtol sample_strtol
           sample_strtod sample_strtod sample_strtod).
  - by vm_compute.
  - repeat constructor.
Defined.

Lemma FromCoo_builds_a_well_formed_graph_witness :
  Coo.well_formed true sample_coo
  ∧ Csc.nodes sample_csc = 4
  ∧ Memory.read (Csc.column_offsets sample_csc) 0 = 0
  ∧ Forall (λ r, 0 ≤ r < 4) (Memory.data (Csc.row_indices sample_csc)).
Proof.
  split; [exact sample_coo_well_formed|].
  pose proof (FromCoo_builds_a_well_formed_graph true false sample_coo new_Csc
                empty_memory sample_csc _ _ sample_coo_well_formed
                sample_csc_FromCoo)
    as (Hnodes & _ & _ & _ & Hrows & _ & _ & Hfirst).
  split; [exact Hnodes|]. split; [exact Hfirst|exact Hrows].
Defined.

Lemma CondEdge_rejects_a_claimed_vertex_witness :
  BFSFunctor.CondEdge true (-1) (-1) 2 1
    (BFSFunctor.mkDataSlice [0; 1; -1] [-1; 0; -1])
  = Some (false, BFSFunctor.mkDataSlice [0; 1; -1] [-1; 0; -1]).
Proof.
  apply (CondEdge_rejects_a_claimed_vertex true (-1) (-1) 2 1
           (BFSFunctor.mkDataSlice [0; 1; -1] [-1; 0; -1]) 0).
  - reflexivity.
  - discriminate.
Defined.

Lemma CondEdge_then_ApplyEdge_witness :
  ∃ p1 p2,
    BFSFunctor.CondEdge true (-1) (-1) 1 2
      (BFSFunctor.mkDataSlice [0; 1; -1] [-1; 0; -1]) = Some (true, p1)
    ∧ BFSFunctor.ApplyEdge true 1 2 p1 = Some p2
    ∧ BFSFunctor.d_preds p2 = [-1; 0; 1]
    ∧ BFSFunctor.d_labels p2 = [0; 1; 2].
Proof.
  apply (CondEdge_then_ApplyEdge (-1) (-1) 1 2
           (BFSFunctor.mkDataSlice [0; 1; -1] [-1; 0; -1]) 1 (-1));
    reflexivity.
Defined.

(** A memory whose fifth answer, the one [Coo::Order] gets, is an error. *)
Definition memory_failing_fifth : Memory.Memory :=
  Memory.mkMemory
    [cudaSuccess; cudaSuccess; cudaSuccess; cudaSuccess; cudaErrorUnknown] ∅.

Lemma FromCoo_stops_at_the_first_error_witness :
  (Csc.FromCoo true false sample_coo new_Csc memory_failing_fifth).1.1.1
  = cudaErrorUnknown
  ∧ Memory.data
      (Csc.row_indices
         (Csc.FromCoo true false sample_coo new_Csc memory_failing_fifth).1.1.2)
    = [0; 0; 0; 0; 0].
Proof.
  eassert (Csc.FromCoo true false sample_coo new_Csc memory_failing_fifth = _)
    as Heq.
  { eapply (FromCoo_stops_at_the_first_error true false sample_coo new_Csc
              memory_failing_fifth 1%nat).
    - reflexivity.
    - vm_compute. reflexivity.
    - vm_compute. reflexivity.
    - reflexivity. }
  rewrite Heq. split; reflexivity.
Defined.
